(** * Robot path planner: the path/command compiler of
      [autonomus_command_generator.py]

    A shallow embedding of the [FieldCanvas] class: the waypoint list, the
    coordinate-keyed command dictionary, the clasp/scoop bookkeeping, the
    densifier and the two export passes; and of the [MainApp] window that
    makes the canvas.  Canvas drawing and [print] calls have no effect on
    the model state and are left out, but for the rectangle that shades the
    closed side; a message box is kept as the handler's outcome. *)

From Stdlib Require Import ZArith Lia List Bool String Ascii.
From Stdlib Require Import Floats.SpecFloat.
From stdpp Require Import gmap list.

Local Open Scope Z_scope.

(** ** Python exceptions and results *)

Inductive exn :=
| IndexError | KeyError | AttributeError | UnboundLocalError
| ZeroDivisionError | OverflowError | ValueError.

Inductive result (A : Type) :=
| Ok (a : A)
| Raise (e : exn).
Arguments Ok {A} a.
Arguments Raise {A} e.

Definition rbind {A B} (r : result A) (k : A -> result B) : result B :=
  match r with
  | Ok a => k a
  | Raise e => Raise e
  end.

(** ** Python numbers

    Coordinates delivered by Tk are [int]; everything the densifier derives
    from them is a [float] (IEEE 754 binary64).  [+ - * / sqrt] are
    correctly rounded, so they are the [SpecFloat] operations at precision
    53.  Python reports some non-finite results as exceptions
    ([OverflowError], [ValueError]); the arithmetic below keeps the IEEE
    value instead and the exception is raised where the value is turned back
    into an [int]. *)

Module Py.

Definition float := spec_float.
Definition prec : Z := 53.
Definition emax : Z := 1024.

Definition fadd : float -> float -> float := SFadd prec emax.
Definition fsub : float -> float -> float := SFsub prec emax.
Definition fmul : float -> float -> float := SFmul prec emax.
Definition fdiv : float -> float -> float := SFdiv prec emax.
Definition fsqrt : float -> float := SFsqrt prec emax.

(** [float(z)] *)
Definition float_of_Z (z : Z) : float := binary_normalize prec emax z 0 false.

Inductive num :=
| Int (z : Z)
| Float (f : float).

Definition to_float (a : num) : float :=
  match a with
  | Int z => float_of_Z z
  | Float f => f
  end.

Definition add (a b : num) : num :=
  match a, b with
  | Int x, Int y => Int (x + y)
  | _, _ => Float (fadd (to_float a) (to_float b))
  end.

Definition sub (a b : num) : num :=
  match a, b with
  | Int x, Int y => Int (x - y)
  | _, _ => Float (fsub (to_float a) (to_float b))
  end.

Definition mul (a b : num) : num :=
  match a, b with
  | Int x, Int y => Int (x * y)
  | _, _ => Float (fmul (to_float a) (to_float b))
  end.

(** [a / b], true division, for a divisor that is not zero.  For two ints
    Python rounds the exact quotient once; below 2^53, which is all the
    program divides, that is the quotient of the two floats. *)
Definition truediv (a b : num) : num :=
  Float (fdiv (to_float a) (to_float b)).

Definition is_zero (a : num) : bool :=
  match a with
  | Int z => z =? 0
  | Float (S754_zero _) => true
  | Float _ => false
  end.

(** [a < b] and [a >= b]; a comparison with NaN is false. *)
Definition ltb (a b : num) : bool :=
  match a, b with
  | Int x, Int y => x <? y
  | _, _ => SFltb (to_float a) (to_float b)
  end.

Definition geb (a b : num) : bool :=
  match a, b with
  | Int x, Int y => y <=? x
  | _, _ => SFleb (to_float b) (to_float a)
  end.

(** [min(a, b)]: the first argument unless the second is smaller. *)
Definition min (a b : num) : num := if ltb b a then b else a.

(** [int(f)]: truncation towards zero. *)
Definition int_of_float (f : float) : result Z :=
  match f with
  | S754_zero _ => Ok 0
  | S754_finite s m e =>
      Ok (cond_Zopp s (match e with
                       | Zneg p => Z.shiftr (Zpos m) (Zpos p)
                       | _ => Z.shiftl (Zpos m) e
                       end))
  | S754_infinity _ => Raise OverflowError
  | S754_nan => Raise ValueError
  end.

Definition int (a : num) : result Z :=
  match a with
  | Int z => Ok z
  | Float f => int_of_float f
  end.

(** [range(lo, hi)] *)
Definition range (lo hi : Z) : list Z :=
  map (fun k => lo + Z.of_nat k) (seq 0 (Z.to_nat (hi - lo))).

(** [l[i]], with Python's negative indices. *)
Definition index {A} (l : list A) (i : Z) : result A :=
  let n := Z.of_nat (length l) in
  let j := if i <? 0 then i + n else i in
  if (0 <=? j) && (j <? n)
  then match l !! Z.to_nat j with
       | Some a => Ok a
       | None => Raise IndexError
       end
  else Raise IndexError.

(** [math.pi] and the factor [180.0 / math.pi] of [math.degrees]. *)
Definition pi : float := S754_finite false 7074237752028440 (-51).
Definition radToDeg : float := fdiv (float_of_Z 180) pi.
Definition degrees (x : float) : float := fmul x radToDeg.

End Py.

Import Py.

Definition point : Type := num * num.

(** ** Geometry and densifier

    [math.atan2] and the C [pow] behind [float ** 2] come from the platform's
    libm and are not correctly rounded; they are parameters. *)

Section Densifier.

Variable atan2 : float -> float -> float.
Variable pow : float -> float -> float.

(** [a ** 2] *)
Definition sq (a : num) : num :=
  match a with
  | Int z => Int (z * z)
  | Float f => Float (pow f (float_of_Z 2))
  end.

Definition calculate_distance (p1 p2 : point) : num :=
  Float (fsqrt (to_float (add (sq (sub (fst p2) (fst p1)))
                              (sq (sub (snd p2) (snd p1)))))).

Definition calculate_dynamic_speed (distance : num) : num :=
  let base_speed := Int 40 in
  let max_speed := Int 100 in
  let speed := add base_speed
                   (mul (truediv distance (Int 100)) (sub max_speed base_speed)) in
  min speed max_speed.

Definition bezier_coordinate (t a c b : num) : num :=
  add (add (mul (sq (sub (Int 1) t)) a)
           (mul (mul (mul (Int 2) (sub (Int 1) t)) t) c))
      (mul (sq t) b).

Definition calculate_quadratic_bezier_points (p1 p2 control : point) : list point :=
  map (fun k =>
         let t := truediv (Int k) (Int 100) in
         (bezier_coordinate t (fst p1) (fst control) (fst p2),
          bezier_coordinate t (snd p1) (snd control) (snd p2)))
      (range 0 101).

(** [max(1, n)] on ints *)
Definition max1 (n : Z) : Z := if 1 <? n then n else 1.

Definition generate_intermediate_points
    (p1 p2 : point) (control : option point) (distance_threshold : num)
  : result (list point) :=
  match control with
  | None =>
      let distance := calculate_distance p1 p2 in
      if is_zero distance_threshold then Raise ZeroDivisionError else
      rbind (int (truediv distance distance_threshold)) (fun k =>
      let num_points := max1 k in
      Ok (map (fun i =>
                 let t := truediv (Int i) (Int num_points) in
                 (add (fst p1) (mul t (sub (fst p2) (fst p1))),
                  add (snd p1) (mul t (sub (snd p2) (snd p1)))))
              (range 1 (num_points + 1))))
  | Some control =>
      let bezier_points := calculate_quadratic_bezier_points p1 p2 control in
      Ok (flat_map
            (fun i =>
               match bezier_points !! Z.to_nat (i - 1),
                     bezier_points !! Z.to_nat i with
               | Some a, Some b =>
                   if geb (calculate_distance a b) distance_threshold
                   then [b] else []
               | _, _ => []
               end)
            (range 1 (Z.of_nat (length bezier_points))))
  end.

Definition calculate_heading (p1 p2 : point) : float :=
  let dx := sub (fst p2) (fst p1) in
  let dy := sub (snd p2) (snd p1) in
  degrees (atan2 (to_float dy) (to_float dx)).

End Densifier.

(** ** Field constants *)

Definition TILE_SIZE_MM : Z := 600.
Definition FIELD_SIZE_MM : Z := TILE_SIZE_MM * 6.
Definition FIELD_SIZE_PX : Z := FIELD_SIZE_MM / 10.
Definition CENTRAL_LINE_OFFSET : Z := 10.

(** The keys of [COMMANDS]. *)
Inductive command := PickUp | Place | Scoop | Release | Clasp | NoCommand.

Definition command_eqb (a b : command) : bool :=
  match a, b with
  | PickUp, PickUp | Place, Place | Scoop, Scoop
  | Release, Release | Clasp, Clasp | NoCommand, NoCommand => true
  | _, _ => false
  end.

(** ** The canvas state *)

Record FieldCanvas := {
  selected_side : string;
  path_points : list (Z * Z);
  dragging_curve : bool;
  selected_waypoint_index : Z;
  waypoint_commands : gmap (Z * Z) command;
  pending_clasp : bool;
  scoops_to_release : Z;
  central_line_x : Z
}.

(** [FieldCanvas.__init__] *)
Definition init (side : string) : FieldCanvas :=
  {| selected_side := side;
     path_points := [];
     dragging_curve := false;
     selected_waypoint_index := -1;
     waypoint_commands := ∅;
     pending_clasp := false;
     scoops_to_release := 0;
     central_line_x := FIELD_SIZE_PX / 2 |}.

Definition set_path (fc : FieldCanvas) (l : list (Z * Z)) : FieldCanvas :=
  {| selected_side := selected_side fc;
     path_points := l;
     dragging_curve := dragging_curve fc;
     selected_waypoint_index := selected_waypoint_index fc;
     waypoint_commands := waypoint_commands fc;
     pending_clasp := pending_clasp fc;
     scoops_to_release := scoops_to_release fc;
     central_line_x := central_line_x fc |}.

Definition set_dragging (fc : FieldCanvas) (b : bool) : FieldCanvas :=
  {| selected_side := selected_side fc;
     path_points := path_points fc;
     dragging_curve := b;
     selected_waypoint_index := selected_waypoint_index fc;
     waypoint_commands := waypoint_commands fc;
     pending_clasp := pending_clasp fc;
     scoops_to_release := scoops_to_release fc;
     central_line_x := central_line_x fc |}.

Definition set_selected (fc : FieldCanvas) (i : Z) : FieldCanvas :=
  {| selected_side := selected_side fc;
     path_points := path_points fc;
     dragging_curve := dragging_curve fc;
     selected_waypoint_index := i;
     waypoint_commands := waypoint_commands fc;
     pending_clasp := pending_clasp fc;
     scoops_to_release := scoops_to_release fc;
     central_line_x := central_line_x fc |}.

Definition set_command (fc : FieldCanvas) (wp : Z * Z) (c : command) : FieldCanvas :=
  {| selected_side := selected_side fc;
     path_points := path_points fc;
     dragging_curve := dragging_curve fc;
     selected_waypoint_index := selected_waypoint_index fc;
     waypoint_commands := <[wp := c]> (waypoint_commands fc);
     pending_clasp := pending_clasp fc;
     scoops_to_release := scoops_to_release fc;
     central_line_x := central_line_x fc |}.

Definition set_pending_clasp (fc : FieldCanvas) (b : bool) : FieldCanvas :=
  {| selected_side := selected_side fc;
     path_points := path_points fc;
     dragging_curve := dragging_curve fc;
     selected_waypoint_index := selected_waypoint_index fc;
     waypoint_commands := waypoint_commands fc;
     pending_clasp := b;
     scoops_to_release := scoops_to_release fc;
     central_line_x := central_line_x fc |}.

Definition set_scoops (fc : FieldCanvas) (n : Z) : FieldCanvas :=
  {| selected_side := selected_side fc;
     path_points := path_points fc;
     dragging_curve := dragging_curve fc;
     selected_waypoint_index := selected_waypoint_index fc;
     waypoint_commands := waypoint_commands fc;
     pending_clasp := pending_clasp fc;
     scoops_to_release := n;
     central_line_x := central_line_x fc |}.

(** What a handler reports: it ran to its end, it returned early after a
    [messagebox.showerror] with the given title, or it raised. *)
Inductive outcome :=
| Done
| ShowError (title : string)
| Raised (e : exn).

(** ** Placing waypoints *)

Definition is_valid_point (fc : FieldCanvas) (x : Z) : bool :=
  if String.eqb (selected_side fc) "left"
     && (central_line_x fc - CENTRAL_LINE_OFFSET <? x)
  then false
  else if String.eqb (selected_side fc) "right"
          && (x <? central_line_x fc + CENTRAL_LINE_OFFSET)
  then false
  else true.

Definition add_starting_point (fc : FieldCanvas) (x y : Z) : FieldCanvas :=
  set_command (set_path fc (path_points fc ++ [(x, y)])) (x, y) NoCommand.

Definition add_straight_line (fc : FieldCanvas) (x y : Z) : outcome * FieldCanvas :=
  if negb (is_valid_point fc x) then (ShowError "Invalid Point", fc)
  else match path_points fc with
       | [] => (Done, add_starting_point fc x y)
       | _ :: _ =>
           (Done, set_command (set_path fc (path_points fc ++ [(x, y)])) (x, y) NoCommand)
       end.

Definition start_curve_point (fc : FieldCanvas) (x y : Z) : outcome * FieldCanvas :=
  if negb (is_valid_point fc x) then (ShowError "Invalid Point", fc)
  else match path_points fc with
       | [] => (Done, add_starting_point fc x y)
       | _ :: _ =>
           (Done,
            set_dragging
              (set_command (set_path fc (path_points fc ++ [(x, y)])) (x, y) NoCommand)
              true)
       end.

Definition ipoint (p : Z * Z) : point := (Int (fst p), Int (snd p)).

Definition calculate_bezier_end {A : Type} (p1 p2 control : A * A) : A * A :=
  (fst p2, snd p2).

(** [adjust_curve_point] only redraws the preview: the state is as before,
    unless reading the two last waypoints raises. *)
Definition adjust_curve_point (fc : FieldCanvas) (cx cy : Z) : outcome * FieldCanvas :=
  if negb (dragging_curve fc) then (Done, fc)
  else match index (path_points fc) (-2), index (path_points fc) (-1) with
       | Ok _, Ok _ => (Done, fc)
       | Raise e, _ | _, Raise e => (Raised e, fc)
       end.

(** [finalize_curve_point]: the control point of the release event is used
    for drawing only; the last waypoint is overwritten with itself. *)
Definition finalize_curve_point (fc : FieldCanvas) (cx cy : Z) : outcome * FieldCanvas :=
  if negb (dragging_curve fc) then (Done, fc)
  else
    let fc1 := set_dragging fc false in
    match index (path_points fc1) (-2), index (path_points fc1) (-1) with
    | Ok a, Ok b =>
        let last_curve_end := calculate_bezier_end a b (cx, cy) in
        let p2 := last_curve_end in
        (Done, set_path fc1 (removelast (path_points fc1) ++ [p2]))
    | Raise e, _ | _, Raise e => (Raised e, fc1)
    end.

(** ** Selecting a waypoint and assigning a command *)

Definition cycle_waypoint (fc : FieldCanvas) (direction : Z) : outcome * FieldCanvas :=
  match path_points fc with
  | [] => (Done, fc)
  | _ :: _ =>
      let deselect :=
        if selected_waypoint_index fc =? -1 then Ok tt
        else rbind (index (path_points fc) (selected_waypoint_index fc)) (fun current_wp =>
             match waypoint_commands fc !! current_wp with
             | Some _ => Ok tt
             | None => Raise KeyError
             end) in
      match deselect with
      | Raise e => (Raised e, fc)
      | Ok _ =>
          (Done,
           set_selected fc ((selected_waypoint_index fc + direction)
                            `mod` Z.of_nat (length (path_points fc))))
      end
  end.

Definition assign_command (fc : FieldCanvas) (cmd : command) : outcome * FieldCanvas :=
  if selected_waypoint_index fc =? -1 then (ShowError "No Waypoint Selected", fc)
  else match index (path_points fc) (selected_waypoint_index fc) with
       | Raise e => (Raised e, fc)
       | Ok selected_wp =>
           if command_eqb cmd Scoop && negb (pending_clasp fc)
           then (ShowError "Clasp Required", fc)
           else
             let fc1 := if command_eqb cmd Scoop
                        then set_scoops fc (scoops_to_release fc + 1) else fc in
             let fc2 := if command_eqb cmd Clasp
                        then set_pending_clasp fc1 true else fc1 in
             if command_eqb cmd Release && (scoops_to_release fc2 =? 0)
             then (ShowError "No Scoops", fc2)
             else
               let fc3 := if command_eqb cmd Release
                          then set_pending_clasp (set_scoops fc2 0) false else fc2 in
               (Done, set_command fc3 selected_wp cmd)
       end.

Definition remove_command (fc : FieldCanvas) : outcome * FieldCanvas :=
  if selected_waypoint_index fc =? -1 then (ShowError "No Waypoint Selected", fc)
  else match index (path_points fc) (selected_waypoint_index fc) with
       | Raise e => (Raised e, fc)
       | Ok selected_wp => (Done, set_command fc selected_wp NoCommand)
       end.

(** ** Export

    A pass writes lines to the file it has open; when it raises, the lines
    written so far stay in the file ([with open(...)] closes it). *)

Inductive CommandType :=
| CMD_MOVE_WITH_HEADING
| CMD (c : command).

(** The values interpolated into one array entry or transcript line. *)
Record Instruction := {
  kind : CommandType;
  pos : point;
  heading : float;
  speed : num
}.

Inductive line :=
| Text (s : string)
| Entry (i : Instruction).

Definition io (A : Type) : Type := list line -> result A * list line.

Definition ret {A} (a : A) : io A := fun out => (Ok a, out).
Definition raise {A} (e : exn) : io A := fun out => (Raise e, out).
Definition lift {A} (r : result A) : io A := fun out => (r, out).
Definition write (l : line) : io unit := fun out => (Ok tt, out ++ [l]).
Definition bind {A B} (m : io A) (k : A -> io B) : io B :=
  fun out =>
    match m out with
    | (Ok a, out') => k a out'
    | (Raise e, out') => (Raise e, out')
    end.

Notation "x <- m ;; k" := (bind m (fun x => k))
  (at level 62, m at next level, right associativity).
Notation "m ;;; k" := (bind m (fun _ => k))
  (at level 62, right associativity).

(** [for x in xs: body], threading the local variable the body assigns. *)
Fixpoint for_each {A S} (xs : list A) (body : A -> S -> io S) (s : S) : io S :=
  match xs with
  | [] => ret s
  | x :: xs' => s' <- body x s ;; for_each xs' body s'
  end.

Definition header : list string :=
  [ "#include <stddef.h>"; "";
    "typedef enum {";
    "    CMD_MOVE_WITH_HEADING,";
    "    CMD_PICK_UP,";
    "    CMD_PLACE,";
    "    CMD_SCOOP,";
    "    CMD_RELEASE,";
    "    CMD_CLASP";
    "} CommandType;"; "";
    "typedef struct {";
    "    CommandType command;";
    "    float x;";
    "    float y;";
    "    float heading;";
    "    float speed;";
    "} Command;"; "";
    "Command autonomous_commands[] = {" ]%string.

Definition footer : list string :=
  [ "};";
    "const size_t num_autonomous_commands = sizeof(autonomous_commands) / sizeof(autonomous_commands[0]);"
  ]%string.

Definition write_all (ls : list string) : io unit :=
  for_each ls (fun s _ => write (Text s)) tt.

(** The two output files: [None] while a file has not been opened. *)
Record files := {
  c_file : option (list line);
  txt_file : option (list line)
}.

Section ExportPasses.

Variable atan2 : float -> float -> float.
Variable pow : float -> float -> float.

(** [self.waypoint_commands[wp]] *)
Definition command_at (fc : FieldCanvas) (wp : Z * Z) : result command :=
  match waypoint_commands fc !! wp with
  | Some c => Ok c
  | None => Raise KeyError
  end.

(** The class has no method [calculate_bezier_control_point]: looking the
    attribute up raises. *)
Definition calculate_bezier_control_point (p1 p2 : point) : result point :=
  Raise AttributeError.

Definition command_entry (c : command) (wp : Z * Z) (h : float) : line :=
  Entry {| kind := CMD c; pos := ipoint wp; heading := h; speed := Int 0 |}.

Definition move_entry (p : point) (h : float) (v : num) : line :=
  Entry {| kind := CMD_MOVE_WITH_HEADING; pos := p; heading := h; speed := v |}.

(** One iteration of the loop over [range(len(self.path_points) - 1)];
    the value threaded is the local [heading] ([None] while unbound). *)
Definition segment (fc : FieldCanvas) (i : Z) (_ : option float) : io (option float) :=
  p1 <- lift (index (path_points fc) i) ;;
  p2 <- lift (index (path_points fc) (i + 1)) ;;
  cmd <- lift (command_at fc p1) ;;
  let h := calculate_heading atan2 (ipoint p1) (ipoint p2) in
  intermediate_points <-
    lift (if (i <? Z.of_nat (length (path_points fc)) - 1) && dragging_curve fc
          then rbind (calculate_bezier_control_point (ipoint p1) (ipoint p2)) (fun control =>
               generate_intermediate_points pow (ipoint p1) (ipoint p2)
                                            (Some control) (Int 3))
          else generate_intermediate_points pow (ipoint p1) (ipoint p2) None (Int 3)) ;;
  (if negb (command_eqb cmd NoCommand) then write (command_entry cmd p1 h) else ret tt) ;;;
  for_each intermediate_points
    (fun pt _ =>
       let distance := calculate_distance pow (ipoint p1) pt in
       let v := calculate_dynamic_speed distance in
       write (move_entry pt h v)) tt ;;;
  ret (Some h).

(** The loop and the lines for the last waypoint, as both passes have them.
    [heading] is one local variable of [export_to_files]: the second pass
    starts with the value the first pass left in it. *)
Definition commands_pass (fc : FieldCanvas) (heading0 : option float)
  : io (option float) :=
  h <- for_each (range 0 (Z.of_nat (length (path_points fc)) - 1)) (segment fc) heading0 ;;
  final_point <- lift (index (path_points fc) (-1)) ;;
  final_command <- lift (command_at fc final_point) ;;
  (if negb (command_eqb final_command NoCommand)
   then match h with
        | Some h' => write (command_entry final_command final_point h')
        | None => raise UnboundLocalError
        end
   else ret tt) ;;;
  ret h.

Definition c_pass (fc : FieldCanvas) : io (option float) :=
  write_all header ;;;
  h <- commands_pass fc None ;;
  write_all footer ;;;
  ret h.

(** The transcript repeats the loop; its line for a command leaves the
    speed field out. *)
Definition txt_pass (fc : FieldCanvas) (heading0 : option float) : io unit :=
  commands_pass fc heading0 ;;;
  ret tt.

Definition export_to_files (fc : FieldCanvas) (fs : files) : result unit * files :=
  match c_pass fc [] with
  | (Raise e, out) => (Raise e, {| c_file := Some out; txt_file := txt_file fs |})
  | (Ok h, out) =>
      match txt_pass fc h [] with
      | (r, out') => (r, {| c_file := Some out; txt_file := Some out' |})
      end
  end.

End ExportPasses.

(** ** The event loop

    The bindings of [FieldCanvas.__init__], the buttons of
    [create_command_buttons] and the side buttons of [MainApp], as one step
    function. *)

Definition set_side (fc : FieldCanvas) (side : string) : FieldCanvas :=
  {| selected_side := side;
     path_points := path_points fc;
     dragging_curve := dragging_curve fc;
     selected_waypoint_index := selected_waypoint_index fc;
     waypoint_commands := waypoint_commands fc;
     pending_clasp := pending_clasp fc;
     scoops_to_release := scoops_to_release fc;
     central_line_x := central_line_x fc |}.

Inductive event :=
| RightClick (x y : Z)
| LeftPress (x y : Z)
| LeftMotion (x y : Z)
| LeftRelease (x y : Z)
| ArrowKey (direction : Z)
| CommandButton (cmd : command)
| RemoveButton
| SideButton (side : string).

Definition handle (fc : FieldCanvas) (ev : event) : outcome * FieldCanvas :=
  match ev with
  | RightClick x y => add_straight_line fc x y
  | LeftPress x y => start_curve_point fc x y
  | LeftMotion x y => adjust_curve_point fc x y
  | LeftRelease x y => finalize_curve_point fc x y
  | ArrowKey direction => cycle_waypoint fc direction
  | CommandButton cmd => assign_command fc cmd
  | RemoveButton => remove_command fc
  | SideButton side => (Done, set_side fc side)
  end.

(** Pointer coordinates are C [int]s. *)
Definition c_int (z : Z) : Prop := - 2 ^ 31 <= z < 2 ^ 31.

Definition in_range (p : Z * Z) : Prop := c_int (fst p) /\ c_int (snd p).

Definition event_in_range (ev : event) : Prop :=
  match ev with
  | RightClick x y | LeftPress x y | LeftMotion x y | LeftRelease x y =>
      c_int x /\ c_int y
  | _ => True
  end.

(** The states the application can be in. *)
Inductive reachable : FieldCanvas -> Prop :=
| reachable_init side : reachable (init side)
| reachable_step fc ev :
    reachable fc -> event_in_range ev -> reachable (snd (handle fc ev)).

(** What holds in every such state. *)
Definition consistent (fc : FieldCanvas) : Prop :=
  (forall p, p ∈ path_points fc -> is_Some (waypoint_commands fc !! p) /\ in_range p) /\
  0 <= scoops_to_release fc /\
  (selected_waypoint_index fc = -1 \/
   0 <= selected_waypoint_index fc < Z.of_nat (length (path_points fc))) /\
  (dragging_curve fc = true -> (2 <= length (path_points fc))%nat).

(** No drag is in progress, and every waypoint has an entry in the command
    dictionary and pointer coordinates. *)
Definition exportable (fc : FieldCanvas) : Prop :=
  dragging_curve fc = false /\
  forall p, p ∈ path_points fc -> is_Some (waypoint_commands fc !! p) /\ in_range p.

(** A checkable form of [exportable]. *)
Definition c_intb (z : Z) : bool := (- 2 ^ 31 <=? z) && (z <? 2 ^ 31).

Definition exportableb (fc : FieldCanvas) : bool :=
  negb (dragging_curve fc)
  && forallb (fun p => match waypoint_commands fc !! p with
                       | Some _ => c_intb (fst p) && c_intb (snd p)
                       | None => false
                       end) (path_points fc).

(** * What the statements below speak of *)

(** ** The command state machine *)

Definition command_state (fc : FieldCanvas) : bool * Z :=
  (pending_clasp fc, scoops_to_release fc).

Inductive CommandError := ClaspRequired | NoPendingScoop | NoWaypointSelected.

Definition error_title (e : CommandError) : string :=
  match e with
  | ClaspRequired => "Clasp Required"
  | NoPendingScoop => "No Scoops"
  | NoWaypointSelected => "No Waypoint Selected"
  end.

(** The transition table of the specification (section 4.3), on the state
    [(clasped, pendingScoops)]. *)
Definition spec_tryAssign (st : bool * Z) (cmd : command) : CommandError + bool * Z :=
  match cmd with
  | Clasp => inr (true, snd st)
  | Scoop => if fst st then inr (fst st, snd st + 1) else inl ClaspRequired
  | Release => if 0 <? snd st then inr (false, 0) else inl NoPendingScoop
  | PickUp | Place | NoCommand => inr st
  end.

(** Everything of the canvas that a command assignment may not touch. *)
Definition same_path (fc fc' : FieldCanvas) : Prop :=
  selected_side fc' = selected_side fc /\
  path_points fc' = path_points fc /\
  dragging_curve fc' = dragging_curve fc /\
  selected_waypoint_index fc' = selected_waypoint_index fc /\
  central_line_x fc' = central_line_x fc.

(** Assignments in a row, stopping at the first that does not run to its
    end. *)
Fixpoint assign_all (fc : FieldCanvas) (cmds : list command) : outcome * FieldCanvas :=
  match cmds with
  | [] => (Done, fc)
  | c :: cs =>
      match assign_command fc c with
      | (Done, fc') => assign_all fc' cs
      | r => r
      end
  end.

(** ** The side restriction *)

(** The point lies beyond the margin of the active side. *)
Definition restricted (fc : FieldCanvas) (x : Z) : Prop :=
  selected_side fc = "left"%string /\ central_line_x fc - CENTRAL_LINE_OFFSET < x \/
  selected_side fc = "right"%string /\ x < central_line_x fc + CENTRAL_LINE_OFFSET.

(** ** Numbers *)

(** 1.0 *)
Definition one : float := S754_finite false 4503599627370496 (-52).

(** A float that is zero or positive and finite, with its exponent between
    [lo] and [hi]. *)
Definition fin_nonneg (lo hi : Z) (f : float) : Prop :=
  match f with
  | S754_zero s => s = false
  | S754_finite s m e => s = false /\ Zpos m < 2 ^ 53 /\ lo <= e <= hi
  | _ => False
  end.

(** [a == z] for a float and an int: the comparison is exact. *)
Definition float_eq_Z (f : float) (z : Z) : bool :=
  match f with
  | S754_zero _ => z =? 0
  | S754_finite s m e =>
      if e <? 0 then cond_Zopp s (Zpos m) =? z * 2 ^ (- e)
      else cond_Zopp s (Zpos m) * 2 ^ e =? z
  | _ => false
  end.

Definition num_eq_Z (a : num) (z : Z) : bool :=
  match a with
  | Int x => x =? z
  | Float f => float_eq_Z f z
  end.

(** [atan2(+0, x) = +0] for a positive finite [x]. *)
Definition atan2_on_axis (atan2 : float -> float -> float) : Prop :=
  forall m e, atan2 (S754_zero false) (S754_finite false m e) = S754_zero false.

(** ** The densifier *)

(** The point at parameter [t] on the line from [p1] to [p2]. *)
Definition line_point (p1 p2 : point) (t : num) : point :=
  (add (fst p1) (mul t (sub (fst p2) (fst p1))),
   add (snd p1) (mul t (sub (snd p2) (snd p1)))).

(** The ramp of the specification: [40 + (s/100) * 60], cut off at 100. *)
Definition spec_speed (s : num) : num :=
  let ramp := add (Int 40) (mul (truediv s (Int 100)) (Int 60)) in
  if ltb (Int 100) ramp then Int 100 else ramp.

Section Filters.

Variable pow : float -> float -> float.

(** The filter of the specification for a curved segment: a sample is kept
    when it is at least [d] away from the sample kept last. *)
Fixpoint spec_retained (d : num) (prev : point) (samples : list point) : list point :=
  match samples with
  | [] => []
  | b :: rest =>
      if geb (calculate_distance pow prev b) d
      then b :: spec_retained d b rest
      else spec_retained d prev rest
  end.

Definition spec_curve_points (p1 p2 control : point) (d : num) : list point :=
  match calculate_quadratic_bezier_points pow p1 p2 control with
  | [] => []
  | b0 :: rest => spec_retained d b0 rest
  end.

(** The filter of the code: a sample is kept when it is at least [d] away
    from the sample just before it. *)
Fixpoint kept_by_neighbour (d : num) (prev : point) (samples : list point) : list point :=
  match samples with
  | [] => []
  | b :: rest =>
      (if geb (calculate_distance pow prev b) d then [b] else [])
        ++ kept_by_neighbour d b rest
  end.

End Filters.

(** ** The files *)

Definition is_move (l : line) : bool :=
  match l with
  | Entry {| kind := CMD_MOVE_WITH_HEADING |} => true
  | _ => false
  end.

Definition is_text (l : line) : bool :=
  match l with
  | Text _ => true
  | Entry _ => false
  end.

Definition line_pos (l : line) : option point :=
  match l with
  | Entry e => Some (pos e)
  | Text _ => None
  end.

Definition line_heading (l : line) : option float :=
  match l with
  | Entry e => Some (heading e)
  | Text _ => None
  end.

Section Output.

Variable atan2 : float -> float -> float.
Variable pow : float -> float -> float.

Definition command_lines (cmd : command) (wp : Z * Z) (h : float) : list line :=
  if negb (command_eqb cmd NoCommand) then [command_entry cmd wp h] else [].

Definition moves (p1 : Z * Z) (h : float) (pts : list point) : list line :=
  map (fun pt =>
         move_entry pt h
           (calculate_dynamic_speed (calculate_distance pow (ipoint p1) pt)))
      pts.

Definition straight_points (p1 p2 : Z * Z) : list point :=
  match generate_intermediate_points pow (ipoint p1) (ipoint p2) None (Int 3) with
  | Ok pts => pts
  | Raise _ => []
  end.

Definition stored_command (fc : FieldCanvas) (p : Z * Z) : command :=
  default NoCommand (waypoint_commands fc !! p).

(** What the loop writes for the segment from [p1] to [p2]. *)
Definition segment_lines (fc : FieldCanvas) (p1 p2 : Z * Z) : list line :=
  let h := calculate_heading atan2 (ipoint p1) (ipoint p2) in
  command_lines (stored_command fc p1) p1 h ++ moves p1 h (straight_points p1 p2).

Fixpoint segments_output (fc : FieldCanvas) (l : list (Z * Z)) : list line :=
  match l with
  | [] => []
  | p1 :: tl =>
      match tl with
      | [] => []
      | p2 :: _ => segment_lines fc p1 p2 ++ segments_output fc tl
      end
  end.

(** The local [heading] after the loop has run over [l]. *)
Fixpoint last_heading (l : list (Z * Z)) (h0 : option float) : option float :=
  match l with
  | [] => h0
  | p1 :: tl =>
      match tl with
      | [] => h0
      | p2 :: _ => last_heading tl (Some (calculate_heading atan2 (ipoint p1) (ipoint p2)))
      end
  end.

(** The motion lines the specification asks for the sub-points [pts] of a
    segment that starts at [p1]: each with the segment's heading and with
    the ramp at its distance from [p1]. *)
Definition ramp_moves (p1 : Z * Z) (h : float) (pts : list point) : list line :=
  map (fun pt => move_entry pt h (spec_speed (calculate_distance pow (ipoint p1) pt))) pts.

(** Those lines for all the segments of the path [l], in the order of the
    path. *)
Fixpoint motion_lines (l : list (Z * Z)) : list line :=
  match l with
  | [] => []
  | p1 :: tl =>
      match tl with
      | [] => []
      | p2 :: _ =>
          ramp_moves p1 (calculate_heading atan2 (ipoint p1) (ipoint p2))
                     (straight_points p1 p2)
            ++ motion_lines tl
      end
  end.

(** A motion line belongs to a segment of the path: it carries that
    segment's heading, its point is one of the segment's sub-points, and
    its speed is the ramp at the distance from the segment's start. *)
Definition move_of_segment (fc : FieldCanvas) (l : line) : Prop :=
  match l with
  | Text _ => True
  | Entry e =>
      kind e = CMD_MOVE_WITH_HEADING ->
      exists i p1 p2 pts,
        index (path_points fc) i = Ok p1 /\
        index (path_points fc) (i + 1) = Ok p2 /\
        generate_intermediate_points pow (ipoint p1) (ipoint p2) None (Int 3) = Ok pts /\
        pos e ∈ pts /\
        heading e = calculate_heading atan2 (ipoint p1) (ipoint p2) /\
        speed e = spec_speed (calculate_distance pow (ipoint p1) (pos e))
  end.

(** Wherever the waypoint [wp] stands in the path, the export writes the
    command [cmd] for it: at the head of the lines of the segment that
    leaves it, or after the loop when it is the last waypoint. *)
Definition emits_command_at (fc : FieldCanvas) (wp : Z * Z) (cmd : command) : Prop :=
  (forall (k : nat) next h0 out,
      path_points fc !! k = Some wp -> path_points fc !! S k = Some next ->
      let h := calculate_heading atan2 (ipoint wp) (ipoint next) in
      segment atan2 pow fc (Z.of_nat k) h0 out
      = (Ok (Some h),
         out ++ command_lines cmd wp h ++ moves wp h (straight_points wp next))) /\
  (forall l p fs,
      path_points fc = l ++ [p; wp] ->
      let h := calculate_heading atan2 (ipoint p) (ipoint wp) in
      export_to_files atan2 pow fc fs
      = (Ok tt,
         {| c_file := Some (map Text header
                            ++ (segments_output fc (path_points fc)
                                ++ command_lines cmd wp h)
                            ++ map Text footer);
            txt_file := Some (segments_output fc (path_points fc)
                              ++ command_lines cmd wp h) |})).

End Output.

(** * Scenarios *)

(** A libm to run the scenarios with: [pow] is the correctly rounded square
    at exponent 2, [atan2] is given on the positive x axis, where C99 fixes
    its value. *)
Module Libm.

Definition pow (x y : float) : float :=
  if SFeqb y (float_of_Z 2) then fmul x x else S754_nan.

Definition atan2 (y x : float) : float :=
  match y, x with
  | S754_zero s, S754_finite false _ _ => S754_zero s
  | _, _ => S754_nan
  end.

End Libm.

Definition no_files : files := {| c_file := None; txt_file := None |}.

(** The states of the scenarios, built with the handlers. *)
Definition start_only : FieldCanvas :=
  snd (add_straight_line (init "none") 0 0).

Definition two_points : FieldCanvas :=
  snd (add_straight_line start_only 100 0).

Definition two_points_selected : FieldCanvas :=
  snd (cycle_waypoint two_points 1).

Definition two_points_last_pick : FieldCanvas :=
  snd (assign_command (snd (cycle_waypoint two_points_selected 1)) PickUp).

Definition curve_open : FieldCanvas :=
  snd (start_curve_point start_only 100 0).

Definition curve_done : FieldCanvas :=
  snd (finalize_curve_point curve_open 50 50).

(** The start point visited again: waypoints 0 and 2 share coordinates. *)
Definition round_trip : FieldCanvas :=
  snd (cycle_waypoint (snd (add_straight_line two_points 0 0)) 1).

(** A canvas restricted to the left of the centre line [cx]. *)
Definition left_of (cx : Z) : FieldCanvas :=
  {| selected_side := "left";
     path_points := [(20, 20)];
     dragging_curve := false;
     selected_waypoint_index := -1;
     waypoint_commands := {[ (20, 20) := NoCommand ]};
     pending_clasp := false;
     scoops_to_release := 0;
     central_line_x := cx |}.

(** * More of the program *)

(** ** Events in a row *)

Fixpoint run (fc : FieldCanvas) (evs : list event) : FieldCanvas :=
  match evs with
  | [] => fc
  | ev :: evs' => run (snd (handle fc ev)) evs'
  end.

Definition is_side_button (ev : event) : bool :=
  match ev with
  | SideButton _ => true
  | _ => false
  end.

(** ** The shaded side

    [update_side_restriction] draws one rectangle over the side that is
    closed, or none: its corners [(x0, y0, x1, y1)]. *)
Definition update_side_restriction (fc : FieldCanvas) : option (Z * Z * Z * Z) :=
  if String.eqb (selected_side fc) "left"
  then Some (central_line_x fc, 0, FIELD_SIZE_PX, FIELD_SIZE_PX)
  else if String.eqb (selected_side fc) "right"
  then Some (0, 0, central_line_x fc, FIELD_SIZE_PX)
  else None.

(** ** The text of an array entry

    The enum constant of an entry is [CMD_] followed by
    [command.upper().replace(" ", "_")]. *)

Definition command_name (c : command) : string :=
  match c with
  | PickUp => "Pick Up"
  | Place => "Place"
  | Scoop => "Scoop"
  | Release => "Release"
  | Clasp => "Clasp"
  | NoCommand => "None"
  end.

(** [str.upper] and [str.replace(" ", "_")] on ASCII text *)
Definition upper_ascii (a : ascii) : ascii :=
  let n := nat_of_ascii a in
  if ((97 <=? n) && (n <=? 122))%nat then ascii_of_nat (n - 32) else a.

Fixpoint upper (s : string) : string :=
  match s with
  | EmptyString => EmptyString
  | String a s' => String (upper_ascii a) (upper s')
  end.

Fixpoint replace_space (s : string) : string :=
  match s with
  | EmptyString => EmptyString
  | String a s' => String (if Ascii.eqb a " " then "_"%char else a) (replace_space s')
  end.

Definition enum_constant (k : CommandType) : string :=
  match k with
  | CMD_MOVE_WITH_HEADING => "CMD_MOVE_WITH_HEADING"
  | CMD c => "CMD_" ++ replace_space (upper (command_name c))
  end.

(** The constant stands in the enum of the declarations, followed by a
    comma or as the last one. *)
Definition declared (name : string) : Prop :=
  ("    " ++ name ++ ",")%string ∈ header \/ ("    " ++ name)%string ∈ header.

(** An entry for a command holds the command stored for a waypoint of the
    path, which is not None, at that waypoint and with speed 0. *)
Definition command_of_waypoint (fc : FieldCanvas) (l : line) : Prop :=
  match l with
  | Text _ => True
  | Entry e =>
      forall c, kind e = CMD c ->
                c <> NoCommand /\
                exists wp, wp ∈ path_points fc /\
                           waypoint_commands fc !! wp = Some c /\
                           pos e = ipoint wp /\ speed e = Int 0
  end.

(** A computation only appends to the file: what it does and writes does
    not depend on what the file holds already. *)
Definition appends {A} (m : io A) : Prop :=
  forall out, m out = (fst (m []), out ++ snd (m [])).

(** [float(p)] for a waypoint *)
Definition fpoint (p : Z * Z) : point :=
  (Float (float_of_Z (fst p)), Float (float_of_Z (snd p))).

(** What C99 fixes of [pow], and CPython's [float ** 2] settles before it
    calls [pow]: [pow(+-0, 2) = +0] and [pow(1, 2) = 1]. *)
Definition pow_exact_at_0_1 (pow : float -> float -> float) : Prop :=
  (forall s, pow (S754_zero s) (float_of_Z 2) = S754_zero false) /\
  pow one (float_of_Z 2) = one.

(** The float is the infinity of sign [s], or finite of sign [s] with an
    exponent above [E], or with the exponent [E] and a mantissa of at least
    [M]. *)
Definition at_least (s : bool) (M : positive) (E : Z) (f : float) : Prop :=
  match f with
  | S754_infinity s' => s' = s
  | S754_finite s' m e => s' = s /\ (E < e \/ e = E /\ Zpos M <= Zpos m)
  | _ => False
  end.

(** A normal float, positive, with an exponent between [lo] and [hi],
    itself at most 0, whose value is at least the integer [z]. *)
Definition ge_int (lo hi : Z) (f : float) (z : Z) : Prop :=
  match f with
  | S754_finite false m e =>
      2 ^ 52 <= Zpos m < 2 ^ 53 /\ lo <= e <= hi /\ hi <= 0 /\
      z * 2 ^ (- e) <= Zpos m
  | _ => False
  end.

(** ** The application window

    [MainApp]: the three entries for the robot's dimensions, the side radio
    buttons with their variable, the Start and the Export button, and the
    canvas, which is made when Start is pressed with valid entries. *)

Record MainApp := {
  width_entry : string;
  height_entry : string;
  weight_entry : string;
  side_var : string;
  export_btn : bool;
  field_canvas : option FieldCanvas
}.

(** [MainApp.__init__]: empty entries, no side, the Export button disabled,
    no canvas. *)
Definition MainApp_init : MainApp :=
  {| width_entry := "";
     height_entry := "";
     weight_entry := "";
     side_var := "none";
     export_btn := false;
     field_canvas := None |}.

Definition set_entries (app : MainApp) (w h wt : string) : MainApp :=
  {| width_entry := w;
     height_entry := h;
     weight_entry := wt;
     side_var := side_var app;
     export_btn := export_btn app;
     field_canvas := field_canvas app |}.

Definition set_side_var (app : MainApp) (side : string) : MainApp :=
  {| width_entry := width_entry app;
     height_entry := height_entry app;
     weight_entry := weight_entry app;
     side_var := side;
     export_btn := export_btn app;
     field_canvas := field_canvas app |}.

Definition set_export_btn (app : MainApp) (b : bool) : MainApp :=
  {| width_entry := width_entry app;
     height_entry := height_entry app;
     weight_entry := weight_entry app;
     side_var := side_var app;
     export_btn := b;
     field_canvas := field_canvas app |}.

Definition set_field_canvas (app : MainApp) (fc : option FieldCanvas) : MainApp :=
  {| width_entry := width_entry app;
     height_entry := height_entry app;
     weight_entry := weight_entry app;
     side_var := side_var app;
     export_btn := export_btn app;
     field_canvas := fc |}.

(** What the user does to the window.  [Typed] is the entries edited, by
    hand or with Fill Random Data; [StartButton] carries what loading
    [field.png] and making the canvas widget comes to when it is tried;
    [CanvasEvent] is a mouse or key event or a command button of the
    canvas. *)
Inductive app_event :=
| Typed (w h wt : string)
| StartButton (load : result unit)
| ExportButton
| SideRadio (side : string)
| CanvasEvent (ev : event).

Section Window.

Variable atan2 : float -> float -> float.
Variable pow : float -> float -> float.

(** [float(s)] for the text of an entry *)
Variable float_of_string : string -> result float.

(** [start_field]: the canvas is made once, with the side chosen so far;
    when making it raises, [field_canvas] stays [None]. *)
Definition start_field (load : result unit) (app : MainApp) : result MainApp :=
  match field_canvas app with
  | None => rbind load (fun _ => Ok (set_field_canvas app (Some (init (side_var app)))))
  | Some _ => Ok app
  end.

Definition check_robot_info (load : result unit) (app : MainApp) : outcome * MainApp :=
  match rbind (float_of_string (width_entry app)) (fun width =>
        rbind (float_of_string (height_entry app)) (fun height =>
        rbind (float_of_string (weight_entry app)) (fun weight =>
        start_field load app))) with
  | Ok app' => (Done, set_export_btn app' true)
  | Raise ValueError => (ShowError "Input Error", app)
  | Raise e => (Raised e, app)
  end.

Definition update_side (app : MainApp) : MainApp :=
  match field_canvas app with
  | Some fc => set_field_canvas app (Some (set_side fc (side_var app)))
  | None => app
  end.

(** [MainApp.export_to_files] *)
Definition MainApp_export_to_files (app : MainApp) (fs : files) : outcome * files :=
  match field_canvas app with
  | None => (ShowError "Error", fs)
  | Some fc =>
      match export_to_files atan2 pow fc fs with
      | (Ok _, fs') => (Done, fs')
      | (Raise e, fs') => (Raised e, fs')
      end
  end.

(** One event of the window.  A radio button sets its variable and then
    calls [update_side]; the Export button does nothing while it is
    disabled; the canvas takes events once it is made, and a change of side
    reaches it through the radio buttons only. *)
Definition app_handle (st : MainApp * files) (ev : app_event)
  : outcome * (MainApp * files) :=
  let (app, fs) := st in
  match ev with
  | Typed w h wt => (Done, (set_entries app w h wt, fs))
  | StartButton load =>
      let (o, app') := check_robot_info load app in (o, (app', fs))
  | ExportButton =>
      if export_btn app
      then let (o, fs') := MainApp_export_to_files app fs in (o, (app, fs'))
      else (Done, (app, fs))
  | SideRadio side => (Done, (update_side (set_side_var app side), fs))
  | CanvasEvent ev =>
      match field_canvas app with
      | Some fc =>
          if is_side_button ev then (Done, (app, fs))
          else let (o, fc') := handle fc ev in
               (o, (set_field_canvas app (Some fc'), fs))
      | None => (Done, (app, fs))
      end
  end.

Fixpoint app_run (st : MainApp * files) (evs : list app_event) : MainApp * files :=
  match evs with
  | [] => st
  | ev :: evs' => app_run (snd (app_handle st ev)) evs'
  end.

End Window.

Definition app_event_in_range (ev : app_event) : Prop :=
  match ev with
  | CanvasEvent ev => event_in_range ev
  | _ => True
  end.

(** What holds of the window at any time. *)
Definition window_ok (app : MainApp) : Prop :=
  (export_btn app = true -> is_Some (field_canvas app)) /\
  (forall fc, field_canvas app = Some fc ->
              selected_side fc = side_var app /\ reachable fc).

(** A reading of entries to run the scenarios with: decimal digits only. *)
Fixpoint digits_value (s : string) (acc : Z) : option Z :=
  match s with
  | EmptyString => Some acc
  | String a s' =>
      let n := Z.of_nat (nat_of_ascii a) in
      if (48 <=? n) && (n <=? 57) then digits_value s' (10 * acc + (n - 48)) else None
  end.

Definition float_of_digits (s : string) : result float :=
  match s with
  | EmptyString => Raise ValueError
  | _ => match digits_value s 0 with
         | Some z => Ok (float_of_Z z)
         | None => Raise ValueError
         end
  end.

(** * Facts about binary64 arithmetic

    The operations of [SpecFloat] at precision 53: how a mantissa is aligned
    and rounded, when the result is exact, and when it is finite. *)

Module Binary64.

Lemma digits2_pos_bounds p :
  2 ^ (Zpos (digits2_pos p) - 1) <= Zpos p < 2 ^ Zpos (digits2_pos p).
Proof.
  induction p as [p IH|p IH|]; simpl digits2_pos.
  - rewrite Pos2Z.inj_succ. replace (Z.succ (Zpos (digits2_pos p)) - 1) with (Z.succ (Zpos (digits2_pos p) - 1)) by lia.
    rewrite !Z.pow_succ_r by lia. lia.
  - rewrite Pos2Z.inj_succ. replace (Z.succ (Zpos (digits2_pos p)) - 1) with (Z.succ (Zpos (digits2_pos p) - 1)) by lia.
    rewrite !Z.pow_succ_r by lia. lia.
  - simpl. lia.
Qed.

Lemma Zdigits2_bounds m :
  0 < m -> 2 ^ (Zdigits2 m - 1) <= m < 2 ^ Zdigits2 m.
Proof. destruct m; try lia. intros _. apply digits2_pos_bounds. Qed.

Lemma Zdigits2_nonneg m : 0 <= Zdigits2 m.
Proof. destruct m; simpl; lia. Qed.

Lemma Zdigits2_le m a : 0 <= m < 2 ^ a -> 0 <= a -> Zdigits2 m <= a.
Proof.
  intros [H0 H1] Ha. destruct (Z.eq_dec m 0) as [->|Hn]; [simpl; lia|].
  destruct (Zdigits2_bounds m ltac:(lia)) as [Hl _].
  destruct (Z.le_gt_cases (Zdigits2 m) a) as [|Hgt]; [assumption|].
  assert (2 ^ a <= 2 ^ (Zdigits2 m - 1)) by (apply Z.pow_le_mono_r; lia). lia.
Qed.

Lemma Zdigits2_unique m d : 2 ^ (d - 1) <= m < 2 ^ d -> 0 < d -> Zdigits2 m = d.
Proof.
  intros [Hl Hu] Hd.
  assert (0 < m) by (pose proof (Z.pow_pos_nonneg 2 (d - 1)); lia).
  destruct (Zdigits2_bounds m ltac:(lia)) as [Hl' Hu'].
  pose proof (Zdigits2_nonneg m).
  destruct (Z.lt_trichotomy (Zdigits2 m) d) as [Hlt|[Heq|Hgt]]; [|assumption|].
  - assert (2 ^ Zdigits2 m <= 2 ^ (d - 1)) by (apply Z.pow_le_mono_r; lia). lia.
  - assert (2 ^ d <= 2 ^ (Zdigits2 m - 1)) by (apply Z.pow_le_mono_r; lia). lia.
Qed.

Lemma shr_m_of_loc m l : shr_m (shr_record_of_loc m l) = m.
Proof. destruct l as [|[]]; reflexivity. Qed.

Lemma shr_1_m mrs : 0 <= shr_m mrs -> shr_m (shr_1 mrs) = shr_m mrs / 2.
Proof.
  destruct mrs as [m r s]. cbn [shr_m]. intros H.
  destruct m as [|[p|p|]|]; cbn [shr_1 shr_m]; try lia.
  - reflexivity.
  - apply Z.div_unique with 1; lia.
  - apply Z.div_unique with 0; lia.
  - reflexivity.
Qed.

Lemma pow2_xI p : 2 ^ Zpos p~1 = 2 * (2 ^ Zpos p * 2 ^ Zpos p).
Proof.
  assert (Zpos p~1 = Zpos p + Zpos p + 1) as -> by lia.
  rewrite !Z.pow_add_r by lia. change (2 ^ 1) with 2. lia.
Qed.

Lemma pow2_xO p : 2 ^ Zpos p~0 = 2 ^ Zpos p * 2 ^ Zpos p.
Proof.
  assert (Zpos p~0 = Zpos p + Zpos p) as -> by lia.
  now rewrite Z.pow_add_r by lia.
Qed.

Lemma pow2_pos n : 0 <= n -> 0 < 2 ^ n.
Proof. intros. apply Z.pow_pos_nonneg; lia. Qed.

Lemma iter_pos_shr_m p : forall mrs,
  0 <= shr_m mrs -> shr_m (SpecFloat.iter_pos shr_1 p mrs) = shr_m mrs / 2 ^ Zpos p.
Proof.
  induction p as [p IH|p IH|]; intros mrs H; simpl SpecFloat.iter_pos.
  - assert (H1 : 0 <= shr_m (shr_1 mrs)) by (rewrite shr_1_m by lia; apply Z.div_pos; lia).
    assert (H2 : 0 <= shr_m (SpecFloat.iter_pos shr_1 p (shr_1 mrs)))
      by (rewrite IH by lia; apply Z.div_pos; [lia|apply pow2_pos; lia]).
    pose proof (pow2_pos (Zpos p) ltac:(lia)).
    rewrite IH, IH, shr_1_m by lia.
    rewrite !Z.div_div by lia.
    now rewrite pow2_xI.
  - assert (H2 : 0 <= shr_m (SpecFloat.iter_pos shr_1 p mrs))
      by (rewrite IH by lia; apply Z.div_pos; [lia|apply pow2_pos; lia]).
    pose proof (pow2_pos (Zpos p) ltac:(lia)).
    rewrite IH, IH by lia.
    rewrite !Z.div_div by lia.
    now rewrite pow2_xO.
  - rewrite shr_1_m by lia. reflexivity.
Qed.

Lemma shr_fst mrs e n :
  0 <= shr_m mrs ->
  shr_m (fst (shr mrs e n)) = if 0 <? n then shr_m mrs / 2 ^ n else shr_m mrs.
Proof.
  intros H. destruct n; simpl; try reflexivity. now apply iter_pos_shr_m.
Qed.

Lemma shr_snd mrs e n : snd (shr mrs e n) = if 0 <? n then e + n else e.
Proof. destruct n; reflexivity. Qed.

Lemma round_nearest_even_bounds m l :
  m <= round_nearest_even m l <= m + 1.
Proof.
  destruct l as [|[]]; simpl; try lia. destruct (Z.even m); lia.
Qed.

Lemma fexp_eq e : fexp prec emax e = Z.max (e - 53) (-1074).
Proof. reflexivity. Qed.

Lemma shr_fexp_m m e l :
  0 <= m ->
  shr_m (fst (shr_fexp prec emax m e l)) =
    if 0 <? fexp prec emax (Zdigits2 m + e) - e
    then m / 2 ^ (fexp prec emax (Zdigits2 m + e) - e) else m.
Proof.
  intros H. unfold shr_fexp. rewrite shr_fst; rewrite shr_m_of_loc; auto.
Qed.

Lemma shr_fexp_e m e l :
  snd (shr_fexp prec emax m e l) =
    if 0 <? fexp prec emax (Zdigits2 m + e) - e
    then fexp prec emax (Zdigits2 m + e) else e.
Proof.
  unfold shr_fexp. rewrite shr_snd.
  destruct (0 <? _); [lia|reflexivity].
Qed.

(** After one alignment the mantissa fits 53 bits. *)
Lemma shr_fexp_fits m e l :
  0 <= m ->
  0 <= shr_m (fst (shr_fexp prec emax m e l)) < 2 ^ 53.
Proof.
  intros H. rewrite shr_fexp_m by assumption. rewrite fexp_eq.
  destruct (Z.eq_dec m 0) as [->|Hm].
  { pose proof (pow2_pos 53 ltac:(lia)).
    destruct (0 <? _); [rewrite Zdiv_0_l|]; lia. }
  destruct (Zdigits2_bounds m ltac:(lia)) as [_ Hu].
  pose proof (Zdigits2_nonneg m) as Hd.
  set (d := Zdigits2 m) in *.
  destruct (0 <? Z.max (d + e - 53) (-1074) - e) eqn:E.
  - set (n := Z.max (d + e - 53) (-1074) - e) in *.
    assert (0 < n) by lia.
    pose proof (pow2_pos n ltac:(lia)).
    split; [apply Z.div_pos; lia|].
    apply Z.div_lt_upper_bound; [lia|].
    rewrite <- Z.pow_add_r by lia.
    assert (2 ^ d <= 2 ^ (n + 53)) by (apply Z.pow_le_mono_r; lia). lia.
  - assert (2 ^ d <= 2 ^ 53) by (apply Z.pow_le_mono_r; lia). lia.
Qed.

Lemma bra_finite s mx ex l a :
  0 <= mx < 2 ^ a -> 0 <= a -> ex <= 900 -> a + ex <= 1000 ->
  match binary_round_aux prec emax s mx ex l with
  | S754_zero s' => s' = s
  | S754_finite s' m e =>
      s' = s /\ Zpos m < 2 ^ 53 /\
      Z.max ex (-1074) <= e <= Z.max (Z.max ex (a + ex - 53)) (-1074) + 1
  | _ => False
  end.
Proof.
  intros [H0 Ha] Ha0 Hex Hae. unfold binary_round_aux.
  pose proof (shr_fexp_fits mx ex l H0) as Hfit.
  pose proof (shr_fexp_e mx ex l) as He'.
  destruct (shr_fexp prec emax mx ex l) as [mrs' e'].
  cbn [fst snd] in Hfit, He'.
  pose proof (round_nearest_even_bounds (shr_m mrs') (loc_of_shr_record mrs')) as Hr.
  set (m1 := round_nearest_even (shr_m mrs') (loc_of_shr_record mrs')) in *.
  assert (Hm1 : 0 <= m1) by lia.
  pose proof (shr_fexp_fits m1 e' loc_Exact Hm1) as Hfit2.
  pose proof (shr_fexp_e m1 e' loc_Exact) as He''.
  destruct (shr_fexp prec emax m1 e' loc_Exact) as [mrs'' e''].
  cbn [fst snd] in Hfit2, He''.
  rewrite fexp_eq in He', He''.
  assert (Hd : Zdigits2 mx <= a) by (apply Zdigits2_le; lia).
  pose proof (Zdigits2_nonneg mx) as Hd0.
  assert (Hd1 : Zdigits2 m1 <= 54).
  { apply Zdigits2_le; [|lia]. change (2 ^ 54) with (2 * 2 ^ 53). lia. }
  assert (He1 : Z.max ex (-1074) <= e' <= Z.max (Z.max ex (a + ex - 53)) (-1074)).
  { destruct (0 <? _) eqn:E in He'; lia. }
  assert (He2 : e' <= e'' <= e' + 1).
  { destruct (0 <? _) eqn:E in He''; lia. }
  destruct (shr_m mrs'') as [|m|m] eqn:Em; [reflexivity| |lia].
  destruct (e'' <=? emax - prec) eqn:Ee.
  - repeat split; lia.
  - unfold emax, prec in Ee. lia.
Qed.

Lemma iter_xO_val p : forall m, Zpos (Pos.iter xO m p) = Zpos m * 2 ^ Zpos p.
Proof.
  induction p as [p IH|p IH|]; intros m; simpl Pos.iter.
  - rewrite Pos2Z.inj_xO, IH, IH, pow2_xI. lia.
  - rewrite IH, IH, pow2_xO. lia.
  - rewrite Pos2Z.inj_xO. change (2 ^ 1) with 2. lia.
Qed.

Lemma iter_shr_exact p : forall m,
  SpecFloat.iter_pos shr_1 p (Build_shr_record (Zpos (Pos.iter xO m p)) false false)
  = Build_shr_record (Zpos m) false false.
Proof.
  induction p as [p IH|p IH|]; intros m; simpl Pos.iter; simpl SpecFloat.iter_pos.
  - cbn [shr_1 orb]. now rewrite IH, IH.
  - now rewrite IH, IH.
  - reflexivity.
Qed.

Lemma bra_exact s m e :
  Zdigits2 (Zpos m) = 53 -> -1074 <= e <= 971 ->
  binary_round_aux prec emax s (Zpos m) e loc_Exact = S754_finite s m e.
Proof.
  intros Hd He. unfold binary_round_aux, shr_fexp.
  rewrite Hd, fexp_eq.
  replace (Z.max (53 + e - 53) (-1074) - e) with 0 by lia.
  cbn [shr shr_record_of_loc shr_m loc_of_shr_record round_nearest_even].
  rewrite Hd, fexp_eq.
  replace (Z.max (53 + e - 53) (-1074) - e) with 0 by lia.
  cbn [shr shr_record_of_loc shr_m].
  destruct (e <=? emax - prec) eqn:E; [reflexivity|]. unfold emax, prec in E. lia.
Qed.

Lemma digits_scaled m p :
  Zdigits2 (Zpos m) = 53 -> Zdigits2 (Zpos (Pos.iter xO m p)) = 53 + Zpos p.
Proof.
  intros Hd. destruct (Zdigits2_bounds (Zpos m) ltac:(lia)) as [Hl Hu].
  rewrite Hd in Hl, Hu.
  apply Zdigits2_unique; [|lia]. rewrite iter_xO_val.
  replace (53 + Zpos p - 1) with (52 + Zpos p) by lia.
  rewrite !Z.pow_add_r by lia.
  pose proof (pow2_pos (Zpos p) ltac:(lia)).
  change (53 - 1) with 52 in Hl. nia.
Qed.

Lemma bra_exact_shift s m p e :
  Zdigits2 (Zpos m) = 53 -> -1074 <= e <= 971 ->
  binary_round_aux prec emax s (Zpos (Pos.iter xO m p)) (e - Zpos p) loc_Exact
  = S754_finite s m e.
Proof.
  intros Hd He. unfold binary_round_aux, shr_fexp.
  rewrite digits_scaled by assumption. rewrite fexp_eq.
  replace (Z.max (53 + Zpos p + (e - Zpos p) - 53) (-1074) - (e - Zpos p))
    with (Zpos p) by lia.
  cbn [shr shr_record_of_loc]. rewrite iter_shr_exact.
  cbn [shr_m loc_of_shr_record round_nearest_even].
  replace (e - Zpos p + Zpos p) with e by lia.
  rewrite Hd, fexp_eq.
  replace (Z.max (53 + e - 53) (-1074) - e) with 0 by lia.
  cbn [shr shr_record_of_loc shr_m].
  destruct (e <=? emax - prec) eqn:E; [reflexivity|]. unfold emax, prec in E. lia.
Qed.

(** The binary64 value of a positive integer below 2^53, whatever power of
    two it comes scaled by. *)
Lemma binary_round_value s Q j P :
  Zpos Q = Zpos P * 2 ^ j -> 0 <= j -> Zpos P < 2 ^ 53 ->
  exists m, binary_round prec emax s Q (- j) = S754_finite s m (Zdigits2 (Zpos P) - 53)
            /\ Zdigits2 (Zpos m) = 53
            /\ Zpos m = Zpos P * 2 ^ (53 - Zdigits2 (Zpos P)).
Proof.
  intros HQ Hj HP.
  destruct (Zdigits2_bounds (Zpos P) ltac:(lia)) as [Hl Hu].
  assert (HdP : 1 <= Zdigits2 (Zpos P) <= 53).
  { split; [simpl; lia|]. apply Zdigits2_le; lia. }
  set (dP := Zdigits2 (Zpos P)) in *.
  assert (HdQ : Zdigits2 (Zpos Q) = dP + j).
  { apply Zdigits2_unique; [|lia]. rewrite HQ.
    replace (dP + j - 1) with (dP - 1 + j) by lia.
    rewrite !Z.pow_add_r by lia.
    pose proof (pow2_pos j ltac:(lia)). nia. }
  assert (Hval : forall M, Zpos M = Zpos P * 2 ^ (53 - dP) -> Zdigits2 (Zpos M) = 53).
  { intros M HM. apply Zdigits2_unique; [|lia]. rewrite HM.
    pose proof (pow2_pos (53 - dP) ltac:(lia)).
    assert (E1 : 2 ^ 53 = 2 ^ dP * 2 ^ (53 - dP))
      by (rewrite <- Z.pow_add_r by lia; f_equal; lia).
    assert (E2 : 2 ^ (53 - 1) = 2 ^ (dP - 1) * 2 ^ (53 - dP))
      by (rewrite <- Z.pow_add_r by lia; f_equal; lia).
    rewrite E1, E2. nia. }
  unfold binary_round.
  change (Zpos (digits2_pos Q)) with (Zdigits2 (Zpos Q)).
  rewrite HdQ, fexp_eq.
  replace (Z.max (dP + j + - j - 53) (-1074)) with (dP - 53) by lia.
  unfold shl_align.
  destruct (dP - 53 - - j) as [|k|k] eqn:Ek.
  - exists Q. assert (HQv : Zpos Q = Zpos P * 2 ^ (53 - dP)).
    { rewrite HQ. f_equal. f_equal. lia. }
    split; [|split; [apply Hval; assumption|assumption]].
    rewrite bra_exact; [f_equal; lia|apply Hval; assumption|lia].
  - set (M := Z.to_pos (Zpos P * 2 ^ (53 - dP))).
    assert (HM : Zpos M = Zpos P * 2 ^ (53 - dP)).
    { unfold M. rewrite Z2Pos.id; [reflexivity|].
      pose proof (pow2_pos (53 - dP) ltac:(lia)). nia. }
    assert (HQM : Q = Pos.iter xO M k).
    { apply Pos2Z.inj. rewrite iter_xO_val, HM, HQ, <- Z.mul_assoc, <- Z.pow_add_r by lia.
      f_equal. f_equal. lia. }
    exists M. split; [|split; [apply Hval; assumption|assumption]].
    rewrite HQM. replace (- j) with (dP - 53 - Zpos k) by lia.
    apply bra_exact_shift; [apply Hval; assumption|lia].
  - exists (Pos.iter xO Q k).
    assert (HM : Zpos (Pos.iter xO Q k) = Zpos P * 2 ^ (53 - dP)).
    { rewrite iter_xO_val, HQ, <- Z.mul_assoc, <- Z.pow_add_r by lia.
      f_equal. f_equal. lia. }
    split; [|split; [apply Hval; assumption|assumption]].
    apply bra_exact; [apply Hval; assumption|lia].
Qed.

(** What [float(z)] looks like for 0 < |z| < 2^53. *)
Lemma float_of_Z_finite z :
  z <> 0 -> Z.abs z < 2 ^ 53 ->
  exists m e, float_of_Z z = S754_finite (z <? 0) m e
              /\ Zdigits2 (Zpos m) = 53 /\ -52 <= e <= 0
              /\ Zpos m = Z.abs z * 2 ^ (- e).
Proof.
  intros Hz Hb. unfold float_of_Z, binary_normalize.
  destruct z as [|P|P]; [congruence| |].
  - destruct (binary_round_value false P 0 P) as (m & Hm & Hd & Hv); [simpl; lia|lia|exact Hb|].
    change (- 0) with 0 in Hm.
    assert (1 <= Zdigits2 (Zpos P) <= 53).
    { split; [simpl; lia|]. apply Zdigits2_le; simpl in *; lia. }
    exists m, (Zdigits2 (Zpos P) - 53). repeat split; try assumption; try lia.
    rewrite Hv. simpl Z.abs. f_equal. f_equal. lia.
  - destruct (binary_round_value true P 0 P) as (m & Hm & Hd & Hv); [simpl; lia|lia|exact Hb|].
    change (- 0) with 0 in Hm.
    assert (1 <= Zdigits2 (Zpos P) <= 53).
    { split; [simpl; lia|]. apply Zdigits2_le; simpl in *; lia. }
    exists m, (Zdigits2 (Zpos P) - 53). repeat split; try assumption; try lia.
    rewrite Hv. simpl Z.abs. f_equal. f_equal. lia.
Qed.

Lemma binary_normalize_scaled z j :
  Z.abs z < 2 ^ 53 -> 0 <= j ->
  binary_normalize prec emax (z * 2 ^ j) (- j) false = float_of_Z z.
Proof.
  intros Hb Hj. unfold float_of_Z.
  pose proof (pow2_pos j Hj) as Hp.
  destruct z as [|P|P].
  - reflexivity.
  - destruct (Zpos P * 2 ^ j) as [|Q|Q] eqn:EQ; try lia. unfold binary_normalize.
    destruct (binary_round_value false Q j P) as (m & Hm & _ & Hv); [lia|assumption|exact Hb|].
    destruct (binary_round_value false P 0 P) as (m' & Hm' & _ & Hv'); [simpl; lia|lia|exact Hb|].
    change (- 0) with 0 in Hm'. rewrite Hm, Hm'. f_equal. apply Pos2Z.inj. congruence.
  - destruct (Zneg P * 2 ^ j) as [|Q|Q] eqn:EQ; try lia. unfold binary_normalize.
    assert (HQ : Zpos Q = Zpos P * 2 ^ j) by lia.
    destruct (binary_round_value true Q j P) as (m & Hm & _ & Hv); [assumption|assumption|exact Hb|].
    destruct (binary_round_value true P 0 P) as (m' & Hm' & _ & Hv'); [simpl; lia|lia|exact Hb|].
    change (- 0) with 0 in Hm'. rewrite Hm, Hm'. f_equal. apply Pos2Z.inj. congruence.
Qed.

Lemma shl_align_val m e ez :
  ez <= e -> Zpos (fst (shl_align m e ez)) = Zpos m * 2 ^ (e - ez).
Proof.
  intros H. unfold shl_align.
  destruct (ez - e) as [|k|k] eqn:E; cbn [fst]; try lia.
  - replace (e - ez) with 0 by lia. simpl. lia.
  - rewrite iter_xO_val. f_equal. f_equal. lia.
Qed.

Lemma cond_Zopp_abs z : cond_Zopp (z <? 0) (Z.abs z) = z.
Proof. destruct z; reflexivity. Qed.

Lemma cond_Zopp_mul b x y : cond_Zopp b (x * y) = cond_Zopp b x * y.
Proof. destruct b; simpl; lia. Qed.

(** Adding two integers as floats is exact while everything stays below 2^53. *)
Lemma fadd_float_of_Z a b :
  Z.abs a < 2 ^ 53 -> Z.abs b < 2 ^ 53 -> Z.abs (a + b) < 2 ^ 53 ->
  fadd (float_of_Z a) (float_of_Z b) = float_of_Z (a + b).
Proof.
  intros Ha Hb Hab.
  destruct (Z.eq_dec a 0) as [->|Ha0].
  { change (float_of_Z 0) with (S754_zero false). rewrite Z.add_0_l.
    destruct (Z.eq_dec b 0) as [->|Hb0]; [reflexivity|].
    destruct (float_of_Z_finite b Hb0 Hb) as (m & e & -> & _). reflexivity. }
  destruct (float_of_Z_finite a Ha0 Ha) as (ma & ea & Ea & Hda & Hea & Hva).
  destruct (Z.eq_dec b 0) as [->|Hb0].
  { change (float_of_Z 0) with (S754_zero false). rewrite Z.add_0_r, Ea. reflexivity. }
  destruct (float_of_Z_finite b Hb0 Hb) as (mb & eb & Eb & Hdb & Heb & Hvb).
  rewrite Ea, Eb. unfold fadd, SFadd.
  set (ez := Z.min ea eb).
  rewrite !shl_align_val by lia.
  rewrite Hva, Hvb, <- !Z.mul_assoc, <- !Z.pow_add_r by lia.
  replace (- ea + (ea - ez)) with (- ez) by lia.
  replace (- eb + (eb - ez)) with (- ez) by lia.
  rewrite !cond_Zopp_mul, !cond_Zopp_abs, <- Z.mul_add_distr_r.
  replace ez with (- - ez) at 2 by lia.
  apply binary_normalize_scaled; lia.
Qed.

Lemma fdiv_self s m e : fdiv (S754_finite s m e) (S754_finite s m e) = one.
Proof.
  unfold fdiv, SFdiv, SFdiv_core_binary.
  rewrite !Z.sub_diag.
  change (Z.min (fexp prec emax 0) 0) with (-53).
  change (0 - -53) with 53.
  cbv iota beta.
  pose proof (Z_div_mod (Z.shiftl (Zpos m) 53) (Zpos m) ltac:(lia)) as H.
  destruct (Z.div_eucl (Z.shiftl (Zpos m) 53) (Zpos m)) as [q r].
  rewrite Z.shiftl_mul_pow2 in H by lia.
  assert (q = 2 ^ 53 /\ r = 0) as [-> ->].
  { generalize dependent (2 ^ 53). intros k [H1 H2].
    assert (q = k).
    { destruct (Z.lt_trichotomy q k) as [L|[E|G]]; [|exact E|].
      - assert (Zpos m * (q + 1) <= Zpos m * k) by (apply Z.mul_le_mono_nonneg_l; lia). lia.
      - assert (Zpos m * (k + 1) <= Zpos m * q) by (apply Z.mul_le_mono_nonneg_l; lia). lia. }
    subst q. split; lia. }
  assert (new_location (Zpos m) 0 = loc_Exact) as ->.
  { unfold new_location, new_location_even, new_location_odd.
    destruct (Z.even (Zpos m)); reflexivity. }
  destruct s; reflexivity.
Qed.

Lemma fmul_one s m e :
  Zdigits2 (Zpos m) = 53 -> -1074 <= e <= 971 ->
  fmul one (S754_finite s m e) = S754_finite s m e.
Proof.
  intros Hd He. unfold fmul, one, SFmul.
  change (xorb false s) with s.
  change (Pos.mul 4503599627370496 m) with (Pos.iter xO m 52).
  replace (-52 + e) with (e - 52) by lia.
  now apply bra_exact_shift.
Qed.

Lemma fmul_one_float_of_Z z :
  Z.abs z < 2 ^ 53 -> fmul one (float_of_Z z) = float_of_Z z.
Proof.
  intros Hb. destruct (Z.eq_dec z 0) as [->|Hz]; [reflexivity|].
  destruct (float_of_Z_finite z Hz Hb) as (m & e & -> & Hd & He & _).
  apply fmul_one; [assumption|lia].
Qed.

Lemma fdiv_float_of_Z_self n :
  0 < n < 2 ^ 53 -> fdiv (float_of_Z n) (float_of_Z n) = one.
Proof.
  intros Hn. destruct (float_of_Z_finite n ltac:(lia) ltac:(lia)) as (m & e & -> & _).
  apply fdiv_self.
Qed.

Lemma bra_fin_nonneg mx ex l a lo hi :
  0 <= mx < 2 ^ a -> 0 <= a -> ex <= 900 -> a + ex <= 1000 ->
  lo <= Z.max ex (-1074) -> Z.max (Z.max ex (a + ex - 53)) (-1074) + 1 <= hi ->
  fin_nonneg lo hi (binary_round_aux prec emax false mx ex l).
Proof.
  intros Hm Ha Hex Hae Hlo Hhi.
  pose proof (bra_finite false mx ex l a Hm Ha Hex Hae) as H.
  destruct (binary_round_aux prec emax false mx ex l); simpl; try assumption.
  destruct H as (-> & Hb & He). repeat split; lia.
Qed.

Lemma float_of_Z_fin_nonneg K a :
  0 <= K < 2 ^ a -> 53 <= a <= 900 -> fin_nonneg (-52) (a - 52) (float_of_Z K).
Proof.
  intros [H0 Ha] Hr. unfold float_of_Z, binary_normalize.
  destruct K as [|P|P]; [reflexivity| |lia].
  unfold binary_round.
  change (Zpos (digits2_pos P)) with (Zdigits2 (Zpos P)).
  destruct (Zdigits2_bounds (Zpos P) ltac:(lia)) as [Hl Hu].
  assert (Hd : 1 <= Zdigits2 (Zpos P) <= a).
  { split; [simpl; lia|]. apply Zdigits2_le; lia. }
  set (d := Zdigits2 (Zpos P)) in *.
  rewrite Z.add_0_r, fexp_eq. unfold shl_align.
  destruct (Z.max (d - 53) (-1074) - 0) as [|k|k] eqn:Ek.
  - apply bra_fin_nonneg with (a := a); lia.
  - apply bra_fin_nonneg with (a := a); lia.
  - apply bra_fin_nonneg with (a := 53); try lia.
    rewrite iter_xO_val. split; [lia|].
    assert (E : 2 ^ 53 = 2 ^ d * 2 ^ Zpos k)
      by (rewrite <- Z.pow_add_r by lia; f_equal; lia).
    rewrite E. pose proof (pow2_pos (Zpos k) ltac:(lia)). nia.
Qed.

Lemma sqrtrem_bounds n :
  0 <= n -> 0 <= fst (Z.sqrtrem n) <= n.
Proof.
  intros H. pose proof (Z.sqrtrem_spec n H) as Hs.
  destruct (Z.sqrtrem n) as [q r]. cbn [fst]. nia.
Qed.

Lemma square_lt_pow q a :
  0 <= q -> 0 <= a -> q * q < 2 ^ (2 * a) -> q < 2 ^ a.
Proof.
  intros Hq Ha H. replace (2 * a) with (a + a) in H by lia.
  rewrite Z.pow_add_r in H by lia.
  pose proof (pow2_pos a Ha).
  destruct (Z.lt_ge_cases q (2 ^ a)) as [|Hge]; [assumption|].
  assert (2 ^ a * 2 ^ a <= q * q) by (apply Z.mul_le_mono_nonneg; lia). lia.
Qed.

(** The square root of an integer's float: its exponent is about half. *)
Lemma fsqrt_fin_nonneg f hi :
  fin_nonneg (-52) hi f -> hi <= 200 ->
  fin_nonneg (-1074) ((hi + 54) / 2 - 52) (fsqrt f).
Proof.
  intros Hf Hhi. destruct f as [s|s| |s m e]; simpl in Hf; try contradiction.
  - subst s. reflexivity.
  - destruct Hf as (-> & Hm & He).
    unfold fsqrt, SFsqrt, SFsqrt_core_binary.
    assert (Hd : 1 <= Zdigits2 (Zpos m) <= 53).
    { split; [simpl; lia|]. apply Zdigits2_le; lia. }
    set (d := Zdigits2 (Zpos m)) in *.
    rewrite fexp_eq, !Z.div2_div.
    set (e' := Z.min (Z.max ((d + e + 1) / 2 - 53) (-1074)) (e / 2)).
    assert (He' : -78 <= e' /\ e' <= (54 + e) / 2 - 53 /\ 2 * e' <= e)
      by (unfold e'; Z.div_mod_to_equations; lia).
    set (s := e - 2 * e') in *.
    set (a := (54 + s) / 2).
    assert (Ha : 0 <= a /\ 53 + s <= 2 * a /\ a + e' - 53 = (54 + e) / 2 - 53)
      by (unfold a, s; Z.div_mod_to_equations; lia).
    set (m' := match s with
               | 0 => Zpos m | Zpos _ => Z.shiftl (Zpos m) s | Zneg _ => 0
               end).
    assert (Hm' : 0 <= m' < 2 ^ (53 + s)).
    { assert (Hs : 0 <= s) by (unfold s; lia).
      unfold m'. destruct s as [|k|k] eqn:Es; try lia.
      rewrite Z.shiftl_mul_pow2 by lia. rewrite Z.pow_add_r by lia.
      pose proof (pow2_pos (Zpos k) ltac:(lia)). nia. }
    pose proof (Z.sqrtrem_spec m' ltac:(lia)) as Hq.
    destruct (Z.sqrtrem m') as [q r].
    assert (Hq0 : 0 <= q) by nia.
    assert (Hqa : q < 2 ^ a).
    { apply square_lt_pow; try lia.
      assert (2 ^ (53 + s) <= 2 ^ (2 * a)) by (apply Z.pow_le_mono_r; lia). nia. }
    assert (Hhi2 : (54 + e) / 2 <= (hi + 54) / 2) by (Z.div_mod_to_equations; lia).
    assert (Hhi3 : (hi + 54) / 2 <= 127) by (Z.div_mod_to_equations; lia).
    apply bra_fin_nonneg with (a := a); lia.
Qed.

(** Dividing by an integer's float does not raise the exponent by more than
    one. *)
Lemma fdiv_fin_nonneg f hi d :
  fin_nonneg (-1074) hi f -> hi <= 200 -> 0 < d < 2 ^ 53 ->
  fin_nonneg (-1074) (Z.max (hi + 1) (-1073)) (fdiv f (float_of_Z d)).
Proof.
  intros Hf Hhi Hd.
  destruct (float_of_Z_finite d ltac:(lia) ltac:(lia)) as (m2 & e2 & -> & Hd2 & He2 & _).
  replace (d <? 0) with false by lia.
  destruct f as [s|s| |s m e]; simpl in Hf; try contradiction.
  - subst s. reflexivity.
  - destruct Hf as (-> & Hm & He).
    unfold fdiv, SFdiv, SFdiv_core_binary. rewrite Hd2, fexp_eq.
    assert (Hd1 : 1 <= Zdigits2 (Zpos m) <= 53).
    { split; [simpl; lia|]. apply Zdigits2_le; lia. }
    destruct (Zdigits2_bounds (Zpos m2) ltac:(lia)) as [Hm2 _].
    rewrite Hd2 in Hm2. change (53 - 1) with 52 in Hm2.
    set (d1 := Zdigits2 (Zpos m)) in *.
    set (e' := Z.min (Z.max (d1 + e - (53 + e2) - 53) (-1074)) (e - e2)).
    assert (He' : -1074 <= e' <= e - e2 /\ e' <= Z.max (e - e2 - 53) (-1074))
      by (unfold e'; lia).
    set (s := e - e2 - e') in *.
    assert (Hs : 0 <= s) by (unfold s; lia).
    set (m' := match s with
               | 0 => Zpos m | Zpos _ => Z.shiftl (Zpos m) s | Zneg _ => 0
               end).
    assert (Hm' : 0 <= m' < 2 ^ (53 + s)).
    { unfold m'. destruct s as [|k|k] eqn:Es; try lia.
      rewrite Z.shiftl_mul_pow2 by lia. rewrite Z.pow_add_r by lia.
      pose proof (pow2_pos (Zpos k) ltac:(lia)). nia. }
    pose proof (Z_div_mod m' (Zpos m2) ltac:(lia)) as Hqr.
    destruct (Z.div_eucl m' (Zpos m2)) as [q r].
    assert (Hq : 0 <= q < 2 ^ (s + 1)).
    { split; [nia|].
      replace (53 + s) with (s + 1 + 52) in Hm' by lia.
      rewrite Z.pow_add_r in Hm' by lia.
      pose proof (pow2_pos (s + 1) ltac:(lia)).
      destruct (Z.lt_ge_cases q (2 ^ (s + 1))) as [|Hge]; [assumption|].
      assert (2 ^ (s + 1) * 2 ^ 52 <= q * Zpos m2) by (apply Z.mul_le_mono_nonneg; lia).
      lia. }
    simpl xorb.
    apply bra_fin_nonneg with (a := s + 1); unfold s in *; lia.
Qed.

(** [sqrt(float(K)) / float(d)] is zero or positive and finite, with an
    exponent below zero. *)
Lemma distance_quotient_fin K d :
  0 <= K < 2 ^ 66 -> 0 < d < 2 ^ 53 ->
  fin_nonneg (-1074) (-17) (fdiv (fsqrt (float_of_Z K)) (float_of_Z d)).
Proof.
  intros HK Hd.
  apply (fdiv_fin_nonneg _ (-18)); [|lia|assumption].
  apply (fsqrt_fin_nonneg _ 14); [|lia].
  apply (float_of_Z_fin_nonneg K 66); [assumption|lia].
Qed.

End Binary64.

Import Binary64.

(** * The command state machine *)

Lemma command_eqb_eq a b : command_eqb a b = true <-> a = b.
Proof. destruct a, b; simpl; split; congruence. Qed.

Lemma assign_command_step fc cmd wp :
  selected_waypoint_index fc <> -1 ->
  index (path_points fc) (selected_waypoint_index fc) = Ok wp ->
  0 <= scoops_to_release fc ->
  match spec_tryAssign (command_state fc) cmd with
  | inr st =>
      exists fc', assign_command fc cmd = (Done, fc') /\
                  command_state fc' = st /\
                  waypoint_commands fc' = <[wp := cmd]> (waypoint_commands fc) /\
                  same_path fc fc'
  | inl e => assign_command fc cmd = (ShowError (error_title e), fc)
  end.
Proof.
  intros Hsel Hwp Hn. unfold assign_command.
  destruct (selected_waypoint_index fc =? -1) eqn:E; [lia|].
  rewrite Hwp. unfold command_state.
  destruct cmd; simpl.
  - eexists; repeat split.
  - eexists; repeat split.
  - destruct (pending_clasp fc) eqn:Ep; simpl; [|reflexivity].
    eexists; repeat split. simpl. now rewrite Ep.
  - destruct (scoops_to_release fc =? 0) eqn:E0.
    + assert (scoops_to_release fc = 0) as -> by lia. reflexivity.
    + destruct (0 <? scoops_to_release fc) eqn:E1; [|lia].
      eexists; repeat split.
  - eexists; repeat split.
  - eexists; repeat split.
Qed.

(** C3. With a waypoint selected, [assign_command] follows the transition
    table of section 4.3 on [(pending_clasp, scoops_to_release)]: Clasp always
    succeeds and sets the flag; Scoop needs the flag (else "Clasp Required")
    and adds one to the counter, leaving the flag set; Release needs a
    positive counter (else "No Scoops") and resets both; Pick Up, Place and
    None change nothing.  On success the command is stored for the selected
    waypoint.  Clasp, Scoop, Release in a row end in [(false, 0)]. *)
Theorem assign_command_table fc cmd wp :
  selected_waypoint_index fc <> -1 ->
  index (path_points fc) (selected_waypoint_index fc) = Ok wp ->
  0 <= scoops_to_release fc ->
  match spec_tryAssign (command_state fc) cmd with
  | inr st =>
      exists fc', assign_command fc cmd = (Done, fc') /\
                  command_state fc' = st /\
                  waypoint_commands fc' = <[wp := cmd]> (waypoint_commands fc) /\
                  same_path fc fc'
  | inl e => assign_command fc cmd = (ShowError (error_title e), fc)
  end
  /\ exists fc3, assign_all fc [Clasp; Scoop; Release] = (Done, fc3) /\
                 command_state fc3 = (false, 0).
Proof.
  intros Hsel Hwp Hn. split; [now apply assign_command_step|].
  unfold assign_all, assign_command. simpl.
  destruct (selected_waypoint_index fc =? -1) eqn:E; [lia|].
  rewrite Hwp. simpl. rewrite E, Hwp. simpl. rewrite E, Hwp.
  destruct (scoops_to_release fc + 1 =? 0) eqn:E1; [lia|].
  eexists; split; reflexivity.
Qed.

Lemma assign_command_table_witness :
  exists fc3, assign_all two_points_selected [Clasp; Scoop; Release] = (Done, fc3) /\
              command_state fc3 = (false, 0).
Proof.
  apply (assign_command_table two_points_selected Clasp (0, 0)); vm_compute; congruence.
Defined.

(** C4. An assignment that does not run to its end leaves the canvas as it
    was: the stored commands, the flag and the counter included.  The three
    message boxes are the only ways out. *)
Theorem assign_command_rejection_atomic fc cmd fc' title :
  assign_command fc cmd = (ShowError title, fc') ->
  fc' = fc /\
  (title = error_title NoWaypointSelected /\ selected_waypoint_index fc = -1 \/
   title = error_title ClaspRequired /\ cmd = Scoop /\ pending_clasp fc = false \/
   title = error_title NoPendingScoop /\ cmd = Release /\ scoops_to_release fc = 0).
Proof.
  unfold assign_command.
  destruct (selected_waypoint_index fc =? -1) eqn:E.
  { intros [= <- <-]. split; [reflexivity|]. left. split; [reflexivity|lia]. }
  destruct (index (path_points fc) (selected_waypoint_index fc)); [|discriminate].
  destruct cmd; simpl; try discriminate.
  - destruct (pending_clasp fc) eqn:Ep; simpl; [discriminate|].
    intros [= <- <-]. split; [reflexivity|]. right; left. auto.
  - destruct (scoops_to_release fc =? 0) eqn:E0; [|discriminate].
    intros [= <- <-]. split; [reflexivity|]. right; right. repeat split; lia.
Qed.

Lemma assign_command_rejection_atomic_witness :
  snd (assign_command two_points_selected Scoop) = two_points_selected.
Proof.
  destruct (assign_command_rejection_atomic two_points_selected Scoop
              (snd (assign_command two_points_selected Scoop)) "Clasp Required") as [H _].
  - vm_compute. reflexivity.
  - exact H.
Defined.

(** ** Side restriction *)

Lemma is_valid_point_spec fc x :
  is_valid_point fc x = false <-> restricted fc x.
Proof.
  unfold is_valid_point, restricted.
  destruct (String.eqb_spec (selected_side fc) "left") as [El|El];
    destruct (String.eqb_spec (selected_side fc) "right") as [Er|Er];
    destruct (central_line_x fc - CENTRAL_LINE_OFFSET <? x) eqn:E1;
    destruct (x <? central_line_x fc + CENTRAL_LINE_OFFSET) eqn:E2;
    simpl; split; intros H; try discriminate; try reflexivity;
    try (rewrite El in Er; discriminate);
    try (left; split; [assumption|lia]);
    try (right; split; [assumption|lia]);
    destruct H as [[H1 H2]|[H1 H2]]; try contradiction; try lia.
Qed.

(** C8. A right click or a left press (the start point, a straight point, a
    curve start) is turned down with the "Invalid Point" box, and changes
    nothing, exactly when the side is "left" and [x] exceeds
    [central_line_x - CENTRAL_LINE_OFFSET], or the side is "right" and [x] is
    below [central_line_x + CENTRAL_LINE_OFFSET]; otherwise the point is
    appended.  With the margin 10 and the centre line at 150, x = 145 is
    turned down and x = 140 is taken. *)
Theorem side_restriction fc x y :
  (restricted fc x ->
     add_straight_line fc x y = (ShowError "Invalid Point", fc) /\
     start_curve_point fc x y = (ShowError "Invalid Point", fc)) /\
  (~ restricted fc x ->
     fst (add_straight_line fc x y) = Done /\
     path_points (snd (add_straight_line fc x y)) = path_points fc ++ [(x, y)] /\
     fst (start_curve_point fc x y) = Done /\
     path_points (snd (start_curve_point fc x y)) = path_points fc ++ [(x, y)]) /\
  (CENTRAL_LINE_OFFSET = 10 /\
   add_straight_line (left_of 150) 145 y = (ShowError "Invalid Point", left_of 150) /\
   fst (add_straight_line (left_of 150) 140 y) = Done /\
   path_points (snd (add_straight_line (left_of 150) 140 y)) = [(20, 20); (140, y)]).
Proof.
  split; [|split].
  - intros H. apply is_valid_point_spec in H.
    unfold add_straight_line, start_curve_point. rewrite H. simpl. split; reflexivity.
  - intros H. assert (is_valid_point fc x = true) as Hv.
    { destruct (is_valid_point fc x) eqn:E; [reflexivity|].
      apply is_valid_point_spec in E. contradiction. }
    unfold add_straight_line, start_curve_point, add_starting_point. rewrite Hv. simpl.
    destruct (path_points fc) eqn:Ep; simpl; rewrite ?Ep; repeat split; reflexivity.
  - repeat split.
Qed.

Lemma side_restriction_witness :
  add_straight_line (left_of 150) 145 7 = (ShowError "Invalid Point", left_of 150) /\
  fst (add_straight_line (left_of 150) 140 7) = Done.
Proof.
  split.
  - destruct (side_restriction (left_of 150) 145 7) as [H _].
    apply H. left. split; [reflexivity|].
    unfold CENTRAL_LINE_OFFSET. simpl. lia.
  - destruct (side_restriction (left_of 150) 140 7) as [_ [H _]].
    apply H. intros [[_ H1]|[H1 _]].
    + unfold CENTRAL_LINE_OFFSET in H1. simpl in H1. lia.
    + discriminate H1.
Defined.

(** ** An open curve gesture *)

(** C9, as stated, fails: with a curve gesture open on [(0,0), (100,0)], a
    right click at (200, 50) runs to its end and appends the point. *)
Lemma open_curve_straight_appends :
  dragging_curve curve_open = true /\
  path_points curve_open = [(0, 0); (100, 0)] /\
  fst (add_straight_line curve_open 200 50) = Done /\
  path_points (snd (add_straight_line curve_open 200 50)) = [(0, 0); (100, 0); (200, 50)] /\
  fst (start_curve_point curve_open 200 50) = Done /\
  path_points (snd (start_curve_point curve_open 200 50)) = [(0, 0); (100, 0); (200, 50)].
Proof. repeat split. Qed.

(** C9, amended. While a curve gesture is open, a right click or a left
    press at a point that passes the side check is not turned down: the point
    is appended to the path with the command None and the gesture stays open. *)
Theorem open_curve_accepts_points fc x y :
  dragging_curve fc = true ->
  is_valid_point fc x = true ->
  forall handler, handler = add_straight_line \/ handler = start_curve_point ->
  fst (handler fc x y) = Done /\
  path_points (snd (handler fc x y)) = path_points fc ++ [(x, y)] /\
  waypoint_commands (snd (handler fc x y)) !! (x, y) = Some NoCommand /\
  dragging_curve (snd (handler fc x y)) = true.
Proof.
  intros Hd Hv handler [-> | ->];
    unfold add_straight_line, start_curve_point, add_starting_point;
    rewrite Hv; simpl; destruct (path_points fc) eqn:Ep; simpl;
    rewrite ?Ep, ?lookup_insert_eq; auto.
Qed.

Lemma open_curve_accepts_points_witness :
  path_points (snd (add_straight_line curve_open 200 50)) = path_points curve_open ++ [(200, 50)].
Proof.
  apply (open_curve_accepts_points curve_open 200 50); [reflexivity|reflexivity|].
  left. reflexivity.
Defined.

(** * The export passes *)

Lemma range_nil lo hi : hi <= lo -> range lo hi = [].
Proof. intros H. unfold range. replace (Z.to_nat (hi - lo)) with 0%nat by lia. reflexivity. Qed.

Lemma range_cons lo hi : lo < hi -> range lo hi = lo :: range (lo + 1) hi.
Proof.
  intros H. unfold range.
  replace (Z.to_nat (hi - lo)) with (S (Z.to_nat (hi - (lo + 1)))) by lia.
  cbn [seq map]. f_equal; [lia|].
  rewrite <- seq_shift, map_map. apply map_ext. intros k. lia.
Qed.

Lemma range_length lo hi : length (range lo hi) = Z.to_nat (hi - lo).
Proof. unfold range. now rewrite length_map, length_seq. Qed.

Lemma range_lookup lo hi (k : nat) :
  (k < Z.to_nat (hi - lo))%nat -> range lo hi !! k = Some (lo + Z.of_nat k).
Proof.
  intros H. unfold range. rewrite list_lookup_fmap, lookup_seq_lt by assumption.
  reflexivity.
Qed.

Lemma index_lookup {A} (l : list A) (k : nat) (a : A) :
  l !! k = Some a -> index l (Z.of_nat k) = Ok a.
Proof.
  intros H. unfold index. pose proof (lookup_lt_Some _ _ _ H) as Hlt.
  destruct (Z.of_nat k <? 0) eqn:E; [lia|].
  replace ((0 <=? Z.of_nat k) && (Z.of_nat k <? Z.of_nat (length l))) with true
    by (symmetry; apply andb_true_intro; split; lia).
  now rewrite Nat2Z.id, H.
Qed.

Lemma index_last {A} (l : list A) (a : A) : index (l ++ [a]) (-1) = Ok a.
Proof.
  unfold index. rewrite length_app. cbn [length].
  change (-1 <? 0) with true. cbv iota.
  set (n := Z.of_nat (length l + 1)).
  assert (Hn : n = Z.of_nat (length l) + 1) by lia.
  destruct ((0 <=? -1 + n) && (-1 + n <? n)) eqn:E; [|lia].
  replace (Z.to_nat (-1 + n)) with (length l + 0)%nat by lia.
  rewrite lookup_app_r by lia.
  replace (length l + 0 - length l)%nat with 0%nat by lia. reflexivity.
Qed.

Lemma index_empty {A} (i : Z) : index (@nil A) i = Raise IndexError.
Proof.
  unfold index. cbn [length]. destruct (i <? 0) eqn:E;
    destruct (_ && _) eqn:E2; try reflexivity; lia.
Qed.

Lemma write_all_run ls out : write_all ls out = (Ok tt, out ++ map Text ls).
Proof.
  unfold write_all. revert out.
  induction ls as [|s ls IH]; intros out; cbn [for_each map].
  - unfold ret. now rewrite app_nil_r.
  - unfold bind, write. rewrite IH, <- app_assoc. reflexivity.
Qed.

Section ExportFacts.

Variable atan2 : float -> float -> float.
Variable pow : float -> float -> float.

Lemma moves_run p1 h pts out :
  for_each pts
    (fun pt _ =>
       write (move_entry pt h
                (calculate_dynamic_speed (calculate_distance pow (ipoint p1) pt))))
    tt out
  = (Ok tt, out ++ moves pow p1 h pts).
Proof.
  revert out. induction pts as [|pt pts IH]; intros out; cbn [for_each moves map].
  - unfold ret. now rewrite app_nil_r.
  - unfold bind, write. rewrite IH, <- app_assoc. reflexivity.
Qed.

Lemma calculate_distance_ints (p1 p2 : Z * Z) :
  calculate_distance pow (ipoint p1) (ipoint p2)
  = Float (fsqrt (float_of_Z ((fst p2 - fst p1) * (fst p2 - fst p1)
                              + (snd p2 - snd p1) * (snd p2 - snd p1)))).
Proof. reflexivity. Qed.

Lemma int_of_fin_nonneg lo hi f :
  fin_nonneg lo hi f -> hi <= 0 ->
  exists k, 0 <= k < 2 ^ 53 /\ int_of_float f = Ok k.
Proof.
  destruct f as [s|s| |s m e]; simpl; try contradiction.
  - intros _ _. exists 0. split; [|reflexivity]. split; [lia|now apply pow2_pos].
  - intros (-> & Hm & He) Hhi. eexists. split; [|reflexivity].
    unfold cond_Zopp. destruct e as [|p|p]; try lia.
    + rewrite Z.shiftl_0_r. lia.
    + rewrite Z.shiftr_div_pow2 by lia.
      pose proof (pow2_pos (Zpos p) ltac:(lia)).
      split; [apply Z.div_pos; lia|].
      apply Z.div_lt_upper_bound; [lia|]. nia.
Qed.

(** The number of steps of a straight segment is defined. *)
Lemma straight_count_defined (p1 p2 : Z * Z) (d : Z) :
  in_range p1 -> in_range p2 -> 0 < d < 2 ^ 53 ->
  exists k, 0 <= k < 2 ^ 53 /\
            int (truediv (calculate_distance pow (ipoint p1) (ipoint p2)) (Int d)) = Ok k.
Proof.
  intros [H1 H2] [H3 H4] Hd. rewrite calculate_distance_ints.
  unfold truediv, to_float, int.
  apply (int_of_fin_nonneg (-1074) (-17)); [|lia].
  apply distance_quotient_fin; [|assumption].
  unfold c_int in *.
  change (2 ^ 31) with 2147483648 in *. change (2 ^ 66) with 73786976294838206464.
  assert (Hsq : forall a b, -2147483648 <= a < 2147483648 ->
                            -2147483648 <= b < 2147483648 ->
                            0 <= (b - a) * (b - a) < 18446744073709551616).
  { intros a b Ha Hb. split; [apply Z.square_nonneg|].
    rewrite <- Z.abs_square.
    assert (Z.abs (b - a) * Z.abs (b - a) <= 4294967295 * 4294967295)
      by (apply Z.mul_le_mono_nonneg; lia).
    lia. }
  pose proof (Hsq _ _ H1 H3). pose proof (Hsq _ _ H2 H4). lia.
Qed.

Lemma straight_points_ok (p1 p2 : Z * Z) :
  in_range p1 -> in_range p2 ->
  generate_intermediate_points pow (ipoint p1) (ipoint p2) None (Int 3)
  = Ok (straight_points pow p1 p2).
Proof.
  intros H1 H2. unfold straight_points.
  destruct (straight_count_defined p1 p2 3 H1 H2 ltac:(simpl; lia)) as (k & _ & Hk).
  unfold generate_intermediate_points. cbn [is_zero Z.eqb]. rewrite Hk. reflexivity.
Qed.

Lemma segment_run fc (k : nat) p1 p2 h0 out :
  exportable fc ->
  path_points fc !! k = Some p1 -> path_points fc !! S k = Some p2 ->
  segment atan2 pow fc (Z.of_nat k) h0 out
  = (Ok (Some (calculate_heading atan2 (ipoint p1) (ipoint p2))),
     out ++ segment_lines atan2 pow fc p1 p2).
Proof.
  intros [Hdrag Hwf] Hp1 Hp2. unfold segment, bind, lift. cbv zeta.
  rewrite (index_lookup _ _ _ Hp1).
  replace (Z.of_nat k + 1) with (Z.of_nat (S k)) by lia.
  rewrite (index_lookup _ _ _ Hp2).
  destruct (Hwf p1 (list_elem_of_lookup_2 _ _ _ Hp1)) as [[c Hc] Hr1].
  destruct (Hwf p2 (list_elem_of_lookup_2 _ _ _ Hp2)) as [_ Hr2].
  unfold command_at. rewrite Hc, Hdrag, andb_false_r.
  rewrite (straight_points_ok p1 p2 Hr1 Hr2).
  unfold segment_lines, stored_command, command_lines. rewrite Hc.
  change (default NoCommand (Some c)) with c.
  destruct (negb (command_eqb c NoCommand)).
  - unfold write at 1. rewrite moves_run. unfold ret. now rewrite <- app_assoc.
  - unfold ret at 1. rewrite moves_run. reflexivity.
Qed.

Lemma loop_run fc :
  exportable fc ->
  forall l (k : nat) h0 out,
    drop k (path_points fc) = l ->
    for_each (range (Z.of_nat k) (Z.of_nat (length (path_points fc)) - 1))
             (segment atan2 pow fc) h0 out
    = (Ok (last_heading atan2 l h0), out ++ segments_output atan2 pow fc l).
Proof.
  intros Hx l. induction l as [|p1 [|p2 tl] IH]; intros k h0 out Hd.
  - assert (length (drop k (path_points fc)) = 0%nat) as Hl by now rewrite Hd.
    rewrite length_drop in Hl.
    rewrite range_nil by lia. cbn. unfold ret. now rewrite app_nil_r.
  - assert (length (drop k (path_points fc)) = 1%nat) as Hl by now rewrite Hd.
    rewrite length_drop in Hl.
    rewrite range_nil by lia. cbn. unfold ret. now rewrite app_nil_r.
  - assert (length (drop k (path_points fc)) = S (S (length tl))) as Hl by now rewrite Hd.
    rewrite length_drop in Hl.
    assert (Hp1 : path_points fc !! k = Some p1).
    { rewrite <- (Nat.add_0_r k), <- lookup_drop, Hd. reflexivity. }
    assert (Hd' : drop (S k) (path_points fc) = p2 :: tl).
    { rewrite (drop_S _ _ _ Hp1) in Hd. congruence. }
    assert (Hp2 : path_points fc !! S k = Some p2).
    { rewrite <- (Nat.add_0_r (S k)), <- lookup_drop, Hd'. reflexivity. }
    rewrite range_cons by lia. cbn [for_each]. unfold bind at 1.
    rewrite (segment_run fc k p1 p2 h0 out Hx Hp1 Hp2).
    replace (Z.of_nat k + 1) with (Z.of_nat (S k)) by lia.
    rewrite (IH (S k) _ _ Hd').
    cbn [last_heading segments_output]. now rewrite <- app_assoc.
Qed.

Lemma last_heading_two l p q h0 :
  last_heading atan2 (l ++ [p; q]) h0
  = Some (calculate_heading atan2 (ipoint p) (ipoint q)).
Proof.
  revert h0. induction l as [|a l IH]; intros h0; [reflexivity|].
  cbn [app last_heading]. destruct (l ++ [p; q]) eqn:E.
  - destruct l; discriminate.
  - apply IH.
Qed.

Lemma segments_output_short fc l :
  (length l < 2)%nat -> segments_output atan2 pow fc l = [].
Proof. destruct l as [|a [|b l]]; cbn; intros; try reflexivity; lia. Qed.

(** The loop and the lines for the last waypoint, for a path of two
    waypoints or more. *)
Lemma commands_pass_run fc l p q h0 out :
  exportable fc -> path_points fc = l ++ [p; q] ->
  commands_pass atan2 pow fc h0 out
  = (Ok (Some (calculate_heading atan2 (ipoint p) (ipoint q))),
     out ++ segments_output atan2 pow fc (path_points fc)
         ++ command_lines (stored_command fc q) q
              (calculate_heading atan2 (ipoint p) (ipoint q))).
Proof.
  intros Hx Hp. unfold commands_pass, bind.
  pose proof (loop_run fc Hx (path_points fc) 0 h0 out eq_refl) as Hloop.
  change (Z.of_nat 0) with 0 in Hloop.
  assert (Hh : last_heading atan2 (path_points fc) h0
               = Some (calculate_heading atan2 (ipoint p) (ipoint q)))
    by (rewrite Hp; apply last_heading_two).
  assert (Hi : index (path_points fc) (-1) = Ok q).
  { rewrite Hp. replace (l ++ [p; q]) with ((l ++ [p]) ++ [q]) by now rewrite <- app_assoc.
    apply index_last. }
  rewrite Hloop, Hh. unfold lift. rewrite Hi.
  destruct Hx as [_ Hwf].
  destruct (Hwf q) as [[c Hc] _].
  { rewrite Hp. apply elem_of_app. right. apply elem_of_cons. right.
    now apply list_elem_of_singleton. }
  unfold command_at, stored_command, command_lines. rewrite Hc.
  change (default NoCommand (Some c)) with c.
  destruct (negb (command_eqb c NoCommand)); unfold write, ret.
  - now rewrite <- app_assoc.
  - now rewrite app_nil_r.
Qed.

Lemma export_run fc l p q fs :
  exportable fc -> path_points fc = l ++ [p; q] ->
  let body := segments_output atan2 pow fc (path_points fc)
              ++ command_lines (stored_command fc q) q
                   (calculate_heading atan2 (ipoint p) (ipoint q)) in
  export_to_files atan2 pow fc fs
  = (Ok tt, {| c_file := Some (map Text header ++ body ++ map Text footer);
               txt_file := Some body |}).
Proof.
  intros Hx Hp body. unfold export_to_files, c_pass, txt_pass, bind.
  rewrite write_all_run, (commands_pass_run fc l p q _ _ Hx Hp), write_all_run.
  unfold ret. rewrite (commands_pass_run fc l p q _ _ Hx Hp).
  cbn [app]. fold body. now rewrite <- app_assoc.
Qed.

End ExportFacts.

(** * Claims about the export *)

Lemma exportableb_sound fc : exportableb fc = true -> exportable fc.
Proof.
  unfold exportableb, exportable. intros [Hd Hf]%andb_prop.
  split; [now destruct (dragging_curve fc)|].
  intros p Hp. rewrite forallb_forall in Hf.
  specialize (Hf p ltac:(now apply list_elem_of_In)).
  destruct (waypoint_commands fc !! p); [|discriminate].
  split; [eauto|]. apply andb_prop in Hf as [H1 H2].
  unfold in_range, c_int, c_intb in *. lia.
Qed.

Section ExportClaims.

Variable atan2 : float -> float -> float.
Variable pow : float -> float -> float.

Lemma commands_pass_short fc out :
  (length (path_points fc) < 2)%nat ->
  snd (commands_pass atan2 pow fc None out) = out /\
  (forall h, fst (commands_pass atan2 pow fc None out) = Ok h -> h = None) /\
  forall p, path_points fc = [p] -> command_at fc p = Ok NoCommand ->
            commands_pass atan2 pow fc None out = (Ok None, out).
Proof.
  intros Hlen. unfold commands_pass, bind, lift.
  rewrite range_nil by lia. cbn [for_each]. unfold ret.
  destruct (path_points fc) as [|p [|q l]] eqn:Ep; [| |cbn in Hlen; lia].
  - rewrite index_empty. repeat split; discriminate.
  - assert (Hi : index [p] (-1) = Ok p) by reflexivity. rewrite Hi.
    destruct (command_at fc p) as [c|e] eqn:Ecmd.
    + destruct (negb (command_eqb c NoCommand)) eqn:Ec; cbn.
      * split; [reflexivity|]. split; [discriminate|].
        intros p' [= <-] Hn. rewrite Ecmd in Hn. injection Hn as ->. discriminate.
      * split; [reflexivity|]. split; [congruence|]. reflexivity.
    + split; [reflexivity|]. split; [discriminate|].
      intros p' [= <-] Hn. congruence.
Qed.

(** C1, amended. A path of fewer than two waypoints is not turned down:
    the export opens the struct-array file and writes the declarations
    before it looks at the path, and writes no instruction to either file.
    For a single start waypoint with the command None it runs to its end and
    leaves both files: the declarations with an empty array and the count
    line, and an empty transcript. *)
Theorem short_path_export fc fs :
  (length (path_points fc) < 2)%nat ->
  (exists out, c_file (snd (export_to_files atan2 pow fc fs))
               = Some (map Text header ++ out)
               /\ forallb is_text out = true) /\
  (txt_file (snd (export_to_files atan2 pow fc fs)) = txt_file fs \/
   txt_file (snd (export_to_files atan2 pow fc fs)) = Some []) /\
  (forall p, path_points fc = [p] -> command_at fc p = Ok NoCommand ->
             export_to_files atan2 pow fc fs
             = (Ok tt, {| c_file := Some (map Text header ++ map Text footer);
                          txt_file := Some [] |})).
Proof.
  intros Hlen.
  destruct (commands_pass_short fc (map Text header) Hlen) as (Hc & Hnone & Hone).
  unfold export_to_files, c_pass, txt_pass, bind.
  rewrite write_all_run. cbn [app].
  destruct (commands_pass atan2 pow fc None (map Text header)) as [[h|e] out] eqn:E;
    cbn [fst snd] in Hc, Hnone; subst out.
  - rewrite write_all_run. unfold ret.
    rewrite (Hnone h eq_refl).
    destruct (commands_pass_short fc [] Hlen) as (Ht & _ & Hone').
    destruct (commands_pass atan2 pow fc None []) as [[h'|e'] out'] eqn:E';
      cbn [snd] in Ht; subst out'; cbn [snd c_file txt_file].
    + split; [exists (map Text footer); split; reflexivity|].
      split; [now right|]. reflexivity.
    + split; [exists (map Text footer); split; reflexivity|].
      split; [now right|].
      intros p Hp Hcmd. specialize (Hone' p Hp Hcmd). discriminate.
  - cbn [snd c_file txt_file].
    split; [exists []; split; [now rewrite app_nil_r|reflexivity]|].
    split; [now left|].
    intros p Hp Hcmd. specialize (Hone p Hp Hcmd). discriminate.
Qed.

(** C7. For a path of two waypoints or more whose last waypoint has a
    command other than None, the export writes, after everything the loop
    wrote for the segments and before the closing lines, one entry for that
    command at the last waypoint, with speed 0 and the heading of the last
    segment, which is the heading the loop computed last. *)
Theorem trailing_command fc l p q cmd fs :
  exportable fc -> path_points fc = l ++ [p; q] ->
  command_at fc q = Ok cmd -> cmd <> NoCommand ->
  let h := calculate_heading atan2 (ipoint p) (ipoint q) in
  let trailing := Entry {| kind := CMD cmd; pos := ipoint q; heading := h; speed := Int 0 |} in
  for_each (range 0 (Z.of_nat (length (path_points fc)) - 1)) (segment atan2 pow fc)
           None (map Text header)
  = (Ok (Some h), map Text header ++ segments_output atan2 pow fc (path_points fc)) /\
  export_to_files atan2 pow fc fs
  = (Ok tt,
     {| c_file := Some (map Text header
                        ++ (segments_output atan2 pow fc (path_points fc) ++ [trailing])
                        ++ map Text footer);
        txt_file := Some (segments_output atan2 pow fc (path_points fc) ++ [trailing]) |}).
Proof.
  intros Hx Hp Hcmd Hne h trailing. split.
  - pose proof (loop_run atan2 pow fc Hx (path_points fc) 0 None (map Text header) eq_refl)
      as Hloop.
    change (Z.of_nat 0) with 0 in Hloop. rewrite Hloop. f_equal. f_equal.
    rewrite Hp. apply last_heading_two.
  - rewrite (export_run atan2 pow fc l p q fs Hx Hp).
    assert (Hl : command_lines (stored_command fc q) q h = [trailing]).
    { unfold command_lines, stored_command. unfold command_at in Hcmd.
      destruct (waypoint_commands fc !! q) as [c|]; [|discriminate].
      injection Hcmd as ->. change (default NoCommand (Some cmd)) with cmd.
      destruct (command_eqb cmd NoCommand) eqn:E; [|reflexivity].
      apply command_eqb_eq in E. contradiction. }
    fold h. rewrite Hl. reflexivity.
Qed.

(** Every line the loop body leaves behind is a line the invariant allows. *)
Lemma for_each_inv {A S} (P : line -> Prop) (xs : list A) (body : A -> S -> io S) :
  (forall x s out, Forall P out -> Forall P (snd (body x s out))) ->
  forall s out, Forall P out -> Forall P (snd (for_each xs body s out)).
Proof.
  intros Hb. induction xs as [|x xs IH]; intros s out Hout; cbn [for_each].
  - exact Hout.
  - unfold bind. specialize (Hb x s out Hout).
    destruct (body x s out) as [[s'|e] out']; cbn [snd] in *; auto.
Qed.

Lemma calculate_dynamic_speed_spec s : calculate_dynamic_speed s = spec_speed s.
Proof. reflexivity. Qed.

Lemma segment_inv fc i h out :
  Forall (move_of_segment atan2 pow fc) out ->
  Forall (move_of_segment atan2 pow fc) (snd (segment atan2 pow fc i h out)).
Proof.
  intros Hout. unfold segment, bind, lift. cbv zeta.
  destruct (index (path_points fc) i) as [p1|e] eqn:E1; [|exact Hout].
  destruct (index (path_points fc) (i + 1)) as [p2|e] eqn:E2; [|exact Hout].
  destruct (command_at fc p1) as [c|e]; [|exact Hout].
  destruct ((i <? Z.of_nat (length (path_points fc)) - 1) && dragging_curve fc);
    [exact Hout|].
  destruct (generate_intermediate_points pow (ipoint p1) (ipoint p2) None (Int 3))
    as [pts|e] eqn:Eg; [|exact Hout].
  assert (Hmoves : forall out1, Forall (move_of_segment atan2 pow fc) out1 ->
            Forall (move_of_segment atan2 pow fc)
              (out1 ++ moves pow p1 (calculate_heading atan2 (ipoint p1) (ipoint p2)) pts)).
  { intros out1 H1. apply Forall_app. split; [exact H1|].
    unfold moves. apply Forall_forall. intros ln Hln.
    apply list_elem_of_fmap in Hln as (pt & -> & Hpt).
    cbn. intros _. exists i, p1, p2, pts. repeat split; try assumption. }
  destruct (negb (command_eqb c NoCommand)).
  - unfold write at 1. rewrite moves_run. unfold ret. cbn [snd].
    apply Hmoves. apply Forall_app. split; [exact Hout|].
    constructor; [|constructor]. cbn. discriminate.
  - unfold ret at 1. rewrite moves_run. unfold ret. cbn [snd].
    apply Hmoves. exact Hout.
Qed.

Lemma commands_pass_inv fc h0 out :
  Forall (move_of_segment atan2 pow fc) out ->
  Forall (move_of_segment atan2 pow fc) (snd (commands_pass atan2 pow fc h0 out)).
Proof.
  intros Hout. unfold commands_pass, bind, lift.
  pose proof (for_each_inv _ (range 0 (Z.of_nat (length (path_points fc)) - 1))
                (segment atan2 pow fc) (segment_inv fc) h0 out Hout) as Hloop.
  destruct (for_each _ _ h0 out) as [[h|e] out1]; cbn [snd] in Hloop; [|exact Hloop].
  destruct (index (path_points fc) (-1)) as [q|e]; [|exact Hloop].
  destruct (command_at fc q) as [c|e]; [|exact Hloop].
  destruct (negb (command_eqb c NoCommand)); [|exact Hloop].
  destruct h as [h|]; [|exact Hloop].
  unfold write, ret. cbn [snd]. apply Forall_app. split; [exact Hloop|].
  constructor; [|constructor]. cbn. discriminate.
Qed.

Lemma texts_inv fc ls : Forall (move_of_segment atan2 pow fc) (map Text ls).
Proof. induction ls; constructor; [exact I|assumption]. Qed.

Lemma txt_pass_inv fc h0 :
  Forall (move_of_segment atan2 pow fc) (snd (txt_pass atan2 pow fc h0 [])).
Proof.
  unfold txt_pass, bind.
  pose proof (commands_pass_inv fc h0 [] ltac:(constructor)) as H.
  destruct (commands_pass atan2 pow fc h0 []) as [[h|e] out]; exact H.
Qed.

(** Whatever the state, also when the export stops at an exception, a
    motion line that reached the struct-array file or the transcript belongs
    to one segment of the path, from waypoint [i] to waypoint [i + 1]: its
    point is a sub-point of that segment, its heading is the segment's, and
    its speed is the ramp at the distance from waypoint [i] to the point. *)
Lemma motion_lines_belong_to_segments fc fs :
  (exists lines, c_file (snd (export_to_files atan2 pow fc fs)) = Some lines /\
                 Forall (move_of_segment atan2 pow fc) lines) /\
  (forall h0, Forall (move_of_segment atan2 pow fc) (snd (txt_pass atan2 pow fc h0 []))).
Proof.
  split; [|apply txt_pass_inv].
  assert (Hc : Forall (move_of_segment atan2 pow fc) (snd (c_pass atan2 pow fc []))).
  { unfold c_pass, bind. rewrite write_all_run. cbn [app].
    pose proof (commands_pass_inv fc None (map Text header) (texts_inv fc header)) as H.
    destruct (commands_pass atan2 pow fc None (map Text header)) as [[h|e] out];
      cbn [snd] in H; [|exact H].
    rewrite write_all_run. unfold ret. cbn [snd].
    apply Forall_app. split; [exact H|apply texts_inv]. }
  unfold export_to_files.
  destruct (c_pass atan2 pow fc []) as [[h|e] out]; cbn [snd] in Hc.
  - destruct (txt_pass atan2 pow fc h []) as [r out']. cbn. eauto.
  - cbn. eauto.
Qed.

End ExportClaims.

(** C1, as stated, fails: the export of a path that is only the start
    waypoint runs to its end and leaves both files. *)
Lemma start_only_export_writes_files :
  path_points start_only = [(0, 0)] /\
  export_to_files Libm.atan2 Libm.pow start_only no_files
  = (Ok tt, {| c_file := Some (map Text header ++ map Text footer);
               txt_file := Some [] |}).
Proof. split; reflexivity. Qed.

Lemma short_path_export_witness :
  export_to_files Libm.atan2 Libm.pow start_only no_files
  = (Ok tt, {| c_file := Some (map Text header ++ map Text footer);
               txt_file := Some [] |}).
Proof.
  apply (short_path_export Libm.atan2 Libm.pow start_only no_files) with (p := (0, 0)).
  - cbn. lia.
  - reflexivity.
  - reflexivity.
Defined.

Lemma trailing_command_witness :
  exists body,
    c_file (snd (export_to_files Libm.atan2 Libm.pow two_points_last_pick no_files))
    = Some (map Text header
            ++ (body ++ [Entry {| kind := CMD PickUp; pos := (Int 100, Int 0);
                                  heading := S754_zero false; speed := Int 0 |}])
            ++ map Text footer).
Proof.
  eexists.
  destruct (trailing_command Libm.atan2 Libm.pow two_points_last_pick [] (0, 0) (100, 0)
              PickUp no_files) as [_ H].
  - apply exportableb_sound. vm_compute. reflexivity.
  - reflexivity.
  - reflexivity.
  - discriminate.
  - rewrite H. reflexivity.
Defined.

(** * Claims about the densifier *)

Section DensifierClaims.

Variable atan2 : float -> float -> float.
Variable pow : float -> float -> float.

Lemma truediv_self n : 0 < n < 2 ^ 53 -> truediv (Int n) (Int n) = Float one.
Proof. intros H. unfold truediv, to_float. now rewrite fdiv_float_of_Z_self. Qed.

Lemma c_int_small z : c_int z -> Z.abs z < 2 ^ 32.
Proof.
  unfold c_int. change (2 ^ 31) with 2147483648. change (2 ^ 32) with 4294967296. lia.
Qed.

Lemma line_coordinate_end a b :
  c_int a -> c_int b ->
  add (Int a) (mul (Float one) (sub (Int b) (Int a))) = Float (float_of_Z b).
Proof.
  intros Ha Hb. apply c_int_small in Ha, Hb.
  change (2 ^ 32) with 4294967296 in *.
  assert (H53 : 2 ^ 53 = 9007199254740992) by reflexivity.
  cbn [add mul sub to_float].
  rewrite fmul_one_float_of_Z by lia.
  rewrite fadd_float_of_Z by lia.
  f_equal. f_equal. lia.
Qed.

Lemma line_point_end (p1 p2 : Z * Z) :
  in_range p1 -> in_range p2 ->
  line_point (ipoint p1) (ipoint p2) (Float one)
  = (Float (float_of_Z (fst p2)), Float (float_of_Z (snd p2))).
Proof.
  intros [H1 H2] [H3 H4]. unfold line_point, ipoint. cbn [fst snd].
  now rewrite !line_coordinate_end.
Qed.

Lemma float_of_Z_exact z : Z.abs z < 2 ^ 53 -> float_eq_Z (float_of_Z z) z = true.
Proof.
  intros Hb. destruct (Z.eq_dec z 0) as [->|Hz]; [reflexivity|].
  destruct (float_of_Z_finite z Hz Hb) as (m & e & -> & _ & He & Hm).
  unfold float_eq_Z. rewrite Hm.
  rewrite cond_Zopp_mul, cond_Zopp_abs.
  destruct (e <? 0) eqn:E; [lia|].
  assert (e = 0) as -> by lia. simpl. lia.
Qed.

Lemma straight_points_at (p1 p2 : point) (d : Z) k :
  d <> 0 ->
  int (truediv (calculate_distance pow p1 p2) (Int d)) = Ok k ->
  generate_intermediate_points pow p1 p2 None (Int d)
  = Ok (map (fun i => line_point p1 p2 (truediv (Int i) (Int (Z.max 1 k))))
            (range 1 (Z.max 1 k + 1))).
Proof.
  intros Hd Hk. unfold generate_intermediate_points. cbn [is_zero].
  destruct (d =? 0) eqn:E; [lia|]. rewrite Hk. cbn [rbind].
  assert (max1 k = Z.max 1 k) as -> by (unfold max1; destruct (1 <? k) eqn:E1; lia).
  reflexivity.
Qed.

(** C5. A straight segment between two waypoints is cut into
    [n = max(1, int(distance / d))] sub-points, the i-th at the parameter
    [i / n] on the line from [p1] to [p2]; the last one is [p2] itself.  For
    the path [(0,0), (100,0)] the export holds 33 motion lines, all with
    heading 0.0. *)
Theorem straight_segment_points (p1 p2 : Z * Z) (d : Z) :
  in_range p1 -> in_range p2 -> 0 < d < 2 ^ 53 -> atan2_on_axis atan2 ->
  (exists k n pts,
      int (truediv (calculate_distance pow (ipoint p1) (ipoint p2)) (Int d)) = Ok k /\
      0 <= k /\ n = Z.max 1 k /\
      generate_intermediate_points pow (ipoint p1) (ipoint p2) None (Int d) = Ok pts /\
      Z.of_nat (length pts) = n /\
      (forall i, 1 <= i <= n ->
                 pts !! Z.to_nat (i - 1)
                 = Some (line_point (ipoint p1) (ipoint p2) (truediv (Int i) (Int n)))) /\
      last pts = Some (Float (float_of_Z (fst p2)), Float (float_of_Z (snd p2))) /\
      num_eq_Z (Float (float_of_Z (fst p2))) (fst p2) = true /\
      num_eq_Z (Float (float_of_Z (snd p2))) (snd p2) = true) /\
  (exists lines,
      export_to_files atan2 pow two_points no_files
      = (Ok tt, {| c_file := Some (map Text header ++ lines ++ map Text footer);
                   txt_file := Some lines |}) /\
      length lines = 33%nat /\
      forallb is_move lines = true /\
      Forall (fun l => line_heading l = Some (S754_zero false)) lines).
Proof.
  intros Hr1 Hr2 Hd Hatan. split.
  - destruct (straight_count_defined pow p1 p2 d Hr1 Hr2 Hd) as (k & Hk0 & Hk).
    set (n := Z.max 1 k).
    assert (Hn : 0 < n < 2 ^ 53) by (unfold n; lia).
    exists k, n, (map (fun i => line_point (ipoint p1) (ipoint p2) (truediv (Int i) (Int n)))
                      (range 1 (n + 1))).
    assert (Hlook : forall i, 1 <= i <= n ->
              range 1 (n + 1) !! Z.to_nat (i - 1) = Some i).
    { intros i Hi. rewrite range_lookup by lia. f_equal. lia. }
    repeat split; try lia.
    + exact Hk.
    + apply straight_points_at; [lia|exact Hk].
    + rewrite length_map, range_length. lia.
    + intros i Hi. rewrite list_lookup_fmap, (Hlook i Hi). reflexivity.
    + rewrite last_lookup, length_map, range_length.
      replace (Nat.pred (Z.to_nat (n + 1 - 1))) with (Z.to_nat (n - 1)) by lia.
      rewrite list_lookup_fmap, (Hlook n) by lia. cbn [fmap option_fmap option_map].
      now rewrite truediv_self, line_point_end.
    + apply float_of_Z_exact. destruct Hr2 as [H _]. apply c_int_small in H.
      change (2 ^ 32) with 4294967296 in H. change (2 ^ 53) with 9007199254740992. lia.
    + apply float_of_Z_exact. destruct Hr2 as [_ H]. apply c_int_small in H.
      change (2 ^ 32) with 4294967296 in H. change (2 ^ 53) with 9007199254740992. lia.
  - assert (Hx : exportable two_points) by (apply exportableb_sound; vm_compute; reflexivity).
    assert (Hp : path_points two_points = [] ++ [(0, 0); (100, 0)]) by reflexivity.
    pose proof (export_run atan2 pow two_points [] (0, 0) (100, 0) no_files Hx Hp) as Hrun.
    cbv zeta in Hrun.
    assert (Hs0 : stored_command two_points (0, 0) = NoCommand) by (vm_compute; reflexivity).
    assert (Hs1 : stored_command two_points (100, 0) = NoCommand) by (vm_compute; reflexivity).
    assert (Hh : calculate_heading atan2 (ipoint (0, 0)) (ipoint (100, 0)) = S754_zero false).
    { unfold calculate_heading, ipoint. cbn [fst snd sub to_float].
      change (float_of_Z (0 - 0)) with (S754_zero false).
      change (float_of_Z (100 - 0)) with (S754_finite false 7036874417766400 (-46)).
      rewrite Hatan. reflexivity. }
    rewrite Hp in Hrun. cbn [app segments_output] in Hrun. unfold segment_lines in Hrun.
    rewrite Hs0, Hs1, Hh in Hrun. cbn [command_lines command_eqb negb app] in Hrun.
    rewrite !app_nil_r in Hrun.
    eexists. split; [exact Hrun|]. unfold moves.
    assert (Hlen : length (straight_points pow (0, 0) (100, 0)) = 33%nat)
      by (vm_compute; reflexivity).
    split; [now rewrite length_map|].
    split.
    + apply forallb_forall. intros l Hl. apply in_map_iff in Hl as (pt & <- & _). reflexivity.
    + apply Forall_forall. intros l Hl. apply list_elem_of_fmap in Hl as (pt & -> & _).
      reflexivity.
Qed.

Lemma bezier_length p1 p2 control :
  length (calculate_quadratic_bezier_points pow p1 p2 control) = 101%nat.
Proof. unfold calculate_quadratic_bezier_points. now rewrite length_map, range_length. Qed.

Lemma neighbour_filter d (pre : list point) b0 rest :
  flat_map
    (fun i =>
       match (pre ++ b0 :: rest) !! Z.to_nat (i - 1), (pre ++ b0 :: rest) !! Z.to_nat i with
       | Some a, Some b => if geb (calculate_distance pow a b) d then [b] else []
       | _, _ => []
       end)
    (range (Z.of_nat (length pre) + 1) (Z.of_nat (length pre) + 1 + Z.of_nat (length rest)))
  = kept_by_neighbour pow d b0 rest.
Proof.
  revert pre b0. induction rest as [|c rest IH]; intros pre b0.
  - rewrite range_nil by (cbn; lia). reflexivity.
  - rewrite range_cons by (cbn [length]; lia). cbn [flat_map kept_by_neighbour].
    replace (Z.to_nat (Z.of_nat (length pre) + 1 - 1)) with (length pre + 0)%nat by lia.
    replace (Z.to_nat (Z.of_nat (length pre) + 1)) with (length pre + 1)%nat by lia.
    rewrite !lookup_app_r by lia.
    replace (length pre + 0 - length pre)%nat with 0%nat by lia.
    replace (length pre + 1 - length pre)%nat with 1%nat by lia.
    cbn [lookup list_lookup]. f_equal.
    specialize (IH (pre ++ [b0]) c).
    rewrite length_app in IH. cbn [length] in IH.
    replace (Z.of_nat (length pre + 1)) with (Z.of_nat (length pre) + 1) in IH by lia.
    replace (Z.of_nat (length pre) + 1 + Z.of_nat (length (c :: rest)))
      with (Z.of_nat (length pre) + 1 + 1 + Z.of_nat (length rest))
      by (cbn [length]; lia).
    rewrite <- IH. rewrite <- app_assoc. reflexivity.
Qed.

(** What the densifier computes when it is handed a control point: the 101
    samples of the quadratic Bezier, each of the last 100 compared with the
    sample just before it, kept or not. *)
Lemma densifier_compares_neighbours p1 p2 control d :
  let b := calculate_quadratic_bezier_points pow p1 p2 control in
  length b = 101%nat /\
  (forall i : nat, (i <= 100)%nat ->
     b !! i = Some (let t := truediv (Int (Z.of_nat i)) (Int 100) in
                    (bezier_coordinate pow t (fst p1) (fst control) (fst p2),
                     bezier_coordinate pow t (snd p1) (snd control) (snd p2)))) /\
  exists b0 rest,
    b = b0 :: rest /\
    generate_intermediate_points pow p1 p2 (Some control) d
    = Ok (kept_by_neighbour pow d b0 rest).
Proof.
  intros b. split; [apply bezier_length|]. split.
  - intros i Hi. unfold b, calculate_quadratic_bezier_points.
    rewrite list_lookup_fmap, range_lookup by (simpl; lia). reflexivity.
  - pose proof (bezier_length p1 p2 control) as Hlen. fold b in Hlen.
    destruct b as [|b0 rest] eqn:Eb; [discriminate|].
    exists b0, rest. split; [reflexivity|].
    unfold generate_intermediate_points. fold b. rewrite Eb. f_equal.
    pose proof (neighbour_filter d [] b0 rest) as H.
    cbn [length app] in H. change (Z.of_nat 0 + 1) with 1 in H.
    rewrite <- H. f_equal. f_equal. cbn [length]. lia.
Qed.

End DensifierClaims.

Lemma straight_segment_points_witness :
  exists pts,
    generate_intermediate_points Libm.pow (Int 0, Int 0) (Int 100, Int 0) None (Int 3) = Ok pts /\
    Z.of_nat (length pts) = 33.
Proof.
  destruct (straight_segment_points Libm.atan2 Libm.pow (0, 0) (100, 0) 3)
    as [(k & n & pts & Hk & _ & Hn & Hg & Hl & _) _].
  - split; vm_compute; split; congruence.
  - split; vm_compute; split; congruence.
  - vm_compute. split; reflexivity.
  - intros m e. reflexivity.
  - exists pts. split; [exact Hg|].
    rewrite Hl, Hn. vm_compute in Hk. injection Hk as <-. reflexivity.
Defined.

(** C2 does not hold of the code.  The start waypoint is
    (0,0); the curve gesture is pressed at (100,0) and released at (50,50),
    the control point.  The export of the finished gesture does not use the
    control point, which [finalize_curve_point] does not store: it writes
    the 33 sub-points of the straight line from (0,0) to (100,0).  The
    filter of the specification keeps 33 samples of the Bezier, the first one sample
    3.  The densifier itself, handed the control point, keeps no sample:
    it compares a sample with the one just before it, not with the one
    kept last. *)
Lemma curve_not_densified_as_specified :
  length (spec_curve_points Libm.pow (Int 0, Int 0) (Int 100, Int 0) (Int 50, Int 50) (Int 3))
  = 33%nat /\
  head (spec_curve_points Libm.pow (Int 0, Int 0) (Int 100, Int 0) (Int 50, Int 50) (Int 3))
  = Some (Float (S754_finite false 6755399441055743 (-51)),
          Float (S754_finite false 6552737457824071 (-51))) /\
  generate_intermediate_points Libm.pow (Int 0, Int 0) (Int 100, Int 0)
                               (Some (Int 50, Int 50)) (Int 3) = Ok [] /\
  path_points curve_done = [(0, 0); (100, 0)] /\
  dragging_curve curve_done = false /\
  exists lines,
    export_to_files Libm.atan2 Libm.pow curve_done no_files
    = (Ok tt, {| c_file := Some (map Text header ++ lines ++ map Text footer);
                 txt_file := Some lines |}) /\
    map line_pos lines = map Some (straight_points Libm.pow (0, 0) (100, 0)) /\
    head (straight_points Libm.pow (0, 0) (100, 0))
    = Some (Float (S754_finite false 6823635799046206 (-51)), Float (S754_zero false)).
Proof.
  split; [vm_compute; reflexivity|].
  split; [vm_compute; reflexivity|].
  split; [vm_compute; reflexivity|].
  split; [reflexivity|]. split; [reflexivity|].
  exists (moves Libm.pow (0, 0) (S754_zero false) (straight_points Libm.pow (0, 0) (100, 0))).
  split; [|split].
  - vm_compute. reflexivity.
  - vm_compute. reflexivity.
  - vm_compute. reflexivity.
Qed.

(** * The speed of a motion line *)

Section SpeedClaims.

Variable atan2 : float -> float -> float.
Variable pow : float -> float -> float.

Lemma filter_moves_texts ls : List.filter is_move (map Text ls) = [].
Proof. induction ls as [|a ls IH]; [reflexivity|exact IH]. Qed.

Lemma filter_moves_command cmd wp h : List.filter is_move (command_lines cmd wp h) = [].
Proof. unfold command_lines. now destruct (negb (command_eqb cmd NoCommand)). Qed.

Lemma filter_moves_moves p1 h pts :
  List.filter is_move (moves pow p1 h pts) = ramp_moves pow p1 h pts.
Proof.
  unfold moves, ramp_moves. induction pts as [|pt pts IH]; [reflexivity|].
  cbn [map List.filter move_entry is_move kind]. now rewrite IH.
Qed.

Lemma filter_moves_segments fc l :
  List.filter is_move (segments_output atan2 pow fc l) = motion_lines atan2 pow l.
Proof.
  induction l as [|p1 [|p2 tl] IH]; [reflexivity|reflexivity|].
  change (segments_output atan2 pow fc (p1 :: p2 :: tl))
    with (segment_lines atan2 pow fc p1 p2 ++ segments_output atan2 pow fc (p2 :: tl)).
  change (motion_lines atan2 pow (p1 :: p2 :: tl))
    with (ramp_moves pow p1 (calculate_heading atan2 (ipoint p1) (ipoint p2))
                     (straight_points pow p1 p2)
          ++ motion_lines atan2 pow (p2 :: tl)).
  unfold segment_lines.
  now rewrite !List.filter_app, filter_moves_command, filter_moves_moves, IH.
Qed.

Lemma segment_lines_written fc l (k : nat) p1 p2 ln :
  l !! k = Some p1 -> l !! S k = Some p2 ->
  ln ∈ segment_lines atan2 pow fc p1 p2 -> ln ∈ segments_output atan2 pow fc l.
Proof.
  revert k. induction l as [|a [|b tl] IH]; intros k H1 H2 Hln.
  - discriminate H1.
  - cbn in H2. discriminate H2.
  - cbn [segments_output]. apply elem_of_app. destruct k as [|k].
    + injection H1 as <-. injection H2 as <-. now left.
    + right. apply (IH k); assumption.
Qed.

Lemma straight_points_some (p1 p2 : Z * Z) :
  in_range p1 -> in_range p2 -> straight_points pow p1 p2 <> [].
Proof.
  intros H1 H2. unfold straight_points.
  destruct (straight_count_defined pow p1 p2 3 H1 H2 ltac:(simpl; lia)) as (k & Hk0 & Hk).
  rewrite (straight_points_at pow (ipoint p1) (ipoint p2) 3 k ltac:(lia) Hk).
  intros Hnil. apply (f_equal (@length point)) in Hnil.
  rewrite length_map, range_length in Hnil. cbn [length] in Hnil. lia.
Qed.

(** C6. The export of a path of two waypoints or more writes, for every
    segment from a waypoint [p1] to the next one and for every sub-point of
    that segment, a motion line at the sub-point with the segment's heading
    and the speed [40 + (s/100) * 60] cut off at 100, where [s] is the
    distance from [p1] to the sub-point: to the struct-array file and to
    the transcript.  Every segment has a sub-point, and the motion lines
    of either file are these lines and no others, in the order of the
    path. *)
Theorem motion_speed fc l p q fs :
  exportable fc -> path_points fc = l ++ [p; q] ->
  exists c_lines t_lines,
    export_to_files atan2 pow fc fs
    = (Ok tt, {| c_file := Some c_lines; txt_file := Some t_lines |}) /\
    (forall (k : nat) p1 p2,
        path_points fc !! k = Some p1 -> path_points fc !! S k = Some p2 ->
        exists pts,
          generate_intermediate_points pow (ipoint p1) (ipoint p2) None (Int 3) = Ok pts /\
          pts <> [] /\
          forall pt, pt ∈ pts ->
            let s := calculate_distance pow (ipoint p1) pt in
            let ramp := add (Int 40) (mul (truediv s (Int 100)) (Int 60)) in
            let v := if ltb (Int 100) ramp then Int 100 else ramp in
            let h := calculate_heading atan2 (ipoint p1) (ipoint p2) in
            calculate_dynamic_speed s = v /\
            move_entry pt h v ∈ c_lines /\ move_entry pt h v ∈ t_lines) /\
    List.filter is_move c_lines = motion_lines atan2 pow (path_points fc) /\
    List.filter is_move t_lines = motion_lines atan2 pow (path_points fc).
Proof.
  intros Hx Hp.
  pose proof (export_run atan2 pow fc l p q fs Hx Hp) as Hrun. cbv zeta in Hrun.
  eexists _, _. split; [exact Hrun|]. split; [|split].
  - intros k p1 p2 H1 H2.
    destruct Hx as [_ Hwf].
    destruct (Hwf p1 (list_elem_of_lookup_2 _ _ _ H1)) as [_ Hr1].
    destruct (Hwf p2 (list_elem_of_lookup_2 _ _ _ H2)) as [_ Hr2].
    exists (straight_points pow p1 p2).
    split; [now apply straight_points_ok|].
    split; [now apply straight_points_some|].
    intros pt Hpt s ramp v h. split; [reflexivity|].
    assert (Hin : move_entry pt h v ∈ segments_output atan2 pow fc (path_points fc)).
    { apply (segment_lines_written fc _ k p1 p2 _ H1 H2).
      unfold segment_lines. apply elem_of_app. right.
      unfold moves. apply list_elem_of_fmap. exists pt. split; [reflexivity|exact Hpt]. }
    split.
    + apply elem_of_app. right. apply elem_of_app. left. apply elem_of_app. now left.
    + apply elem_of_app. now left.
  - now rewrite !List.filter_app, filter_moves_texts, filter_moves_command,
      filter_moves_segments, !app_nil_r.
  - now rewrite List.filter_app, filter_moves_command, filter_moves_segments, app_nil_r.
Qed.

End SpeedClaims.

Lemma motion_speed_witness :
  exists c_lines t_lines,
    export_to_files Libm.atan2 Libm.pow two_points no_files
    = (Ok tt, {| c_file := Some c_lines; txt_file := Some t_lines |}) /\
    length (List.filter is_move c_lines) = 33%nat /\
    move_entry (Float (float_of_Z 100), Float (S754_zero false)) (S754_zero false)
               (Float (float_of_Z 100)) ∈ t_lines.
Proof.
  destruct (motion_speed Libm.atan2 Libm.pow two_points [] (0, 0) (100, 0) no_files)
    as (c_lines & t_lines & Hrun & Hseg & Hc & _).
  - apply exportableb_sound. vm_compute. reflexivity.
  - reflexivity.
  - exists c_lines, t_lines. split; [exact Hrun|]. split.
    + rewrite Hc. vm_compute. reflexivity.
    + destruct (Hseg 0%nat (0, 0) (100, 0) eq_refl eq_refl) as (pts & Hpts & _ & Hall).
      assert (Hlast : last pts = Some (Float (float_of_Z 100), Float (S754_zero false))).
      { vm_compute in Hpts. injection Hpts as <-. vm_compute. reflexivity. }
      destruct (Hall _ (last_Some_elem_of _ _ Hlast)) as (_ & _ & Ht).
      refine (eq_ind _ (fun ln => ln ∈ t_lines) Ht _ _). vm_compute. reflexivity.
Defined.

(** * Commands are stored by coordinates *)

Lemma assign_command_done fc cmd fc' wp :
  index (path_points fc) (selected_waypoint_index fc) = Ok wp ->
  assign_command fc cmd = (Done, fc') ->
  path_points fc' = path_points fc /\
  waypoint_commands fc' = <[wp := cmd]> (waypoint_commands fc).
Proof.
  intros Hwp. unfold assign_command.
  destruct (selected_waypoint_index fc =? -1); [discriminate|].
  rewrite Hwp.
  destruct cmd; simpl;
    try (intros [= <-]; split; reflexivity).
  - destruct (pending_clasp fc); simpl; [|discriminate].
    intros [= <-]. split; reflexivity.
  - destruct (scoops_to_release fc =? 0); [discriminate|].
    intros [= <-]. split; reflexivity.
Qed.

Section Sharing.

Variable atan2 : float -> float -> float.
Variable pow : float -> float -> float.

Lemma emits_stored fc wp :
  exportable fc -> emits_command_at atan2 pow fc wp (stored_command fc wp).
Proof.
  intros Hx. split.
  - intros k next h0 out Hk Hn h.
    now rewrite (segment_run atan2 pow fc k wp next h0 out Hx Hk Hn).
  - intros l p fs Hp h.
    now rewrite (export_run atan2 pow fc l p wp fs Hx Hp).
Qed.

(** C10. The command dictionary has one entry per coordinate pair.  When
    two positions [i] and [j] of the path hold the same coordinates and the
    waypoint at [i] is selected, assigning a command, or removing it, sets
    that one entry; the export looks the entry up for every position, so it
    writes the command assigned last for each position that holds these
    coordinates. *)
Theorem command_shared_by_coordinates fc i j wp :
  selected_waypoint_index fc = i -> i <> -1 ->
  index (path_points fc) i = Ok wp -> index (path_points fc) j = Ok wp ->
  (forall cmd fc',
      assign_command fc cmd = (Done, fc') ->
      index (path_points fc') i = Ok wp /\ index (path_points fc') j = Ok wp /\
      command_at fc' wp = Ok cmd /\
      (forall p, p <> wp -> waypoint_commands fc' !! p = waypoint_commands fc !! p) /\
      (exportable fc' -> emits_command_at atan2 pow fc' wp cmd)) /\
  (exists fc',
      remove_command fc = (Done, fc') /\
      index (path_points fc') i = Ok wp /\ index (path_points fc') j = Ok wp /\
      command_at fc' wp = Ok NoCommand /\
      (exportable fc' -> emits_command_at atan2 pow fc' wp NoCommand)).
Proof.
  intros Hsel Hi Hwi Hwj. split.
  - intros cmd fc' Ha.
    destruct (assign_command_done fc cmd fc' wp) as [Hp Hc]; [now rewrite Hsel|exact Ha|].
    assert (Hs : stored_command fc' wp = cmd)
      by (unfold stored_command; now rewrite Hc, lookup_insert_eq).
    rewrite Hp. split; [assumption|]. split; [assumption|].
    split; [|split].
    + unfold command_at. now rewrite Hc, lookup_insert_eq.
    + intros p Hne. rewrite Hc. now apply lookup_insert_ne.
    + intros Hx. pose proof (emits_stored _ wp Hx) as He. now rewrite Hs in He.
  - unfold remove_command. rewrite Hsel.
    destruct (i =? -1) eqn:E; [lia|]. rewrite Hwi.
    eexists. split; [reflexivity|]. cbn [path_points set_command].
    assert (Hs : stored_command (set_command fc wp NoCommand) wp = NoCommand)
      by (unfold stored_command; cbn [waypoint_commands set_command];
          now rewrite lookup_insert_eq).
    split; [assumption|]. split; [assumption|]. split.
    + unfold command_at. cbn [waypoint_commands set_command]. now rewrite lookup_insert_eq.
    + intros Hx. pose proof (emits_stored _ wp Hx) as He. now rewrite Hs in He.
Qed.

End Sharing.

Lemma command_shared_by_coordinates_witness :
  path_points round_trip = [(0, 0); (100, 0); (0, 0)] /\
  command_at (snd (assign_command round_trip PickUp)) (0, 0) = Ok PickUp.
Proof.
  split; [reflexivity|].
  assert (Hne : 0 <> -1) by discriminate.
  destruct (command_shared_by_coordinates Libm.atan2 Libm.pow round_trip 0 2 (0, 0)
              eq_refl Hne eq_refl eq_refl) as [H _].
  exact (proj1 (proj2 (proj2 (H PickUp (snd (assign_command round_trip PickUp)) eq_refl)))).
Defined.

(** * Reachable states *)

Lemma index_in_range {A} (l : list A) (i : Z) :
  0 <= i < Z.of_nat (length l) -> exists a, index l i = Ok a /\ a ∈ l.
Proof.
  intros Hi. destruct (lookup_lt_is_Some_2 l (Z.to_nat i) ltac:(lia)) as [a Ha].
  exists a. split; [|eapply list_elem_of_lookup_2; eassumption].
  rewrite <- (Z2Nat.id i) by lia. now apply index_lookup.
Qed.

Lemma index_last_two {A} (l : list A) :
  (2 <= length l)%nat ->
  exists a b, index l (-2) = Ok a /\ index l (-1) = Ok b /\ removelast l ++ [b] = l.
Proof.
  intros Hl. destruct (exists_last (l := l)) as (l' & b & ->); [now destruct l|].
  rewrite length_app in Hl. cbn [length] in Hl.
  destruct (exists_last (l := l')) as (l'' & a & ->); [destruct l'; cbn in *; [lia|discriminate]|].
  exists a, b. split; [|split].
  - unfold index. rewrite !length_app. cbn [length].
    set (n := Z.of_nat (length l'' + 1 + 1)).
    assert (Hn : n = Z.of_nat (length l'') + 2) by lia.
    change (-2 <? 0) with true. cbv iota.
    destruct ((0 <=? -2 + n) && (-2 + n <? n)) eqn:E; [|lia].
    replace (Z.to_nat (-2 + n)) with (length l'' + 0)%nat by lia.
    rewrite <- app_assoc, lookup_app_r by lia.
    replace (length l'' + 0 - length l'')%nat with 0%nat by lia. reflexivity.
  - apply index_last.
  - now rewrite removelast_last.
Qed.

Lemma consistent_init side : consistent (init side).
Proof.
  split; [|split; [|split]].
  - intros p Hp. cbn in Hp. inversion Hp.
  - cbn. lia.
  - left. reflexivity.
  - cbn. discriminate.
Qed.

Lemma consistent_append fc x y drag :
  consistent fc -> c_int x -> c_int y ->
  (drag = true -> path_points fc <> []) ->
  (dragging_curve fc = true \/ drag = dragging_curve fc \/ drag = true) ->
  consistent
    (set_dragging (set_command (set_path fc (path_points fc ++ [(x, y)])) (x, y) NoCommand)
                  drag).
Proof.
  intros (Hk & Hs & Hsel & Hd) Hx Hy Hne Hdrag.
  unfold consistent. cbn [path_points waypoint_commands scoops_to_release
                          selected_waypoint_index dragging_curve
                          set_dragging set_command set_path].
  split; [|split; [assumption|split]].
  - intros p Hp. apply elem_of_app in Hp as [Hp|Hp].
    + destruct (Hk p Hp) as [Hc Hr]. split; [|assumption].
      destruct (decide ((x, y) = p)) as [->|Hn].
      * rewrite lookup_insert_eq. eauto.
      * now rewrite lookup_insert_ne.
    + apply list_elem_of_singleton in Hp as ->.
      rewrite lookup_insert_eq. split; [eauto|split; assumption].
  - rewrite length_app. cbn [length]. lia.
  - intros Hdr. rewrite length_app. cbn [length].
    destruct (path_points fc) eqn:Ep; [|cbn; lia].
    exfalso. apply (Hne Hdr). reflexivity.
Qed.

Lemma set_dragging_same fc b : dragging_curve fc = b -> set_dragging fc b = fc.
Proof. intros <-. now destruct fc. Qed.

Lemma consistent_store fc wp cmd b n :
  consistent fc -> wp ∈ path_points fc -> 0 <= n ->
  consistent (set_command (set_pending_clasp (set_scoops fc n) b) wp cmd).
Proof.
  intros (Hk & Hs & Hsel & Hd) Hwp Hn.
  unfold consistent. cbn [path_points waypoint_commands scoops_to_release
                          selected_waypoint_index dragging_curve
                          set_command set_pending_clasp set_scoops].
  split; [|split; [assumption|split; assumption]].
  intros p Hp. destruct (Hk p Hp) as [Hc Hr]. split; [|assumption].
  destruct (decide (wp = p)) as [->|Hne].
  - rewrite lookup_insert_eq. eauto.
  - now rewrite lookup_insert_ne.
Qed.

Lemma add_straight_line_valid fc x y :
  is_valid_point fc x = true ->
  add_straight_line fc x y
  = (Done, set_command (set_path fc (path_points fc ++ [(x, y)])) (x, y) NoCommand).
Proof.
  intros Hv. unfold add_straight_line, add_starting_point. rewrite Hv. cbn [negb].
  destruct (path_points fc); reflexivity.
Qed.

Lemma start_curve_point_valid fc x y :
  is_valid_point fc x = true ->
  start_curve_point fc x y
  = (Done,
     set_dragging
       (set_command (set_path fc (path_points fc ++ [(x, y)])) (x, y) NoCommand)
       (match path_points fc with [] => dragging_curve fc | _ :: _ => true end)).
Proof.
  intros Hv. unfold start_curve_point, add_starting_point. rewrite Hv. cbn [negb].
  destruct (path_points fc); [|reflexivity].
  now rewrite set_dragging_same.
Qed.

Lemma handle_consistent fc ev :
  consistent fc -> event_in_range ev ->
  consistent (snd (handle fc ev)) /\ forall e, fst (handle fc ev) <> Raised e.
Proof.
  intros Hc Hev. pose proof Hc as (Hk & Hs & Hsel & Hd).
  destruct ev as [x y|x y|x y|x y|direction|cmd| |side]; cbn [handle event_in_range] in *.
  - (* right click *)
    destruct (is_valid_point fc x) eqn:Ev.
    2:{ unfold add_straight_line. rewrite Ev. split; [exact Hc|discriminate]. }
    rewrite (add_straight_line_valid fc x y Ev). cbn [fst snd]. split; [|discriminate].
    destruct Hev as [Hx Hy].
    pose proof (consistent_append fc x y (dragging_curve fc) Hc Hx Hy) as H.
    rewrite set_dragging_same in H by reflexivity. apply H; auto.
    intros Hdr Hnil. specialize (Hd Hdr). rewrite Hnil in Hd. cbn in Hd. lia.
  - (* left press *)
    destruct (is_valid_point fc x) eqn:Ev.
    2:{ unfold start_curve_point. rewrite Ev. split; [exact Hc|discriminate]. }
    rewrite (start_curve_point_valid fc x y Ev). cbn [fst snd]. split; [|discriminate].
    destruct Hev as [Hx Hy].
    apply consistent_append; auto.
    + intros Hdr Hnil. rewrite Hnil in Hdr. specialize (Hd Hdr).
      rewrite Hnil in Hd. cbn in Hd. lia.
    + destruct (path_points fc); auto.
  - (* motion *)
    unfold adjust_curve_point.
    destruct (dragging_curve fc) eqn:Edr; cbn [negb]; [|split; [exact Hc|discriminate]].
    destruct (index_last_two (path_points fc) (Hd eq_refl)) as (a & b & -> & -> & _).
    split; [exact Hc|discriminate].
  - (* release *)
    unfold finalize_curve_point.
    destruct (dragging_curve fc) eqn:Edr; cbn [negb]; [|split; [exact Hc|discriminate]].
    cbn [path_points set_dragging].
    destruct (index_last_two (path_points fc) (Hd eq_refl)) as (a & b & -> & -> & Hl).
    unfold calculate_bezier_end. cbn [fst snd].
    replace (b.1, b.2) with b by now destruct b.
    rewrite Hl. split; [|discriminate].
    unfold consistent. cbn. repeat split; try assumption; try apply Hk; try assumption.
    discriminate.
  - (* arrow key *)
    unfold cycle_waypoint. cbv zeta.
    assert (Hde : (if selected_waypoint_index fc =? -1 then Ok tt
                   else rbind (index (path_points fc) (selected_waypoint_index fc))
                          (fun current_wp =>
                             match waypoint_commands fc !! current_wp with
                             | Some _ => Ok tt
                             | None => Raise KeyError
                             end)) = Ok tt).
    { destruct (selected_waypoint_index fc =? -1) eqn:E; [reflexivity|].
      destruct Hsel as [Hsel|Hsel]; [lia|].
      destruct (index_in_range _ _ Hsel) as (a & -> & Ha). cbn [rbind].
      destruct (Hk a Ha) as [[c ->] _]. reflexivity. }
    rewrite Hde.
    assert (Hlen : path_points fc <> [] -> 0 < Z.of_nat (length (path_points fc))).
    { destruct (path_points fc); [congruence|cbn [length]; lia]. }
    destruct (path_points fc) as [|p0 l0] eqn:Ep; [split; [exact Hc|discriminate]|].
    cbn [fst snd]. split; [|discriminate].
    unfold consistent. cbn [path_points waypoint_commands scoops_to_release
                            selected_waypoint_index dragging_curve set_selected].
    rewrite Ep.
    split; [assumption|split; [assumption|split; [|assumption]]].
    right. apply Z.mod_pos_bound. apply Hlen. discriminate.
  - (* command button *)
    unfold assign_command.
    destruct (selected_waypoint_index fc =? -1) eqn:E; [split; [exact Hc|discriminate]|].
    destruct Hsel as [Hsel|Hsel]; [lia|].
    destruct (index_in_range _ _ Hsel) as (wp & -> & Hwp).
    destruct cmd; cbn [command_eqb andb negb].
    + split; [|discriminate]. cbn [snd].
      pose proof (consistent_store fc wp PickUp (pending_clasp fc) (scoops_to_release fc) Hc Hwp Hs) as H.
      now destruct fc.
    + split; [|discriminate]. cbn [snd].
      pose proof (consistent_store fc wp Place (pending_clasp fc) (scoops_to_release fc) Hc Hwp Hs) as H.
      now destruct fc.
    + destruct (pending_clasp fc) eqn:Ep; cbn [negb]; [|split; [exact Hc|discriminate]].
      cbn [scoops_to_release set_scoops].
      destruct (scoops_to_release fc + 1 =? 0) eqn:E1; [lia|].
      split; [|discriminate]. cbn [snd andb].
      pose proof (consistent_store fc wp Scoop (pending_clasp fc) (scoops_to_release fc + 1) Hc Hwp ltac:(lia)) as H.
      now destruct fc.
    + destruct (scoops_to_release fc =? 0) eqn:E0; [split; [exact Hc|discriminate]|].
      split; [|discriminate]. cbn [snd].
      pose proof (consistent_store fc wp Release false 0 Hc Hwp ltac:(lia)) as H.
      now destruct fc.
    + cbn [scoops_to_release set_pending_clasp]. split; [|discriminate]. cbn [snd].
      pose proof (consistent_store fc wp Clasp true (scoops_to_release fc) Hc Hwp Hs) as H.
      now destruct fc.
    + split; [|discriminate]. cbn [snd].
      pose proof (consistent_store fc wp NoCommand (pending_clasp fc) (scoops_to_release fc) Hc Hwp Hs) as H.
      now destruct fc.
  - (* remove button *)
    unfold remove_command.
    destruct (selected_waypoint_index fc =? -1) eqn:E; [split; [exact Hc|discriminate]|].
    destruct Hsel as [Hsel|Hsel]; [lia|].
    destruct (index_in_range _ _ Hsel) as (wp & -> & Hwp).
    split; [|discriminate]. cbn [snd].
    pose proof (consistent_store fc wp NoCommand (pending_clasp fc) (scoops_to_release fc) Hc Hwp Hs) as H.
    now destruct fc.
  - (* side button *)
    split; [|discriminate]. exact Hc.
Qed.

(** Every reachable state is consistent, and no handler raises in it. *)
Lemma reachable_consistent fc : reachable fc -> consistent fc.
Proof.
  induction 1 as [side|fc ev _ IH Hev]; [apply consistent_init|].
  now apply handle_consistent.
Qed.

Lemma reachable_no_exception fc ev e :
  reachable fc -> event_in_range ev -> fst (handle fc ev) <> Raised e.
Proof.
  intros Hr Hev. now apply handle_consistent; [apply reachable_consistent|].
Qed.

(** With no drag in progress, a reachable state can be exported. *)
Lemma reachable_exportable fc :
  reachable fc -> dragging_curve fc = false -> exportable fc.
Proof.
  intros Hr Hd. split; [exact Hd|]. now apply reachable_consistent.
Qed.

(** A finished curve gesture stores nothing of its control point: press and
    release leave the canvas as a right click at the pressed point does. *)
Lemma curve_gesture_as_straight fc x y cx cy :
  dragging_curve fc = false -> path_points fc <> [] ->
  snd (finalize_curve_point (snd (start_curve_point fc x y)) cx cy)
  = snd (add_straight_line fc x y).
Proof.
  intros Hd Hne. destruct (is_valid_point fc x) eqn:Ev.
  - rewrite (start_curve_point_valid fc x y Ev), (add_straight_line_valid fc x y Ev).
    destruct (path_points fc) as [|p0 l0] eqn:Ep; [congruence|]. rewrite <- Ep.
    cbn [snd]. unfold finalize_curve_point.
    cbn [dragging_curve set_dragging negb path_points set_command set_path].
    destruct (index_last_two (path_points fc ++ [(x, y)])) as (a & b & -> & -> & Hl).
    { rewrite length_app, Ep. cbn [length]. lia. }
    unfold calculate_bezier_end. cbn [fst snd].
    replace (b.1, b.2) with b by now destruct b.
    rewrite Hl. destruct fc. cbn in *. now subst.
  - unfold start_curve_point, add_straight_line. rewrite Ev. cbn [negb snd].
    unfold finalize_curve_point. now rewrite Hd.
Qed.

(** * What an event does to the path and the dictionary *)

Lemma index_elem {A} (l : list A) (i : Z) (a : A) : index l i = Ok a -> a ∈ l.
Proof.
  unfold index. destruct (_ && _); [|discriminate].
  destruct (l !! _) as [b|] eqn:E; [|discriminate].
  intros [= <-]. eapply list_elem_of_lookup_2. exact E.
Qed.

Lemma index_last_inv {A} (l : list A) (b : A) :
  index l (-1) = Ok b -> removelast l ++ [b] = l.
Proof.
  induction l as [|c l _] using rev_ind.
  - rewrite index_empty. discriminate.
  - rewrite index_last. intros [= <-]. now rewrite removelast_last.
Qed.

Lemma finalize_curve_point_path fc cx cy :
  path_points (snd (finalize_curve_point fc cx cy)) = path_points fc /\
  waypoint_commands (snd (finalize_curve_point fc cx cy)) = waypoint_commands fc /\
  selected_side (snd (finalize_curve_point fc cx cy)) = selected_side fc /\
  central_line_x (snd (finalize_curve_point fc cx cy)) = central_line_x fc /\
  selected_waypoint_index (snd (finalize_curve_point fc cx cy)) = selected_waypoint_index fc /\
  command_state (snd (finalize_curve_point fc cx cy)) = command_state fc.
Proof.
  unfold finalize_curve_point.
  destruct (dragging_curve fc); cbn [negb]; [|repeat split].
  cbn [path_points set_dragging].
  destruct (index (path_points fc) (-2)) as [a|e]; [|repeat split].
  destruct (index (path_points fc) (-1)) as [b|e] eqn:Eb; [|repeat split].
  unfold calculate_bezier_end. cbn [fst snd path_points set_path set_dragging].
  replace (b.1, b.2) with b by now destruct b.
  rewrite (index_last_inv _ _ Eb). repeat split.
Qed.

Lemma adjust_curve_point_state fc cx cy : snd (adjust_curve_point fc cx cy) = fc.
Proof.
  unfold adjust_curve_point. destruct (dragging_curve fc); cbn [negb]; [|reflexivity].
  destruct (index (path_points fc) (-2)); destruct (index (path_points fc) (-1)); reflexivity.
Qed.

Lemma cycle_waypoint_state fc d :
  snd (cycle_waypoint fc d) = fc \/
  path_points fc <> [] /\
  snd (cycle_waypoint fc d)
  = set_selected fc ((selected_waypoint_index fc + d) `mod` Z.of_nat (length (path_points fc))).
Proof.
  unfold cycle_waypoint. destruct (path_points fc) eqn:Ep; [now left|].
  cbv zeta. destruct (if selected_waypoint_index fc =? -1 then _ else _); [|now left].
  right. split; [discriminate|]. reflexivity.
Qed.

(** A command button or the remove button leaves the canvas as it is, or
    stores a command for the selected waypoint. *)
Lemma assign_command_state fc cmd :
  snd (assign_command fc cmd) = fc \/
  exists wp b n,
    index (path_points fc) (selected_waypoint_index fc) = Ok wp /\
    selected_waypoint_index fc <> -1 /\
    fst (assign_command fc cmd) = Done /\
    snd (assign_command fc cmd)
    = set_command (set_pending_clasp (set_scoops fc n) b) wp cmd.
Proof.
  unfold assign_command.
  destruct (selected_waypoint_index fc =? -1) eqn:E; [now left|].
  destruct (index (path_points fc) (selected_waypoint_index fc)) as [wp|e]; [|now left].
  assert (Hsel : selected_waypoint_index fc <> -1) by lia.
  destruct cmd; cbn [command_eqb andb negb].
  - right. exists wp, (pending_clasp fc), (scoops_to_release fc).
    repeat split; assumption.
  - right. exists wp, (pending_clasp fc), (scoops_to_release fc).
    repeat split; assumption.
  - destruct (pending_clasp fc) eqn:Ep; cbn [negb]; [|now left].
    cbn [andb]. right. exists wp, true, (scoops_to_release fc + 1).
    repeat split; try assumption. destruct fc; cbn in *; now subst.
  - destruct (scoops_to_release fc =? 0); [now left|].
    right. exists wp, false, 0. repeat split; assumption.
  - cbn [andb]. right. exists wp, true, (scoops_to_release fc).
    repeat split; assumption.
  - right. exists wp, (pending_clasp fc), (scoops_to_release fc).
    repeat split; assumption.
Qed.

Lemma remove_command_state fc :
  snd (remove_command fc) = fc \/
  exists wp,
    index (path_points fc) (selected_waypoint_index fc) = Ok wp /\
    selected_waypoint_index fc <> -1 /\
    remove_command fc = (Done, set_command fc wp NoCommand).
Proof.
  unfold remove_command.
  destruct (selected_waypoint_index fc =? -1) eqn:E; [now left|].
  destruct (index (path_points fc) (selected_waypoint_index fc)) as [wp|e]; [|now left].
  right. exists wp. repeat split. lia.
Qed.

Lemma place_point_state fc x y (handler : FieldCanvas -> Z -> Z -> outcome * FieldCanvas) :
  handler = add_straight_line \/ handler = start_curve_point ->
  is_valid_point fc x = false /\ handler fc x y = (ShowError "Invalid Point", fc) \/
  is_valid_point fc x = true /\
  exists drag,
    handler fc x y
    = (Done,
       set_dragging
         (set_command (set_path fc (path_points fc ++ [(x, y)])) (x, y) NoCommand) drag).
Proof.
  intros Hh. destruct (is_valid_point fc x) eqn:Ev.
  - right. split; [reflexivity|]. destruct Hh as [-> | ->].
    + exists (dragging_curve fc). rewrite add_straight_line_valid by assumption.
      now rewrite set_dragging_same.
    + eexists. now rewrite start_curve_point_valid by assumption.
  - left. split; [reflexivity|].
    destruct Hh as [-> | ->]; unfold add_straight_line, start_curve_point; now rewrite Ev.
Qed.

(** Every event leaves the path and the dictionary as they are, stores a
    command for a waypoint of the path, or appends one point that passes the
    side check, with the command None. *)
Lemma handle_effect fc ev :
  central_line_x (snd (handle fc ev)) = central_line_x fc /\
  (is_side_button ev = false -> selected_side (snd (handle fc ev)) = selected_side fc) /\
  (path_points (snd (handle fc ev)) = path_points fc /\
   (waypoint_commands (snd (handle fc ev)) = waypoint_commands fc \/
    exists wp c, wp ∈ path_points fc /\
                 waypoint_commands (snd (handle fc ev)) = <[wp := c]> (waypoint_commands fc)) \/
   exists x y, is_valid_point fc x = true /\
               path_points (snd (handle fc ev)) = path_points fc ++ [(x, y)] /\
               waypoint_commands (snd (handle fc ev))
               = <[(x, y) := NoCommand]> (waypoint_commands fc)).
Proof.
  destruct ev as [x y|x y|x y|x y|direction|cmd| |side]; cbn [handle is_side_button].
  - destruct (place_point_state fc x y add_straight_line ltac:(now left))
      as [[_ ->]|[Hv [drag ->]]]; cbn [snd].
    + repeat split. left. split; [reflexivity|now left].
    + repeat split. right. exists x, y. repeat split. exact Hv.
  - destruct (place_point_state fc x y start_curve_point ltac:(now right))
      as [[_ ->]|[Hv [drag ->]]]; cbn [snd].
    + repeat split. left. split; [reflexivity|now left].
    + repeat split. right. exists x, y. repeat split. exact Hv.
  - rewrite adjust_curve_point_state. repeat split. left. split; [reflexivity|now left].
  - destruct (finalize_curve_point_path fc x y) as (Hp & Hc & Hs & Hx & _).
    split; [exact Hx|]. split; [intros _; exact Hs|].
    left. split; [exact Hp|now left].
  - destruct (cycle_waypoint_state fc direction) as [-> | [_ ->]];
      repeat split; left; (split; [reflexivity|now left]).
  - destruct (assign_command_state fc cmd) as [-> | (wp & b & n & Hwp & _ & _ & ->)].
    + repeat split. left. split; [reflexivity|now left].
    + repeat split. left. split; [reflexivity|]. right. exists wp, cmd.
      split; [now apply index_elem in Hwp|reflexivity].
  - destruct (remove_command_state fc) as [-> | (wp & Hwp & _ & ->)].
    + repeat split. left. split; [reflexivity|now left].
    + repeat split. left. split; [reflexivity|]. right. exists wp, NoCommand.
      split; [now apply index_elem in Hwp|reflexivity].
  - split; [reflexivity|]. split; [discriminate|].
    left. split; [reflexivity|now left].
Qed.

(** * What holds after any events *)

Lemma run_app fc evs evs' : run fc (evs ++ evs') = run (run fc evs) evs'.
Proof. revert fc. induction evs as [|ev evs IH]; intros fc; [reflexivity|apply IH]. Qed.

Lemma run_invariant (P : FieldCanvas -> Prop) :
  (forall fc ev, P fc -> P (snd (handle fc ev))) ->
  forall evs fc, P fc -> P (run fc evs).
Proof.
  intros Hstep evs. induction evs as [|ev evs IH]; intros fc Hfc; [exact Hfc|].
  cbn [run]. apply IH, Hstep, Hfc.
Qed.

Lemma reachable_run side evs :
  Forall event_in_range evs -> reachable (run (init side) evs).
Proof.
  intros Hevs.
  assert (H : forall fc, reachable fc -> reachable (run fc evs)).
  { induction Hevs as [|ev evs Hev _ IH]; intros fc Hfc; [exact Hfc|].
    cbn [run]. apply IH. now apply reachable_step. }
  apply H. constructor.
Qed.

(** X1. No event takes a waypoint off the path, moves it or changes the
    order, and no entry of the command dictionary is ever deleted: after any
    events the path is the path before, followed by at most one new waypoint
    for each event. *)
Theorem path_only_grows fc evs :
  exists added,
    path_points (run fc evs) = path_points fc ++ added /\
    (length added <= length evs)%nat /\
    forall p, is_Some (waypoint_commands fc !! p) ->
              is_Some (waypoint_commands (run fc evs) !! p).
Proof.
  revert fc. induction evs as [|ev evs IH]; intros fc.
  - exists []. cbn [run]. rewrite app_nil_r. split; [reflexivity|]. split; [cbn [length]; lia|auto].
  - cbn [run]. destruct (IH (snd (handle fc ev))) as (added & Hp & Hl & Hk).
    destruct (handle_effect fc ev) as (_ & _ & [[Hp' Hc]|(x & y & _ & Hp' & Hc)]).
    + exists added. rewrite Hp, Hp'. split; [reflexivity|]. split; [cbn [length]; lia|].
      intros p Hs. apply Hk.
      destruct Hc as [-> | (wp & c & _ & ->)]; [exact Hs|].
      apply lookup_insert_is_Some. destruct (decide (wp = p)); auto.
    + exists ((x, y) :: added). rewrite Hp, Hp', <- app_assoc.
      split; [reflexivity|]. split; [cbn [length]; lia|].
      intros p Hs. apply Hk. rewrite Hc.
      apply lookup_insert_is_Some. destruct (decide ((x, y) = p)); auto.
Qed.

(** X2. At any time the command dictionary has an entry for a pair of
    coordinates exactly when a waypoint of the path has these coordinates. *)
Theorem dictionary_keys_are_waypoints side evs p :
  is_Some (waypoint_commands (run (init side) evs) !! p)
  <-> p ∈ path_points (run (init side) evs).
Proof.
  revert p.
  apply (run_invariant
           (fun fc => forall p, is_Some (waypoint_commands fc !! p) <-> p ∈ path_points fc)).
  - intros fc ev IH p.
    destruct (handle_effect fc ev) as (_ & _ & [[Hp Hc]|(x & y & _ & Hp & Hc)]).
    + rewrite Hp. destruct Hc as [-> | (wp & c & Hwp & ->)]; [apply IH|].
      rewrite lookup_insert_is_Some, <- IH. split.
      * intros [<- | [_ H]]; [now apply IH|exact H].
      * intros H. destruct (decide (wp = p)); auto.
    + rewrite Hp, Hc, lookup_insert_is_Some, elem_of_app, list_elem_of_singleton, IH.
      split.
      * intros [<- | [_ H]]; auto.
      * intros [H | ->]; [|now left]. destruct (decide ((x, y) = p)); auto.
  - intros p. cbn. rewrite lookup_empty. split; [intros [? ?]; discriminate|].
    intros H. inversion H.
Qed.

Lemma assign_command_bookkeeping fc cmd :
  (0 <= scoops_to_release fc /\
   (0 < scoops_to_release fc -> pending_clasp fc = true)) ->
  0 <= scoops_to_release (snd (assign_command fc cmd)) /\
  (0 < scoops_to_release (snd (assign_command fc cmd)) ->
   pending_clasp (snd (assign_command fc cmd)) = true).
Proof.
  intros [H0 H1]. unfold assign_command.
  destruct (selected_waypoint_index fc =? -1); [now split|].
  destruct (index (path_points fc) (selected_waypoint_index fc)); [|now split].
  destruct cmd; cbn [command_eqb andb negb]; try (now split).
  - destruct (pending_clasp fc) eqn:Ep; cbn [negb].
    2:{ cbn [snd]. rewrite Ep. now split. }
    cbn. split; [lia|]. intros _. exact Ep.
  - destruct (scoops_to_release fc =? 0); [now split|]. cbn. split; lia.
Qed.

Lemma handle_command_state fc ev :
  (forall cmd, ev <> CommandButton cmd) ->
  command_state (snd (handle fc ev)) = command_state fc.
Proof.
  intros Hne.
  destruct ev as [x y|x y|x y|x y|direction|cmd| |side]; cbn [handle].
  - destruct (place_point_state fc x y add_straight_line ltac:(now left))
      as [[_ ->]|[_ [drag ->]]]; reflexivity.
  - destruct (place_point_state fc x y start_curve_point ltac:(now right))
      as [[_ ->]|[_ [drag ->]]]; reflexivity.
  - now rewrite adjust_curve_point_state.
  - apply finalize_curve_point_path.
  - destruct (cycle_waypoint_state fc direction) as [-> | [_ ->]]; reflexivity.
  - now specialize (Hne cmd).
  - destruct (remove_command_state fc) as [-> | (wp & _ & _ & ->)]; reflexivity.
  - reflexivity.
Qed.

(** X3. At any time the scoop counter is zero or more, and it is positive
    only while a clasp is pending; so whenever a Release is accepted, the
    counter is positive and the clasp flag is set. *)
Theorem scoops_need_clasp side evs :
  let fc := run (init side) evs in
  0 <= scoops_to_release fc /\
  (0 < scoops_to_release fc -> pending_clasp fc = true) /\
  (fst (assign_command fc Release) = Done ->
   0 < scoops_to_release fc /\ pending_clasp fc = true).
Proof.
  cbv zeta.
  assert (H : 0 <= scoops_to_release (run (init side) evs) /\
              (0 < scoops_to_release (run (init side) evs) ->
               pending_clasp (run (init side) evs) = true)).
  { apply (run_invariant
             (fun fc => 0 <= scoops_to_release fc /\
                        (0 < scoops_to_release fc -> pending_clasp fc = true))).
    - intros fc ev IH.
      assert (Hev : (exists cmd, ev = CommandButton cmd) \/ forall cmd, ev <> CommandButton cmd)
        by (destruct ev; eauto; right; discriminate).
      destruct Hev as [[cmd ->]|Hne].
      + cbn [handle]. now apply assign_command_bookkeeping.
      + pose proof (handle_command_state fc ev Hne) as Hs.
        unfold command_state in Hs. injection Hs as -> ->. exact IH.
    - cbn. split; lia. }
  destruct H as [H0 H1]. split; [exact H0|]. split; [exact H1|].
  unfold assign_command.
  destruct (selected_waypoint_index _ =? -1); [discriminate|].
  destruct (index _ _); [|discriminate].
  cbn [command_eqb andb negb].
  destruct (scoops_to_release _ =? 0) eqn:E; [discriminate|].
  intros _. assert (Hp : 0 < scoops_to_release (run (init side) evs)) by lia.
  split; [exact Hp|exact (H1 Hp)].
Qed.

(** * Selecting a waypoint *)

Lemma cycle_waypoint_run fc d :
  consistent fc -> path_points fc <> [] ->
  cycle_waypoint fc d
  = (Done, set_selected fc ((selected_waypoint_index fc + d)
                            `mod` Z.of_nat (length (path_points fc)))).
Proof.
  intros (Hk & _ & Hsel & _) Hne. unfold cycle_waypoint. cbv zeta.
  assert (Hde : (if selected_waypoint_index fc =? -1 then Ok tt
                 else rbind (index (path_points fc) (selected_waypoint_index fc))
                        (fun current_wp =>
                           match waypoint_commands fc !! current_wp with
                           | Some _ => Ok tt
                           | None => Raise KeyError
                           end)) = Ok tt).
  { destruct (selected_waypoint_index fc =? -1) eqn:E; [reflexivity|].
    destruct Hsel as [Hsel|Hsel]; [lia|].
    destruct (index_in_range _ _ Hsel) as (a & -> & Ha). cbn [rbind].
    destruct (Hk a Ha) as [[c ->] _]. reflexivity. }
  rewrite Hde. destruct (path_points fc); [congruence|reflexivity].
Qed.

Lemma consistent_selected fc i :
  consistent fc -> 0 <= i < Z.of_nat (length (path_points fc)) ->
  consistent (set_selected fc i).
Proof.
  intros (Hk & Hs & _ & Hd) Hi. unfold consistent.
  cbn [path_points waypoint_commands scoops_to_release selected_waypoint_index
       dragging_curve set_selected].
  repeat split; try assumption; try apply Hk; try assumption.
  right. exact Hi.
Qed.

(** X4. With a waypoint selected, an arrow key selects the waypoint
    [direction] places on, counted round the path: the new index lies in the
    path, a key press followed by the opposite one selects the waypoint
    selected before, Up on the last waypoint selects the first and Down on the
    first selects the last. *)
Theorem cycle_waypoint_round_trip fc d :
  consistent fc -> selected_waypoint_index fc <> -1 ->
  let n := Z.of_nat (length (path_points fc)) in
  let fc' := snd (cycle_waypoint fc d) in
  fst (cycle_waypoint fc d) = Done /\
  selected_waypoint_index fc' = (selected_waypoint_index fc + d) `mod` n /\
  0 <= selected_waypoint_index fc' < n /\
  cycle_waypoint fc' (- d) = (Done, fc) /\
  (selected_waypoint_index fc = n - 1 -> d = 1 -> selected_waypoint_index fc' = 0) /\
  (selected_waypoint_index fc = 0 -> d = -1 -> selected_waypoint_index fc' = n - 1).
Proof.
  intros Hc Hsel. cbv zeta. pose proof Hc as (_ & _ & Hr & _).
  destruct Hr as [Hr|Hr]; [contradiction|].
  assert (Hne : path_points fc <> []).
  { intros E. rewrite E in Hr. cbn in Hr. lia. }
  assert (Hrun := cycle_waypoint_run fc d Hc Hne).
  set (n := Z.of_nat (length (path_points fc))) in *.
  assert (Hm : 0 <= (selected_waypoint_index fc + d) `mod` n < n)
    by (apply Z.mod_pos_bound; lia).
  rewrite Hrun. cbn [fst snd selected_waypoint_index set_selected].
  split; [reflexivity|]. split; [reflexivity|]. split; [exact Hm|].
  split; [|split].
  - rewrite cycle_waypoint_run.
    + cbn [selected_waypoint_index path_points set_selected]. fold n. f_equal.
      unfold set_selected. cbn [selected_waypoint_index path_points dragging_curve
                               selected_side waypoint_commands pending_clasp
                               scoops_to_release central_line_x].
      rewrite Zplus_mod_idemp_l.
      replace (selected_waypoint_index fc + d + - d) with (selected_waypoint_index fc) by lia.
      rewrite Z.mod_small by lia. now destruct fc.
    + now apply consistent_selected.
    + exact Hne.
  - intros -> ->. replace (n - 1 + 1) with n by lia. apply Z_mod_same_full.
  - intros -> ->. change (0 + -1) with (-1).
    replace (-1) with (n - 1 + -1 * n) by lia.
    rewrite Z_mod_plus_full. apply Z.mod_small. lia.
Qed.

(** X5. With no waypoint selected yet and a path that is not empty, Up
    selects the first waypoint, and Down the last but one (index
    [(-2) mod n]), not the last; on an empty path an arrow key does
    nothing. *)
Theorem cycle_waypoint_first_press fc :
  consistent fc -> selected_waypoint_index fc = -1 ->
  (path_points fc = [] -> forall d, cycle_waypoint fc d = (Done, fc)) /\
  (path_points fc <> [] ->
   cycle_waypoint fc 1 = (Done, set_selected fc 0) /\
   cycle_waypoint fc (-1)
   = (Done, set_selected fc ((-2) `mod` Z.of_nat (length (path_points fc)))) /\
   ((2 <= length (path_points fc))%nat ->
    selected_waypoint_index (snd (cycle_waypoint fc (-1)))
    = Z.of_nat (length (path_points fc)) - 2)).
Proof.
  intros Hc Hsel. split.
  - intros E d. unfold cycle_waypoint. now rewrite E.
  - intros Hne.
    assert (Hn : 0 < Z.of_nat (length (path_points fc))).
    { destruct (path_points fc); [congruence|cbn [length]; lia]. }
    rewrite !cycle_waypoint_run by assumption. rewrite Hsel.
    change (-1 + 1) with 0. change (-1 + -1) with (-2).
    rewrite Z.mod_0_l by lia. split; [reflexivity|]. split; [reflexivity|].
    intros Hl. cbn [snd selected_waypoint_index set_selected].
    set (n := Z.of_nat (length (path_points fc))) in *.
    replace (-2) with (n - 2 + -1 * n) by lia.
    rewrite Z_mod_plus_full. apply Z.mod_small. lia.
Qed.

Lemma handle_keeps_selection fc ev :
  selected_waypoint_index fc <> -1 ->
  selected_waypoint_index (snd (handle fc ev)) <> -1.
Proof.
  intros Hs.
  destruct ev as [x y|x y|x y|x y|direction|cmd| |side]; cbn [handle].
  - destruct (place_point_state fc x y add_straight_line ltac:(now left))
      as [[_ ->]|[_ [drag ->]]]; exact Hs.
  - destruct (place_point_state fc x y start_curve_point ltac:(now right))
      as [[_ ->]|[_ [drag ->]]]; exact Hs.
  - now rewrite adjust_curve_point_state.
  - destruct (finalize_curve_point_path fc x y) as (_ & _ & _ & _ & -> & _). exact Hs.
  - destruct (cycle_waypoint_state fc direction) as [-> | [Hne ->]]; [exact Hs|].
    cbn [selected_waypoint_index set_selected].
    assert (Hn : 0 < Z.of_nat (length (path_points fc))).
    { destruct (path_points fc); [congruence|cbn [length]; lia]. }
    pose proof (Z.mod_pos_bound (selected_waypoint_index fc + direction) _ Hn). lia.
  - destruct (assign_command_state fc cmd) as [-> | (wp & b & n & _ & _ & _ & ->)];
      exact Hs.
  - destruct (remove_command_state fc) as [-> | (wp & _ & _ & ->)]; exact Hs.
  - exact Hs.
Qed.

(** X6. Once a waypoint is selected, no event takes the selection away:
    some waypoint stays selected whatever follows, and the command buttons
    never answer "No Waypoint Selected" again. *)
Theorem selection_never_cleared fc evs cmd :
  selected_waypoint_index fc <> -1 ->
  selected_waypoint_index (run fc evs) <> -1 /\
  fst (assign_command (run fc evs) cmd) <> ShowError "No Waypoint Selected" /\
  fst (remove_command (run fc evs)) <> ShowError "No Waypoint Selected".
Proof.
  intros Hs.
  assert (H : selected_waypoint_index (run fc evs) <> -1).
  { revert Hs. apply (run_invariant (fun fc => selected_waypoint_index fc <> -1)).
    intros fc0 ev. apply handle_keeps_selection. }
  split; [exact H|].
  unfold assign_command, remove_command.
  destruct (selected_waypoint_index (run fc evs) =? -1) eqn:E; [lia|].
  destruct (index _ _); [|split; discriminate].
  split; [|discriminate].
  destruct cmd; cbn [command_eqb andb negb]; try discriminate.
  - destruct (pending_clasp _); cbn [negb]; discriminate.
  - destruct (scoops_to_release _ =? 0); discriminate.
Qed.

(** * Removing and overwriting commands *)

(** X7. Remove Command sets the selected waypoint's entry to None and
    touches nothing else: the clasp flag and the scoop counter stay as the
    removed command left them.  So a Scoop is accepted after a Clasp that has
    been removed again.  With no waypoint selected the button shows "No
    Waypoint Selected" and changes nothing. *)
Theorem remove_command_keeps_bookkeeping fc wp :
  (selected_waypoint_index fc = -1 ->
   remove_command fc = (ShowError "No Waypoint Selected", fc)) /\
  (selected_waypoint_index fc <> -1 ->
   index (path_points fc) (selected_waypoint_index fc) = Ok wp ->
   (exists fc', remove_command fc = (Done, fc') /\
                waypoint_commands fc' = <[wp := NoCommand]> (waypoint_commands fc) /\
                command_state fc' = command_state fc /\
                same_path fc fc') /\
   fst (assign_command (snd (remove_command (snd (assign_command fc Clasp)))) Scoop) = Done).
Proof.
  split.
  - intros Hs. unfold remove_command. now rewrite Hs.
  - intros Hs Hwp.
    assert (E : (selected_waypoint_index fc =? -1) = false) by lia.
    split.
    + unfold remove_command. rewrite E, Hwp. eexists. split; [reflexivity|].
      repeat split.
    + unfold assign_command, remove_command.
      rewrite E, Hwp. cbn [command_eqb andb negb snd].
      cbn [selected_waypoint_index path_points set_command set_pending_clasp].
      rewrite E, Hwp.
      cbn [snd selected_waypoint_index path_points set_command set_pending_clasp
           pending_clasp].
      rewrite E, Hwp. cbn [negb andb fst]. reflexivity.
Qed.

(** X8. A waypoint placed at coordinates that the path holds already
    overwrites the entry of these coordinates with None: the command of the
    earlier waypoint is lost, while the clasp flag and the scoop counter stay
    as they are and all other entries are kept. *)
Theorem new_waypoint_resets_command fc x y
    (handler : FieldCanvas -> Z -> Z -> outcome * FieldCanvas) :
  handler = add_straight_line \/ handler = start_curve_point ->
  is_valid_point fc x = true ->
  waypoint_commands (snd (handler fc x y)) = <[(x, y) := NoCommand]> (waypoint_commands fc) /\
  (forall p, p <> (x, y) ->
             waypoint_commands (snd (handler fc x y)) !! p = waypoint_commands fc !! p) /\
  (forall k : nat, path_points fc !! k = Some (x, y) ->
                   path_points (snd (handler fc x y)) !! k = Some (x, y) /\
                   command_at (snd (handler fc x y)) (x, y) = Ok NoCommand) /\
  command_state (snd (handler fc x y)) = command_state fc.
Proof.
  intros Hh Hv.
  destruct (place_point_state fc x y handler Hh) as [[Hf _]|[_ [drag ->]]]; [congruence|].
  cbn [snd waypoint_commands path_points set_dragging set_command set_path].
  split; [reflexivity|]. split; [|split; [|reflexivity]].
  - intros p Hne. now apply lookup_insert_ne.
  - intros k Hk. split.
    + now apply lookup_app_l_Some.
    + unfold command_at. cbn [waypoint_commands set_dragging set_command].
      now rewrite lookup_insert_eq.
Qed.

(** * The side of the field *)

Lemma handle_valid_points fc ev :
  is_side_button ev = false ->
  (forall p, p ∈ path_points fc -> is_valid_point fc (fst p) = true) ->
  forall p, p ∈ path_points (snd (handle fc ev)) ->
            is_valid_point (snd (handle fc ev)) (fst p) = true.
Proof.
  intros Hev IH p.
  destruct (handle_effect fc ev) as (Hx & Hs & Hcases). specialize (Hs Hev).
  assert (Hsame : forall x, is_valid_point (snd (handle fc ev)) x = is_valid_point fc x).
  { intros x. unfold is_valid_point. now rewrite Hx, Hs. }
  rewrite Hsame.
  destruct Hcases as [[-> _]|(x & y & Hv & -> & _)]; [apply IH|].
  intros [Hp | ->%list_elem_of_singleton]%elem_of_app; [now apply IH|exact Hv].
Qed.

(** X9. As long as the side is not switched, every waypoint of the path
    lies on the allowed side: the side is the one the canvas was made with,
    and each waypoint passes the check of [is_valid_point], that is, it is
    not beyond the margin of that side. *)
Theorem waypoints_on_allowed_side side evs p :
  Forall (fun ev => is_side_button ev = false) evs ->
  p ∈ path_points (run (init side) evs) ->
  selected_side (run (init side) evs) = side /\
  is_valid_point (run (init side) evs) (fst p) = true /\
  ~ restricted (run (init side) evs) (fst p).
Proof.
  intros Hevs.
  assert (H : forall fc,
             (forall q, q ∈ path_points fc -> is_valid_point fc (fst q) = true) ->
             selected_side (run fc evs) = selected_side fc /\
             forall q, q ∈ path_points (run fc evs) ->
                       is_valid_point (run fc evs) (fst q) = true).
  { induction Hevs as [|ev evs Hev _ IH]; intros fc Hfc; [now split|].
    cbn [run]. destruct (IH (snd (handle fc ev))) as [Hs Hq].
    - now apply handle_valid_points.
    - split; [|exact Hq]. rewrite Hs.
      now apply (handle_effect fc ev). }
  destruct (H (init side)) as [Hs Hq].
  { intros q Hq. inversion Hq. }
  intros Hp. split; [exact Hs|]. split; [now apply Hq|].
  intros Hr. apply is_valid_point_spec in Hr. rewrite (Hq p Hp) in Hr. discriminate.
Qed.

(** X10. The rectangle that [update_side_restriction] shades lies inside
    the region where [is_valid_point] turns points down, which reaches
    [CENTRAL_LINE_OFFSET] further: every [x] less than the margin away from
    the rectangle is turned down by a right click and by a left press.  With
    no rectangle shaded, every point is taken. *)
Theorem shaded_side_is_closed fc x y :
  (forall x0 y0 x1 y1,
      update_side_restriction fc = Some (x0, y0, x1, y1) ->
      x0 - CENTRAL_LINE_OFFSET < x < x1 + CENTRAL_LINE_OFFSET ->
      is_valid_point fc x = false /\
      add_straight_line fc x y = (ShowError "Invalid Point", fc) /\
      start_curve_point fc x y = (ShowError "Invalid Point", fc)) /\
  (update_side_restriction fc = None -> is_valid_point fc x = true).
Proof.
  unfold update_side_restriction, is_valid_point, add_straight_line, start_curve_point,
    is_valid_point.
  destruct (String.eqb (selected_side fc) "left") eqn:El;
    [|destruct (String.eqb (selected_side fc) "right") eqn:Er]; cbn [andb].
  - split; [|discriminate]. intros x0 y0 x1 y1 [= <- <- <- <-] Hx.
    destruct (central_line_x fc - CENTRAL_LINE_OFFSET <? x) eqn:E; [|lia].
    repeat split.
  - split; [|discriminate]. intros x0 y0 x1 y1 [= <- <- <- <-] Hx.
    destruct (x <? central_line_x fc + CENTRAL_LINE_OFFSET) eqn:E; [|lia].
    repeat split.
  - split; [discriminate|reflexivity].
Qed.

(** * More about the export *)

Lemma appends_ret {A} (a : A) : appends (ret a).
Proof. intros out. unfold ret. cbn. now rewrite app_nil_r. Qed.

Lemma appends_raise {A} (e : exn) : appends (@raise A e).
Proof. intros out. unfold raise. cbn. now rewrite app_nil_r. Qed.

Lemma appends_lift {A} (r : result A) : appends (lift r).
Proof. intros out. unfold lift. cbn. now rewrite app_nil_r. Qed.

Lemma appends_write (l : line) : appends (write l).
Proof. intros out. reflexivity. Qed.

Lemma appends_bind {A B} (m : io A) (k : A -> io B) :
  appends m -> (forall a, appends (k a)) -> appends (bind m k).
Proof.
  intros Hm Hk out. unfold bind. rewrite (Hm out).
  destruct (m []) as [[a|e] o]; cbn [fst snd]; [|reflexivity].
  rewrite (Hk a (out ++ o)), (Hk a o). cbn [fst snd]. now rewrite app_assoc.
Qed.

Lemma appends_for_each {A S} (xs : list A) (body : A -> S -> io S) (s : S) :
  (forall x s', appends (body x s')) -> appends (for_each xs body s).
Proof.
  intros Hb. revert s. induction xs as [|x xs IH]; intros s; cbn [for_each].
  - apply appends_ret.
  - apply appends_bind; [apply Hb|intros s'; apply IH].
Qed.

Section ExportMore.

Variable atan2 : float -> float -> float.
Variable pow : float -> float -> float.

Lemma appends_segment fc i h : appends (segment atan2 pow fc i h).
Proof.
  unfold segment.
  apply appends_bind; [apply appends_lift|intros p1].
  apply appends_bind; [apply appends_lift|intros p2].
  apply appends_bind; [apply appends_lift|intros cmd]. cbv zeta.
  apply appends_bind; [apply appends_lift|intros pts].
  apply appends_bind.
  { destruct (negb _); [apply appends_write|apply appends_ret]. }
  intros _. apply appends_bind; [|intros _; apply appends_ret].
  apply appends_for_each. intros pt _. apply appends_write.
Qed.

Lemma appends_commands_pass fc h0 : appends (commands_pass atan2 pow fc h0).
Proof.
  unfold commands_pass.
  apply appends_bind; [apply appends_for_each; intros; apply appends_segment|intros h].
  apply appends_bind; [apply appends_lift|intros q].
  apply appends_bind; [apply appends_lift|intros c].
  apply appends_bind; [|intros _; apply appends_ret].
  destruct (negb _); [|apply appends_ret].
  destruct h; [apply appends_write|apply appends_raise].
Qed.

(** The second pass starts with the heading the first pass left: it runs
    as the first did. *)
Lemma commands_pass_again fc h out out' :
  fst (commands_pass atan2 pow fc None out) = Ok h ->
  commands_pass atan2 pow fc h out' = commands_pass atan2 pow fc None out'.
Proof.
  unfold commands_pass.
  destruct (range 0 (Z.of_nat (length (path_points fc)) - 1)) as [|i l]; [|reflexivity].
  cbn [for_each]. unfold bind, ret, lift, raise.
  destruct (index (path_points fc) (-1)); [|discriminate].
  destruct (command_at fc a); [|discriminate].
  destruct (negb _); cbn [fst]; [discriminate|].
  now intros [= <-].
Qed.

Lemma c_pass_run fc :
  c_pass atan2 pow fc []
  = match commands_pass atan2 pow fc None [] with
    | (Ok h, body) => (Ok h, map Text header ++ body ++ map Text footer)
    | (Raise e, body) => (Raise e, map Text header ++ body)
    end.
Proof.
  unfold c_pass, bind. rewrite write_all_run. cbn [app].
  rewrite (appends_commands_pass fc None (map Text header)).
  destruct (commands_pass atan2 pow fc None []) as [[h|e] body]; cbn [fst snd];
    [|reflexivity].
  rewrite write_all_run. unfold ret. now rewrite <- app_assoc.
Qed.

(** X11. Whenever the export runs to its end, the two files hold the same
    instruction lines in the same order: the struct-array file is the
    declarations, then the lines of the transcript, then the two closing
    lines. *)
Theorem export_files_agree fc fs fs' :
  export_to_files atan2 pow fc fs = (Ok tt, fs') ->
  exists body,
    c_file fs' = Some (map Text header ++ body ++ map Text footer) /\
    txt_file fs' = Some body.
Proof.
  unfold export_to_files. rewrite c_pass_run.
  destruct (commands_pass atan2 pow fc None []) as [[h|e] body] eqn:E; [|discriminate].
  unfold txt_pass, bind.
  rewrite (commands_pass_again fc h [] []) by now rewrite E.
  rewrite E. unfold ret. intros [= <-]. exists body. split; reflexivity.
Qed.

Lemma last_two {A} (l : list A) :
  (2 <= length l)%nat -> exists l' p q, l = l' ++ [p; q].
Proof.
  intros Hl. destruct (exists_last (l := l)) as (l1 & q & ->); [now destruct l|].
  rewrite length_app in Hl. cbn [length] in Hl.
  destruct (exists_last (l := l1)) as (l' & p & ->);
    [destruct l1; cbn in *; [lia|discriminate]|].
  exists l', p, q. now rewrite <- app_assoc.
Qed.

Lemma commands_are_entries cmd wp h :
  Forall (fun l => is_text l = false) (command_lines cmd wp h).
Proof.
  unfold command_lines. destruct (negb _); repeat constructor.
Qed.

Lemma segments_are_entries fc l :
  Forall (fun l => is_text l = false) (segments_output atan2 pow fc l).
Proof.
  induction l as [|p1 [|p2 tl] IH]; cbn [segments_output]; try constructor.
  apply Forall_app. split; [|exact IH].
  unfold segment_lines. apply Forall_app. split; [apply commands_are_entries|].
  unfold moves. apply Forall_forall. intros ln (pt & -> & _)%list_elem_of_fmap.
  reflexivity.
Qed.

(** X12. In every state the events can lead to, with no drag in progress
    and two waypoints or more on the path, the export runs to its end: no
    step of it raises, both files are written, and between the
    declarations and the closing lines the struct-array file holds array
    entries only. *)
Theorem export_succeeds fc fs :
  reachable fc -> dragging_curve fc = false -> (2 <= length (path_points fc))%nat ->
  exists body,
    export_to_files atan2 pow fc fs
    = (Ok tt, {| c_file := Some (map Text header ++ body ++ map Text footer);
                 txt_file := Some body |}) /\
    Forall (fun l => is_text l = false) body.
Proof.
  intros Hr Hd Hl. destruct (last_two _ Hl) as (l & p & q & Hp).
  pose proof (reachable_exportable fc Hr Hd) as Hx.
  eexists. split; [apply (export_run atan2 pow fc l p q fs Hx Hp)|].
  apply Forall_app. split; [apply segments_are_entries|apply commands_are_entries].
Qed.

(** X13. While a drag is in progress, the export breaks off in the first
    round of its loop: it raises [AttributeError], for the method
    [calculate_bezier_control_point] that the class does not have, and
    leaves the struct-array file with the declarations only and the
    transcript untouched. *)
Theorem export_during_drag fc fs :
  reachable fc -> dragging_curve fc = true ->
  export_to_files atan2 pow fc fs
  = (Raise AttributeError,
     {| c_file := Some (map Text header); txt_file := txt_file fs |}).
Proof.
  intros Hr Hd. pose proof (reachable_consistent fc Hr) as (Hk & _ & _ & Hlen).
  specialize (Hlen Hd).
  destruct (path_points fc) as [|p1 [|p2 tl]] eqn:Ep; try (cbn in Hlen; lia).
  assert (Hc : exists c, waypoint_commands fc !! p1 = Some c).
  { destruct (Hk p1) as [[c Hc] _]; [left|eauto]. }
  destruct Hc as [c Hc].
  unfold export_to_files. rewrite c_pass_run.
  assert (E : commands_pass atan2 pow fc None [] = (Raise AttributeError, [])).
  { unfold commands_pass. rewrite Ep.
    rewrite range_cons by (cbn [length]; lia). cbn [for_each].
    unfold bind at 1. unfold bind at 1.
    unfold segment, bind, lift. cbv zeta. rewrite ?Ep.
    assert (H1 : index (p1 :: p2 :: tl) 0 = Ok p1) by reflexivity.
    assert (H2 : index (p1 :: p2 :: tl) (0 + 1) = Ok p2)
      by (apply (index_lookup (p1 :: p2 :: tl) 1%nat p2); reflexivity).
    rewrite H1, H2.
    unfold command_at. rewrite Hc, Hd.
    replace (0 <? Z.of_nat (length (p1 :: p2 :: tl)) - 1) with true
      by (symmetry; apply Z.ltb_lt; cbn [length]; lia).
    reflexivity. }
  rewrite E. now rewrite app_nil_r.
Qed.

(** X14. A path with no segment is exported only when it is one waypoint
    with the command None.  For an empty path the export raises
    [IndexError] at [path_points[-1]]; for a single waypoint with a command
    it raises [UnboundLocalError], since [heading] was never assigned.
    Either way the struct-array file is left with the declarations only,
    without the closing lines, and the transcript is not written. *)
Theorem export_without_segment_raises fc fs :
  (path_points fc = [] ->
   export_to_files atan2 pow fc fs
   = (Raise IndexError,
      {| c_file := Some (map Text header); txt_file := txt_file fs |})) /\
  (forall p c,
      path_points fc = [p] -> command_at fc p = Ok c -> c <> NoCommand ->
      export_to_files atan2 pow fc fs
      = (Raise UnboundLocalError,
         {| c_file := Some (map Text header); txt_file := txt_file fs |})).
Proof.
  split.
  - intros Ep. unfold export_to_files. rewrite c_pass_run.
    unfold commands_pass. rewrite Ep. cbn. now rewrite index_empty.
  - intros p c Ep Hc Hne. unfold export_to_files. rewrite c_pass_run.
    unfold commands_pass. rewrite Ep. cbn [length for_each].
    rewrite range_nil by (cbn; lia). cbn [for_each].
    unfold bind, ret, lift, raise.
    change (index [p] (-1)) with (Ok p). cbv iota beta. rewrite Hc.
    destruct (command_eqb c NoCommand) eqn:E; [now apply command_eqb_eq in E|].
    cbn [negb]. now rewrite app_nil_r.
Qed.

Lemma straight_points_last (p q : Z * Z) :
  in_range p -> in_range q -> last (straight_points pow p q) = Some (fpoint q).
Proof.
  intros Hp Hq. unfold straight_points.
  destruct (straight_count_defined pow p q 3 Hp Hq ltac:(simpl; lia)) as (k & Hk0 & Hk).
  rewrite (straight_points_at pow (ipoint p) (ipoint q) 3 k ltac:(lia) Hk).
  set (n := Z.max 1 k). assert (Hn : 0 < n < 2 ^ 53) by (unfold n; lia).
  rewrite last_lookup, length_map, range_length.
  replace (Nat.pred (Z.to_nat (n + 1 - 1))) with (Z.to_nat (n - 1)) by lia.
  rewrite list_lookup_fmap, range_lookup by lia.
  cbn [fmap option_fmap option_map].
  replace (1 + Z.of_nat (Z.to_nat (n - 1))) with n by lia.
  now rewrite truediv_self, line_point_end.
Qed.

(** X15. The exported program reaches every waypoint: for each waypoint
    after the first, both files hold a motion line whose point is that
    waypoint, with coordinates equal to the stored ones, and whose heading
    is the heading of the segment that ends there. *)
Theorem export_visits_waypoints fc fs (k : nat) p q :
  reachable fc -> dragging_curve fc = false ->
  path_points fc !! k = Some p -> path_points fc !! S k = Some q ->
  exists lines body e,
    export_to_files atan2 pow fc fs
    = (Ok tt, {| c_file := Some lines; txt_file := Some body |}) /\
    Entry e ∈ lines /\ Entry e ∈ body /\
    kind e = CMD_MOVE_WITH_HEADING /\
    pos e = fpoint q /\
    num_eq_Z (fst (pos e)) (fst q) = true /\
    num_eq_Z (snd (pos e)) (snd q) = true /\
    heading e = calculate_heading atan2 (ipoint p) (ipoint q).
Proof.
  intros Hr Hd Hp Hq.
  pose proof (reachable_exportable fc Hr Hd) as Hx.
  assert (Hl : (2 <= length (path_points fc))%nat).
  { apply lookup_lt_Some in Hq. lia. }
  destruct (last_two _ Hl) as (l & p' & q' & Hpath).
  pose proof (export_run atan2 pow fc l p' q' fs Hx Hpath) as Hrun. cbv zeta in Hrun.
  destruct Hx as [_ Hwf].
  destruct (Hwf p (list_elem_of_lookup_2 _ _ _ Hp)) as [_ Hrp].
  destruct (Hwf q (list_elem_of_lookup_2 _ _ _ Hq)) as [_ Hrq].
  set (h := calculate_heading atan2 (ipoint p) (ipoint q)).
  set (e := {| kind := CMD_MOVE_WITH_HEADING; pos := fpoint q; heading := h;
               speed := calculate_dynamic_speed
                          (calculate_distance pow (ipoint p) (fpoint q)) |}).
  assert (He : Entry e ∈ segments_output atan2 pow fc (path_points fc)).
  { apply (segment_lines_written atan2 pow fc _ k p q _ Hp Hq).
    unfold segment_lines. apply elem_of_app. right. fold h.
    unfold moves. apply list_elem_of_fmap. exists (fpoint q). split; [reflexivity|].
    apply last_Some_elem_of. now apply straight_points_last. }
  eexists _, _, e. split; [exact Hrun|].
  split; [|split].
  - apply elem_of_app. right. apply elem_of_app. left. apply elem_of_app. now left.
  - apply elem_of_app. now left.
  - split; [reflexivity|]. split; [reflexivity|].
    assert (Hb : forall z, c_int z -> Z.abs z < 2 ^ 53).
    { intros z Hz. apply c_int_small in Hz.
      change (2 ^ 32) with 4294967296 in Hz. change (2 ^ 53) with 9007199254740992. lia. }
    destruct Hrq as [Hq1 Hq2].
    split; [apply float_of_Z_exact, Hb, Hq1|].
    split; [apply float_of_Z_exact, Hb, Hq2|reflexivity].
Qed.

(** What holds of every line of a file holds of the lines a pass adds. *)
Lemma commands_pass_lines (P : line -> Prop) fc :
  (forall pt h v, P (move_entry pt h v)) ->
  (forall c wp h, c <> NoCommand -> wp ∈ path_points fc ->
                  waypoint_commands fc !! wp = Some c -> P (command_entry c wp h)) ->
  forall h0 out, Forall P out -> Forall P (snd (commands_pass atan2 pow fc h0 out)).
Proof.
  intros Hm Hc h0 out Hout.
  assert (Hcmd : forall c wp h o,
             index (path_points fc) (-1) = Ok wp \/ (exists i, index (path_points fc) i = Ok wp) ->
             command_at fc wp = Ok c -> Forall P o ->
             Forall P (snd ((if negb (command_eqb c NoCommand)
                             then write (command_entry c wp h) else ret tt) o))).
  { intros c wp h o Hwp Hcw Ho.
    destruct (command_eqb c NoCommand) eqn:E; cbn [negb]; [exact Ho|].
    unfold write. cbn [snd]. apply Forall_app. split; [exact Ho|].
    constructor; [|constructor]. apply Hc.
    - intros ->. discriminate.
    - destruct Hwp as [Hwp|[i Hwp]]; now apply index_elem in Hwp.
    - unfold command_at in Hcw. destruct (waypoint_commands fc !! wp); congruence. }
  assert (Hseg : forall i h o, Forall P o -> Forall P (snd (segment atan2 pow fc i h o))).
  { intros i h o Ho. unfold segment, bind, lift. cbv zeta.
    destruct (index (path_points fc) i) as [p1|e] eqn:E1; [|exact Ho].
    destruct (index (path_points fc) (i + 1)) as [p2|e]; [|exact Ho].
    destruct (command_at fc p1) as [c|e] eqn:Ec; [|exact Ho].
    match goal with
    | |- context [if ?b && dragging_curve fc then ?x else ?y] =>
        destruct (if b && dragging_curve fc then x else y) as [pts|e]; [|exact Ho]
    end.
    specialize (Hcmd c p1 (calculate_heading atan2 (ipoint p1) (ipoint p2)) o
                  (or_intror (ex_intro _ i E1)) Ec Ho).
    assert (Hmoves : forall o1, Forall P o1 ->
              Forall P (o1 ++ moves pow p1 (calculate_heading atan2 (ipoint p1) (ipoint p2))
                                pts)).
    { intros o1 Ho1. apply Forall_app. split; [exact Ho1|].
      unfold moves. apply Forall_forall. intros ln (pt & -> & _)%list_elem_of_fmap.
      apply Hm. }
    destruct (negb (command_eqb c NoCommand)).
    - unfold write at 1. rewrite moves_run. unfold ret. cbn [snd].
      apply Hmoves. exact Hcmd.
    - unfold ret at 1. rewrite moves_run. unfold ret. cbn [snd].
      apply Hmoves. exact Hcmd. }
  unfold commands_pass, bind, lift.
  pose proof (for_each_inv P (range 0 (Z.of_nat (length (path_points fc)) - 1))
                (segment atan2 pow fc) Hseg h0 out Hout) as Hloop.
  destruct (for_each _ _ h0 out) as [[h|e] o1]; cbn [snd] in Hloop; [|exact Hloop].
  destruct (index (path_points fc) (-1)) as [q|e] eqn:Eq; [|exact Hloop].
  destruct (command_at fc q) as [c|e] eqn:Ec; [|exact Hloop].
  destruct h as [h|].
  - specialize (Hcmd c q h o1 (or_introl eq_refl) Ec Hloop).
    destruct (negb (command_eqb c NoCommand)); exact Hcmd.
  - destruct (negb _); exact Hloop.
Qed.

Lemma command_constant_declared c : c <> NoCommand -> declared (enum_constant (CMD c)).
Proof.
  intros Hc. unfold declared.
  destruct c; try contradiction;
    try (left; apply list_elem_of_In; cbn; tauto);
    right; apply list_elem_of_In; cbn; tauto.
Qed.

(** X16. Every array entry and transcript line that stands for a command
    holds the command stored for a waypoint of the path, at that waypoint
    and with speed 0; the command is never None, and the enum constant
    written for an entry, [CMD_] with the command in capitals and [_] for
    the blank, is one that the declarations at the head of the file
    hold. *)
Theorem entries_name_declared_commands fc fs :
  let ok l :=
    command_of_waypoint fc l /\
    match l with
    | Entry e => declared (enum_constant (kind e))
    | Text _ => True
    end in
  (exists lines, c_file (snd (export_to_files atan2 pow fc fs)) = Some lines /\
                 Forall ok lines) /\
  (forall h0, Forall ok (snd (txt_pass atan2 pow fc h0 []))).
Proof.
  intros ok.
  assert (Hm : forall pt h v, ok (move_entry pt h v)).
  { intros pt h v. split; [cbn; discriminate|].
    left. apply list_elem_of_In. cbn. tauto. }
  assert (Hc : forall c wp h, c <> NoCommand -> wp ∈ path_points fc ->
                              waypoint_commands fc !! wp = Some c ->
                              ok (command_entry c wp h)).
  { intros c wp h Hne Hwp Hs. split; [|now apply command_constant_declared].
    cbn. intros c' [= <-]. split; [exact Hne|]. exists wp. repeat split; assumption. }
  assert (Ht : forall ls, Forall ok (map Text ls)).
  { induction ls; constructor; [now split|assumption]. }
  pose proof (commands_pass_lines ok fc Hm Hc) as Hpass.
  split.
  - unfold export_to_files. rewrite c_pass_run.
    pose proof (Hpass None [] ltac:(constructor)) as Hb.
    destruct (commands_pass atan2 pow fc None []) as [[h|e] body]; cbn [snd] in Hb.
    + destruct (txt_pass atan2 pow fc h []) as [r o]. cbn [snd c_file].
      eexists. split; [reflexivity|].
      apply Forall_app. split; [apply Ht|]. apply Forall_app. split; [exact Hb|apply Ht].
    + cbn [snd c_file]. eexists. split; [reflexivity|].
      apply Forall_app. split; [apply Ht|exact Hb].
  - intros h0. unfold txt_pass, bind.
    pose proof (Hpass h0 [] ltac:(constructor)) as Hb.
    destruct (commands_pass atan2 pow fc h0 []) as [[h|e] body]; exact Hb.
Qed.

End ExportMore.

(** * More about the densifier *)

Lemma float_of_Z_zero_or_finite z :
  Z.abs z < 2 ^ 53 ->
  float_of_Z z = S754_zero false \/ exists s m e, float_of_Z z = S754_finite s m e.
Proof.
  intros Hz. destruct (Z.eq_dec z 0) as [->|Hne]; [now left|].
  destruct (float_of_Z_finite z Hne Hz) as (m & e & -> & _). right. eauto.
Qed.

Lemma fmul_zero_float_of_Z s z :
  Z.abs z < 2 ^ 53 -> exists s', fmul (S754_zero s) (float_of_Z z) = S754_zero s'.
Proof.
  intros Hz. destruct (float_of_Z_zero_or_finite z Hz) as [-> | (s1 & m & e & ->)];
    cbn; eauto.
Qed.

Lemma fadd_float_of_Z_zero z s :
  Z.abs z < 2 ^ 53 ->
  fadd (float_of_Z z) (S754_zero s) = float_of_Z z /\
  fadd (S754_zero s) (float_of_Z z) = float_of_Z z.
Proof.
  intros Hz. destruct (float_of_Z_zero_or_finite z Hz) as [-> | (s1 & m & e & ->)].
  - destruct s; split; reflexivity.
  - split; reflexivity.
Qed.

Lemma fadd_zeros s1 s2 : exists s, fadd (S754_zero s1) (S754_zero s2) = S754_zero s.
Proof. destruct s1, s2; cbn; eauto. Qed.

Section DensifierMore.

Variable pow : float -> float -> float.

Lemma bezier_coordinate_start a c b :
  pow_exact_at_0_1 pow ->
  Z.abs a < 2 ^ 53 -> Z.abs c < 2 ^ 53 -> Z.abs b < 2 ^ 53 ->
  bezier_coordinate pow (truediv (Int 0) (Int 100)) (Int a) (Int c) (Int b)
  = Float (float_of_Z a).
Proof.
  intros [H0 H1] Ha Hc Hb.
  assert (Ht : truediv (Int 0) (Int 100) = Float (S754_zero false))
    by (vm_compute; reflexivity).
  rewrite Ht. unfold bezier_coordinate.
  assert (Hs : sub (Int 1) (Float (S754_zero false)) = Float one)
    by (vm_compute; reflexivity).
  rewrite Hs. cbn [sq]. rewrite H1, H0.
  assert (H2 : mul (mul (Int 2) (Float one)) (Float (S754_zero false))
               = Float (S754_zero false)) by (vm_compute; reflexivity).
  rewrite H2. cbn [mul add to_float].
  rewrite fmul_one_float_of_Z by assumption.
  destruct (fmul_zero_float_of_Z false c Hc) as [s1 ->].
  destruct (fmul_zero_float_of_Z false b Hb) as [s2 ->].
  now rewrite (proj1 (fadd_float_of_Z_zero a s1 Ha)), (proj1 (fadd_float_of_Z_zero a s2 Ha)).
Qed.

Lemma bezier_coordinate_end a c b :
  pow_exact_at_0_1 pow ->
  Z.abs a < 2 ^ 53 -> Z.abs c < 2 ^ 53 -> Z.abs b < 2 ^ 53 ->
  bezier_coordinate pow (truediv (Int 100) (Int 100)) (Int a) (Int c) (Int b)
  = Float (float_of_Z b).
Proof.
  intros [H0 H1] Ha Hc Hb.
  rewrite truediv_self by (change (2 ^ 53) with 9007199254740992; lia).
  unfold bezier_coordinate.
  assert (Hs : sub (Int 1) (Float one) = Float (S754_zero false))
    by (vm_compute; reflexivity).
  rewrite Hs. cbn [sq]. rewrite H1, H0.
  assert (H2 : mul (mul (Int 2) (Float (S754_zero false))) (Float one)
               = Float (S754_zero false)) by (vm_compute; reflexivity).
  rewrite H2. cbn [mul add to_float].
  rewrite fmul_one_float_of_Z by assumption.
  destruct (fmul_zero_float_of_Z false a Ha) as [s1 ->].
  destruct (fmul_zero_float_of_Z false c Hc) as [s2 ->].
  destruct (fadd_zeros s1 s2) as [s ->].
  now rewrite (proj2 (fadd_float_of_Z_zero b s Hb)).
Qed.

Lemma c_int_53 z : c_int z -> Z.abs z < 2 ^ 53.
Proof.
  intros Hz. apply c_int_small in Hz.
  change (2 ^ 32) with 4294967296 in Hz. change (2 ^ 53) with 9007199254740992. lia.
Qed.

(** X17. The polyline of a quadratic Bezier curve has 101 points; it
    starts at the first waypoint and ends at the second, whatever the
    control point is: the first and the last sample are these waypoints,
    with no rounding error. *)
Theorem bezier_endpoints (p1 p2 control : Z * Z) :
  pow_exact_at_0_1 pow -> in_range p1 -> in_range p2 -> in_range control ->
  let b := calculate_quadratic_bezier_points pow (ipoint p1) (ipoint p2) (ipoint control) in
  length b = 101%nat /\ head b = Some (fpoint p1) /\ last b = Some (fpoint p2).
Proof.
  intros Hpow [Ha1 Ha2] [Hb1 Hb2] [Hc1 Hc2] b.
  apply c_int_53 in Ha1, Ha2, Hb1, Hb2, Hc1, Hc2.
  split; [apply bezier_length|]. split.
  - unfold b, calculate_quadratic_bezier_points.
    rewrite range_cons by lia. cbn [map head]. cbv zeta.
    unfold ipoint, fpoint. cbn [fst snd].
    now rewrite !bezier_coordinate_start.
  - rewrite last_lookup. unfold b. rewrite bezier_length.
    unfold calculate_quadratic_bezier_points.
    rewrite list_lookup_fmap, range_lookup by (simpl; lia).
    cbn [fmap option_fmap option_map Nat.pred]. cbv zeta.
    change (0 + Z.of_nat 100) with 100.
    unfold ipoint, fpoint. cbn [fst snd].
    now rewrite !bezier_coordinate_end.
Qed.

Lemma short_distance_count K :
  0 <= K < 36 ->
  exists k, int (truediv (Float (fsqrt (float_of_Z K))) (Int 3)) = Ok k /\ Z.max 1 k = 1.
Proof.
  intros HK.
  assert (Hall : forallb (fun K => match int (truediv (Float (fsqrt (float_of_Z K))) (Int 3)) with
                                   | Ok k => Z.max 1 k =? 1
                                   | Raise _ => false
                                   end) (range 0 36) = true)
    by (vm_compute; reflexivity).
  rewrite forallb_forall in Hall.
  assert (Hin : In K (range 0 36)).
  { unfold range. apply in_map_iff. exists (Z.to_nat K). split; [lia|].
    apply in_seq. change (Z.to_nat (36 - 0)) with 36%nat. lia. }
  specialize (Hall K Hin).
  destruct (int (truediv (Float (fsqrt (float_of_Z K))) (Int 3))) as [k|e];
    [|discriminate].
  exists k. split; [reflexivity|]. now apply Z.eqb_eq.
Qed.

(** X18. A segment shorter than 6 pixels, twice the threshold, is not
    cut: its only sub-point is its end waypoint.  This holds for a waypoint
    placed twice in a row, a segment of length 0, too. *)
Theorem short_segment_single_point (p1 p2 : Z * Z) :
  in_range p1 -> in_range p2 ->
  (fst p2 - fst p1) * (fst p2 - fst p1) + (snd p2 - snd p1) * (snd p2 - snd p1) < 36 ->
  generate_intermediate_points pow (ipoint p1) (ipoint p2) None (Int 3) = Ok [fpoint p2].
Proof.
  intros Hp1 Hp2 HK.
  set (K := (fst p2 - fst p1) * (fst p2 - fst p1) + (snd p2 - snd p1) * (snd p2 - snd p1)) in *.
  assert (H0 : 0 <= K).
  { pose proof (Z.square_nonneg (fst p2 - fst p1)).
    pose proof (Z.square_nonneg (snd p2 - snd p1)). unfold K. lia. }
  destruct (short_distance_count K ltac:(lia)) as (k & Hk & Hn).
  rewrite (straight_points_at pow (ipoint p1) (ipoint p2) 3 k ltac:(lia)).
  - rewrite Hn. change (range 1 (1 + 1)) with [1]. cbn [map].
    rewrite truediv_self by (change (2 ^ 53) with 9007199254740992; lia).
    now rewrite line_point_end.
  - rewrite calculate_distance_ints. exact Hk.
Qed.

End DensifierMore.

(** * The application window *)

Section WindowFacts.

Variable atan2 : float -> float -> float.
Variable pow : float -> float -> float.
Variable float_of_string : string -> result float.

Lemma check_robot_info_cases load app :
  snd (check_robot_info float_of_string load app) = app /\
  fst (check_robot_info float_of_string load app) <> Done \/
  fst (check_robot_info float_of_string load app) = Done /\
  ((exists fc, field_canvas app = Some fc) /\
   snd (check_robot_info float_of_string load app) = set_export_btn app true \/
   field_canvas app = None /\ load = Ok tt /\
   snd (check_robot_info float_of_string load app)
   = set_export_btn (set_field_canvas app (Some (init (side_var app)))) true).
Proof.
  unfold check_robot_info, start_field.
  destruct (float_of_string (width_entry app)) as [w|e]; cbn [rbind].
  2:{ left. destruct e; split; (reflexivity || discriminate). }
  destruct (float_of_string (height_entry app)) as [h|e]; cbn [rbind].
  2:{ left. destruct e; split; (reflexivity || discriminate). }
  destruct (float_of_string (weight_entry app)) as [wt|e]; cbn [rbind].
  2:{ left. destruct e; split; (reflexivity || discriminate). }
  destruct (field_canvas app) as [fc|] eqn:Ec.
  - right. split; [reflexivity|]. left. split; [eauto|reflexivity].
  - destruct load as [[]|e]; cbn [rbind].
    + right. split; [reflexivity|]. right. repeat split.
    + left. destruct e; split; (reflexivity || discriminate).
Qed.

Lemma app_handle_ok st ev :
  app_event_in_range ev -> window_ok (fst st) ->
  window_ok (fst (snd (app_handle atan2 pow float_of_string st ev))).
Proof.
  destruct st as [app fs]. intros Hev [Hb Hc]. cbn [fst] in *.
  destruct ev as [w h wt|load| |side|ev].
  3:{ assert (Hsame : fst (snd (app_handle atan2 pow float_of_string (app, fs) ExportButton))
                      = app).
      { cbn [app_handle].
        destruct (export_btn app);
          [destruct (MainApp_export_to_files atan2 pow app fs)|]; reflexivity. }
      rewrite Hsame. split; assumption. }
  all: cbn [app_handle].
  - split; [exact Hb|exact Hc].
  - destruct (check_robot_info float_of_string load app) as [o app'] eqn:E.
    cbn [snd fst].
    destruct (check_robot_info_cases load app) as [[H _]|[_ [[[fc Hfc] H]|(Hn & _ & H)]]];
      rewrite E in H; cbn [snd] in H; subst app'.
    + split; assumption.
    + split; [intros _; cbn; rewrite Hfc; eauto|exact Hc].
    + split; [intros _; cbn; eauto|].
      cbn. intros fc [= <-]. split; [reflexivity|constructor].
  - cbn [snd fst]. unfold update_side. cbn [field_canvas set_side_var side_var].
    destruct (field_canvas app) as [fc|] eqn:Ec.
    + split; [intros _; cbn; eauto|].
      cbn. intros fc' [= <-]. split; [reflexivity|].
      destruct (Hc fc eq_refl) as [_ Hr].
      apply (reachable_step fc (SideButton side) Hr I).
    + split; [cbn; rewrite Ec; exact Hb|].
      cbn. rewrite Ec. discriminate.
  - destruct (field_canvas app) as [fc|] eqn:Ec;
      [|split; cbn; rewrite Ec; assumption].
    destruct (is_side_button ev) eqn:Es; [split; cbn; rewrite Ec; assumption|].
    destruct (handle fc ev) as [o fc'] eqn:Eh. cbn [snd fst].
    split; [intros _; cbn; eauto|].
    cbn. intros fc'' [= <-]. destruct (Hc fc eq_refl) as [Hs Hr]. split.
    + rewrite <- Hs. replace fc' with (snd (handle fc ev)) by now rewrite Eh.
      now apply handle_effect.
    + replace fc' with (snd (handle fc ev)) by now rewrite Eh.
      now apply reachable_step.
Qed.

Lemma app_run_ok evs st :
  Forall app_event_in_range evs -> window_ok (fst st) ->
  window_ok (fst (app_run atan2 pow float_of_string st evs)).
Proof.
  intros Hevs. revert st. induction Hevs as [|ev evs Hev _ IH]; intros st Hst;
    [exact Hst|].
  cbn [app_run]. apply IH. now apply app_handle_ok.
Qed.

(** X19. At any time, the Export button is enabled only when the canvas
    has been made, so a click on it never ends in the "Field is not
    initialized" box; the side of the canvas is the one the radio buttons
    show; and the canvas is in a state that its own events lead to from its
    start with that or another side. *)
Theorem export_button_needs_canvas evs fs0 :
  Forall app_event_in_range evs ->
  let st := app_run atan2 pow float_of_string (MainApp_init, fs0) evs in
  (export_btn (fst st) = true ->
   exists fc, field_canvas (fst st) = Some fc /\
              fst (app_handle atan2 pow float_of_string st ExportButton)
              <> ShowError "Error") /\
  (forall fc, field_canvas (fst st) = Some fc ->
              selected_side fc = side_var (fst st) /\ reachable fc) /\
  (export_btn (fst st) = false ->
   app_handle atan2 pow float_of_string st ExportButton = (Done, st)).
Proof.
  intros Hevs st.
  assert (Hok : window_ok (fst st)).
  { apply app_run_ok; [exact Hevs|]. split; [discriminate|discriminate]. }
  destruct Hok as [Hb Hc]. split; [|split; [exact Hc|]].
  - intros He. destruct (Hb He) as [fc Hfc]. exists fc. split; [exact Hfc|].
    destruct st as [app fs]. cbn [fst] in *. cbn [app_handle]. rewrite He.
    unfold MainApp_export_to_files. rewrite Hfc.
    destruct (export_to_files atan2 pow fc fs) as [[[]|e] fs']; discriminate.
  - intros He. destruct st as [app fs]. cbn [fst] in *. cbn [app_handle].
    now rewrite He.
Qed.

Lemma app_handle_keeps st ev l :
  export_btn (fst st) = true /\
  (exists fc, field_canvas (fst st) = Some fc /\ l `prefix_of` path_points fc) ->
  export_btn (fst (snd (app_handle atan2 pow float_of_string st ev))) = true /\
  (exists fc, field_canvas (fst (snd (app_handle atan2 pow float_of_string st ev))) = Some fc /\
              l `prefix_of` path_points fc).
Proof.
  destruct st as [app fs]. cbn [fst]. intros [Hb (fc & Hfc & Hl)].
  destruct ev as [w h wt|load| |side|ev]; cbn [app_handle].
  - cbn. eauto.
  - destruct (check_robot_info float_of_string load app) as [o app'] eqn:E.
    cbn [snd fst].
    destruct (check_robot_info_cases load app) as [[H _]|[_ [[_ H]|(Hn & _ & _)]]];
      [| |congruence]; rewrite E in H; cbn [snd] in H; subst app'; cbn; eauto.
  - rewrite Hb. destruct (MainApp_export_to_files atan2 pow app fs). cbn. eauto.
  - cbn [snd fst]. unfold update_side. cbn [field_canvas set_side_var]. rewrite Hfc.
    cbn. eauto.
  - rewrite Hfc. destruct (is_side_button ev); [cbn; eauto|].
    destruct (handle fc ev) as [o fc'] eqn:Eh. cbn. split; [exact Hb|].
    exists fc'. split; [reflexivity|].
    replace fc' with (snd (handle fc ev)) by now rewrite Eh.
    destruct (handle_effect fc ev) as (_ & _ & [[-> _]|(x & y & _ & -> & _)]);
      [exact Hl|]. now apply prefix_app_r.
Qed.

(** X20. Once Start has made the canvas, nothing takes it back: whatever
    the user does next, Start pressed again with any entries included, the
    Export button stays enabled and the canvas keeps every waypoint it has,
    in place. *)
Theorem start_is_kept st evs fc :
  export_btn (fst st) = true -> field_canvas (fst st) = Some fc ->
  let st' := app_run atan2 pow float_of_string st evs in
  export_btn (fst st') = true /\
  exists fc', field_canvas (fst st') = Some fc' /\
              path_points fc `prefix_of` path_points fc'.
Proof.
  intros Hb Hfc. cbv zeta.
  assert (H : export_btn (fst st) = true /\
              exists fc0, field_canvas (fst st) = Some fc0 /\
                          path_points fc `prefix_of` path_points fc0)
    by (split; [exact Hb|]; exists fc; split; [exact Hfc|reflexivity]).
  clear Hb Hfc. revert st H.
  induction evs as [|ev evs IH]; intros st H; [exact H|].
  cbn [app_run]. apply IH. now apply app_handle_keeps.
Qed.

End WindowFacts.

(** * Handlers in the states the events lead to *)

Lemma handle_show_error fc ev title :
  fst (handle fc ev) = ShowError title ->
  snd (handle fc ev) = fc /\
  title ∈ ["Invalid Point"; "No Waypoint Selected"; "Clasp Required"; "No Scoops"]%string.
Proof.
  destruct ev as [x y|x y|x y|x y|direction|cmd| |side]; cbn [handle].
  - destruct (place_point_state fc x y add_straight_line ltac:(now left))
      as [[_ ->]|[_ [drag ->]]]; [|discriminate].
    intros [= <-]. split; [reflexivity|]. apply list_elem_of_In. cbn. tauto.
  - destruct (place_point_state fc x y start_curve_point ltac:(now right))
      as [[_ ->]|[_ [drag ->]]]; [|discriminate].
    intros [= <-]. split; [reflexivity|]. apply list_elem_of_In. cbn. tauto.
  - unfold adjust_curve_point. destruct (dragging_curve fc); cbn [negb]; [|discriminate].
    destruct (index (path_points fc) (-2)); destruct (index (path_points fc) (-1));
      discriminate.
  - unfold finalize_curve_point. destruct (dragging_curve fc); cbn [negb]; [|discriminate].
    cbn [path_points set_dragging].
    destruct (index (path_points fc) (-2)); destruct (index (path_points fc) (-1));
      discriminate.
  - unfold cycle_waypoint. destruct (path_points fc); [discriminate|]. cbv zeta.
    destruct (if selected_waypoint_index fc =? -1 then _ else _); discriminate.
  - unfold assign_command.
    destruct (selected_waypoint_index fc =? -1).
    { intros [= <-]. split; [reflexivity|]. apply list_elem_of_In. cbn. tauto. }
    destruct (index (path_points fc) (selected_waypoint_index fc)); [|discriminate].
    destruct cmd; cbn [command_eqb andb negb]; try discriminate.
    + destruct (pending_clasp fc); cbn [negb]; [discriminate|].
      intros [= <-]. split; [reflexivity|]. apply list_elem_of_In. cbn. tauto.
    + destruct (scoops_to_release fc =? 0); [|discriminate].
      intros [= <-]. split; [reflexivity|]. apply list_elem_of_In. cbn. tauto.
  - unfold remove_command.
    destruct (selected_waypoint_index fc =? -1).
    { intros [= <-]. split; [reflexivity|]. apply list_elem_of_In. cbn. tauto. }
    destruct (index (path_points fc) (selected_waypoint_index fc)); discriminate.
  - discriminate.
Qed.

(** X21. In every state the events lead to, no handler of the canvas
    raises: each one runs to its end or stops at one of the four message
    boxes, and a handler that stops at a box has changed nothing.  After it,
    the selected index is -1 or lies in the path, every waypoint has its
    entry in the command dictionary, and a drag is open only on a path of
    two waypoints or more. *)
Theorem handlers_never_raise fc ev :
  reachable fc -> event_in_range ev ->
  (fst (handle fc ev) = Done \/
   exists title,
     handle fc ev = (ShowError title, fc) /\
     title ∈ ["Invalid Point"; "No Waypoint Selected"; "Clasp Required"; "No Scoops"]%string) /\
  consistent (snd (handle fc ev)).
Proof.
  intros Hr Hev.
  destruct (handle_consistent fc ev (reachable_consistent fc Hr) Hev) as [Hc Hn].
  split; [|exact Hc].
  destruct (handle fc ev) as [o fc'] eqn:E. cbn [fst] in *.
  destruct o as [|title|e]; [now left| |now specialize (Hn e)].
  right. exists title.
  destruct (handle_show_error fc ev title) as [Hs Ht]; [now rewrite E|].
  rewrite E in Hs. cbn [snd] in Hs. subst fc'. split; [reflexivity|exact Ht].
Qed.

Lemma run_motions fc (drags : list (Z * Z)) :
  run fc (map (fun d => LeftMotion (fst d) (snd d)) drags) = fc.
Proof.
  induction drags as [|d drags IH]; [reflexivity|].
  cbn [map run handle]. now rewrite adjust_curve_point_state.
Qed.

(** X22. A whole curve gesture, the press, any drags and the release,
    leaves the canvas just as a right click at the pressed point does: the
    control point of the release is stored nowhere, and on an empty path the
    press only makes the start point. *)
Theorem curve_gesture_is_right_click fc x y (drags : list (Z * Z)) cx cy :
  dragging_curve fc = false ->
  snd (finalize_curve_point
         (run (snd (start_curve_point fc x y))
              (map (fun d => LeftMotion (fst d) (snd d)) drags))
         cx cy)
  = snd (add_straight_line fc x y).
Proof.
  intros Hd. rewrite run_motions.
  destruct (path_points fc) as [|p0 l0] eqn:Ep.
  - unfold start_curve_point, add_straight_line. rewrite Ep.
    destruct (negb (is_valid_point fc x)); cbn [snd]; unfold finalize_curve_point.
    + now rewrite Hd.
    + cbn [dragging_curve add_starting_point set_command set_path]. now rewrite Hd.
  - apply curve_gesture_as_straight; [exact Hd|]. rewrite Ep. discriminate.
Qed.

Section ExportFrame.

Variable atan2 : float -> float -> float.
Variable pow : float -> float -> float.

(** X23. The export reads the path, the command dictionary and the drag
    flag, and nothing else of the canvas: the selected side, the selected
    waypoint, the clasp flag and the scoop counter leave no trace in the
    files.  So an arrow key or a side button between two exports changes
    nothing of what is written. *)
Theorem export_reads_path_and_commands fc fc' fs :
  path_points fc' = path_points fc ->
  waypoint_commands fc' = waypoint_commands fc ->
  dragging_curve fc' = dragging_curve fc ->
  export_to_files atan2 pow fc' fs = export_to_files atan2 pow fc fs /\
  (forall direction,
      export_to_files atan2 pow (snd (cycle_waypoint fc direction)) fs
      = export_to_files atan2 pow fc fs) /\
  (forall side,
      export_to_files atan2 pow (set_side fc side) fs = export_to_files atan2 pow fc fs).
Proof.
  assert (H : forall a b, path_points b = path_points a ->
                          waypoint_commands b = waypoint_commands a ->
                          dragging_curve b = dragging_curve a ->
                          export_to_files atan2 pow b fs = export_to_files atan2 pow a fs).
  { intros a b Hp Hc Hd.
    unfold export_to_files, c_pass, txt_pass, commands_pass, segment, command_at.
    now rewrite Hp, Hc, Hd. }
  intros Hp Hc Hd. split; [now apply H|]. split.
  - intros direction.
    destruct (cycle_waypoint_state fc direction) as [-> | [_ ->]]; [reflexivity|].
    now apply H.
  - intros side. now apply H.
Qed.

End ExportFrame.

(** * Rounding does not go below a float

    A positive number that is at least the float [M * 2^E], with [M] of 53
    bits, is rounded to a float that compares as at least [M * 2^E]. *)

Lemma bra_at_least s mx ex l M E :
  2 ^ 52 <= Zpos M -> -1074 <= E -> ex <= E ->
  Zpos M * 2 ^ (E - ex) <= mx ->
  at_least s M E (binary_round_aux prec emax s mx ex l).
Proof.
  intros HM HE Hex Hmx.
  pose proof (pow2_pos (E - ex) ltac:(lia)) as Hp.
  assert (H52 : 2 ^ 52 = 4503599627370496) by reflexivity.
  assert (H53 : 2 ^ 53 = 9007199254740992) by reflexivity.
  assert (Hpos : 0 < mx) by nia.
  unfold binary_round_aux.
  pose proof (shr_fexp_fits mx ex l ltac:(lia)) as Hfit.
  pose proof (shr_fexp_m mx ex l ltac:(lia)) as Hm'.
  pose proof (shr_fexp_e mx ex l) as He'.
  destruct (shr_fexp prec emax mx ex l) as [mrs' e'].
  cbn [fst snd] in Hfit, Hm', He'.
  pose proof (round_nearest_even_bounds (shr_m mrs') (loc_of_shr_record mrs')) as Hr.
  set (m1 := shr_m mrs') in *.
  set (mr := round_nearest_even m1 (loc_of_shr_record mrs')) in *.
  rewrite fexp_eq in Hm', He'.
  destruct (Zdigits2_bounds mx Hpos) as [Hdl Hdu].
  set (d := Zdigits2 mx) in *.
  (* the number has at least 53 + E - ex digits *)
  assert (Hd : 53 + E - ex <= d).
  { destruct (Z.le_gt_cases (53 + E - ex) d) as [|Hlt]; [assumption|exfalso].
    assert (2 ^ d <= 2 ^ (52 + E - ex)) by (apply Z.pow_le_mono_r; lia).
    assert (2 ^ (52 + E - ex) = 2 ^ 52 * 2 ^ (E - ex))
      by (rewrite <- Z.pow_add_r by lia; f_equal; lia).
    nia. }
  assert (Hf : Z.max (d + ex - 53) (-1074) = d + ex - 53) by lia.
  rewrite Hf in Hm', He'.
  (* after the first alignment: exponent [e' >= E], mantissa at least 2^52,
     and at least [M] when [e' = E] *)
  assert (He1 : e' = d + ex - 53 \/ (e' = ex /\ d + ex - 53 = ex)).
  { destruct (0 <? d + ex - 53 - ex) eqn:E0; [left; lia|right; lia]. }
  assert (Hm1 : m1 = mx / 2 ^ (e' - ex)).
  { destruct (0 <? d + ex - 53 - ex) eqn:E0.
    - rewrite Hm', He'. reflexivity.
    - rewrite Hm', He'. rewrite Z.sub_diag. simpl. now rewrite Z.div_1_r. }
  assert (He1' : E <= e') by lia.
  assert (Hk : e' - ex = d - 53) by lia.
  pose proof (pow2_pos (e' - ex) ltac:(lia)) as Hp1.
  assert (Hm1lo : 2 ^ 52 <= m1).
  { rewrite Hm1. apply Z.div_le_lower_bound; [lia|].
    rewrite <- Z.pow_add_r by lia. rewrite Hk.
    replace (d - 53 + 52) with (d - 1) by lia. lia. }
  assert (Hm1M : e' = E -> Zpos M <= m1).
  { intros ->. rewrite Hm1. apply Z.div_le_lower_bound; lia. }
  (* rounding and the second alignment *)
  assert (Hmr : 2 ^ 52 <= mr <= 2 ^ 53) by lia.
  pose proof (shr_fexp_m mr e' loc_Exact ltac:(lia)) as Hm''.
  pose proof (shr_fexp_e mr e' loc_Exact) as He''.
  destruct (shr_fexp prec emax mr e' loc_Exact) as [mrs'' e''].
  cbn [fst snd] in Hm'', He''. rewrite fexp_eq in Hm'', He''.
  destruct (Z.eq_dec mr (2 ^ 53)) as [Heq|Hne].
  - assert (Hdr : Zdigits2 mr = 54)
      by (apply Zdigits2_unique; [rewrite Heq; change (2 ^ (54 - 1)) with (2 ^ 53);
                                  change (2 ^ 54) with (2 * 2 ^ 53); lia|lia]).
    rewrite Hdr in Hm'', He''.
    replace (Z.max (54 + e' - 53) (-1074) - e') with 1 in Hm'', He'' by lia.
    cbn [Z.ltb Z.compare] in Hm'', He''.
    rewrite Hm'', Heq. change (2 ^ 53 / 2 ^ 1) with 4503599627370496.
    destruct (e'' <=? emax - prec); cbn; [split; [reflexivity|left; lia]|reflexivity].
  - assert (Hdr : Zdigits2 mr = 53)
      by (apply Zdigits2_unique; [change (53 - 1) with 52; lia|lia]).
    rewrite Hdr in Hm'', He''.
    replace (Z.max (53 + e' - 53) (-1074) - e') with 0 in Hm'', He'' by lia.
    cbn [Z.ltb Z.compare] in Hm'', He''. subst e''.
    rewrite Hm''. destruct mr as [|pr|pr] eqn:Epr; try lia.
    destruct (e' <=? emax - prec); cbn; [split; [reflexivity|]|reflexivity].
    destruct (Z.eq_dec e' E) as [->|]; [right; split; [reflexivity|]|left; lia].
    specialize (Hm1M eq_refl). lia.
Qed.

Lemma shl_align_snd m e f : snd (shl_align m e f) = Z.min e f.
Proof.
  unfold shl_align. destruct (f - e) as [|k|k] eqn:E; cbn [snd]; lia.
Qed.

Lemma binary_round_at_least s m e M E :
  2 ^ 52 <= Zpos M -> -1074 <= E -> e <= E ->
  Zpos M * 2 ^ (E - e) <= Zpos m ->
  at_least s M E (binary_round prec emax s m e).
Proof.
  intros HM HE He Hm. unfold binary_round.
  set (f := fexp prec emax (Zpos (digits2_pos m) + e)).
  pose proof (shl_align_snd m e f) as Hs.
  destruct (Z.le_gt_cases f e) as [Hfe|Hfe].
  - pose proof (shl_align_val m e f Hfe) as Hv.
    destruct (shl_align m e f) as [mz ez]. cbn [fst snd] in Hs, Hv.
    apply bra_at_least; try lia.
    rewrite Hv. replace ez with f by lia.
    replace (E - f) with ((E - e) + (e - f)) by lia.
    rewrite Z.pow_add_r by lia.
    pose proof (pow2_pos (e - f) ltac:(lia)). nia.
  - assert (Hv : fst (shl_align m e f) = m).
    { unfold shl_align. destruct (f - e) eqn:E0; try reflexivity. lia. }
    destruct (shl_align m e f) as [mz ez]. cbn [fst snd] in Hs, Hv. subst mz.
    apply bra_at_least; try lia. replace ez with e by lia. exact Hm.
Qed.

Lemma fadd_at_least M E mx ex :
  2 ^ 52 <= Zpos M -> -1074 <= E ->
  at_least false M E (fadd (S754_finite false M E) (S754_finite false mx ex)).
Proof.
  intros HM HE. unfold fadd, SFadd. cbn [cond_Zopp].
  set (ez := Z.min E ex).
  pose proof (shl_align_val M E ez ltac:(lia)) as Ha.
  pose proof (shl_align_val mx ex ez ltac:(lia)) as Hb.
  pose proof (pow2_pos (ex - ez) ltac:(lia)) as Hp.
  destruct (Zpos (fst (shl_align M E ez)) + Zpos (fst (shl_align mx ex ez))) as [|p|p] eqn:Ep;
    try lia.
  unfold binary_normalize. apply binary_round_at_least; lia.
Qed.

Lemma at_least_leb M E f :
  at_least false M E f -> SFleb (S754_finite false M E) f = true.
Proof.
  destruct f as [s|s| |s m e]; cbn [at_least]; try contradiction.
  - intros ->. reflexivity.
  - intros [-> [Hlt|[-> Hm]]]; unfold SFleb, SFcompare.
    + now rewrite (proj2 (Z.compare_lt_iff E e) Hlt).
    + rewrite Z.compare_refl. change (Pos.compare_cont Eq M m) with (Pos.compare M m).
      destruct (Pos.compare_spec M m); try reflexivity. lia.
Qed.

Lemma not_ltb_leb M E m e :
  SFltb (S754_finite false M E) (S754_finite false m e) = false ->
  SFleb (S754_finite false m e) (S754_finite false M E) = true.
Proof.
  unfold SFltb, SFleb, SFcompare.
  rewrite (Z.compare_antisym E e).
  change (Pos.compare_cont Eq m M) with (Pos.compare m M).
  change (Pos.compare_cont Eq M m) with (Pos.compare M m).
  rewrite (Pos.compare_antisym M m).
  destruct (Z.compare E e); cbn [CompOpp]; try reflexivity; try discriminate.
  destruct (Pos.compare M m); cbn [CompOpp]; try reflexivity; discriminate.
Qed.

(** X24. The speed is never above 100, whatever the distance.  For a
    distance that is finite and not negative it lies between 40 and 100, the
    bounds included, and for the distance 0.0 it is 40.0. *)
Theorem speed_between_40_and_100 :
  (forall distance, ltb (Int 100) (calculate_dynamic_speed distance) = false) /\
  (forall distance hi,
      fin_nonneg (-1074) hi (to_float distance) -> hi <= 200 ->
      geb (calculate_dynamic_speed distance) (Int 40) = true /\
      geb (Int 100) (calculate_dynamic_speed distance) = true) /\
  calculate_dynamic_speed (Float (S754_zero false)) = Float (float_of_Z 40).
Proof.
  split; [|split; [|vm_compute; reflexivity]].
  - intros distance. unfold calculate_dynamic_speed, min. cbv zeta.
    set (sp := add (Int 40) _).
    destruct (ltb (Int 100) sp) eqn:E; [reflexivity|exact E].
  - intros distance hi Hd Hhi.
    unfold calculate_dynamic_speed. cbv zeta. cbn [sub]. change (100 - 40) with 60.
    unfold truediv. cbn [to_float mul add].
    pose proof (fdiv_fin_nonneg (to_float distance) hi 100 Hd Hhi ltac:(simpl; lia)) as Hq.
    set (q := fdiv (to_float distance) (float_of_Z 100)) in *.
    assert (E60 : float_of_Z 60 = S754_finite false 8444249301319680 (-47))
      by (vm_compute; reflexivity).
    assert (E40 : float_of_Z 40 = S754_finite false 5629499534213120 (-47))
      by (vm_compute; reflexivity).
    assert (Hs : at_least false 5629499534213120 (-47)
                   (fadd (float_of_Z 40) (fmul q (float_of_Z 60)))).
    { rewrite E60, E40.
      destruct q as [sq|sq| |sq mq eq]; cbn [fin_nonneg] in Hq; try contradiction.
      - subst sq. cbn. split; [reflexivity|]. right. split; [reflexivity|lia].
      - destruct Hq as (-> & Hmq & Heq).
        unfold fmul, SFmul. cbn [xorb].
        pose proof (bra_finite false (Zpos (mq * 8444249301319680)) (eq + -47) loc_Exact 106)
          as Hx.
        destruct (binary_round_aux prec emax false (Zpos (mq * 8444249301319680)) (eq + -47)
                    loc_Exact) as [sx|sx| |sx mx ex].
        + rewrite Hx; [|rewrite Pos2Z.inj_mul; change (2 ^ 106) with (2 ^ 53 * 2 ^ 53);
                        change (2 ^ 53) with 9007199254740992 in *; nia|lia|lia|lia].
          cbn. split; [reflexivity|]. right. split; [reflexivity|lia].
        + exfalso. apply Hx; [rewrite Pos2Z.inj_mul; change (2 ^ 106) with (2 ^ 53 * 2 ^ 53);
                               change (2 ^ 53) with 9007199254740992 in *; nia|lia|lia|lia].
        + exfalso. apply Hx; [rewrite Pos2Z.inj_mul; change (2 ^ 106) with (2 ^ 53 * 2 ^ 53);
                               change (2 ^ 53) with 9007199254740992 in *; nia|lia|lia|lia].
        + destruct Hx as (-> & _);
            [rewrite Pos2Z.inj_mul; change (2 ^ 106) with (2 ^ 53 * 2 ^ 53);
             change (2 ^ 53) with 9007199254740992 in *; nia|lia|lia|lia|].
          apply fadd_at_least; [change (2 ^ 52) with 4503599627370496; lia|lia]. }
    set (s := fadd (float_of_Z 40) (fmul q (float_of_Z 60))) in *.
    pose proof (at_least_leb _ _ _ Hs) as Hlo. rewrite <- E40 in Hlo.
    unfold min. cbn [ltb to_float].
    destruct (SFltb (float_of_Z 100) s) eqn:Elt.
    + split; reflexivity.
    + cbn [geb to_float]. split; [exact Hlo|].
      assert (E100 : float_of_Z 100 = S754_finite false 7036874417766400 (-46))
        by (vm_compute; reflexivity).
      rewrite E100 in *.
      destruct s as [ss|ss| |ss ms es]; cbn [at_least] in Hs; try contradiction.
      * subst ss. discriminate Elt.
      * destruct Hs as [-> _]. now apply not_ltb_leb.
Qed.

(** * The Start button *)

Section StartButton.

Variable float_of_string : string -> result float.

(** X25. Start runs to its end exactly when the three entries read as
    floats and the canvas exists or can be made; it then enables the Export
    button and keeps the canvas that exists, or makes a new one with the
    side chosen so far.  In every other case it changes nothing: it shows
    the "Input Error" box for a [ValueError], whether an entry or the
    making of the canvas raised it, and lets any other exception
    through. *)
Theorem check_robot_info_outcomes load app :
  let r := check_robot_info float_of_string load app in
  (fst r = Done <->
   (exists width height weight,
       float_of_string (width_entry app) = Ok width /\
       float_of_string (height_entry app) = Ok height /\
       float_of_string (weight_entry app) = Ok weight) /\
   (is_Some (field_canvas app) \/ load = Ok tt)) /\
  (fst r = Done ->
   export_btn (snd r) = true /\
   field_canvas (snd r)
   = Some (match field_canvas app with
           | Some fc => fc
           | None => init (side_var app)
           end)) /\
  (fst r <> Done ->
   snd r = app /\
   (fst r = ShowError "Input Error" \/ exists e, e <> ValueError /\ fst r = Raised e)).
Proof.
  cbv zeta. unfold check_robot_info, start_field.
  destruct (float_of_string (width_entry app)) as [w|e]; cbn [rbind].
  2:{ split; [split; [destruct e; discriminate|intros [(? & ? & ? & ? & _) _]; discriminate]|].
      split; [destruct e; discriminate|]. intros _.
      destruct e; cbn [fst snd]; (split; [reflexivity|]);
        try (right; eexists; split; [|reflexivity]; discriminate); now left. }
  destruct (float_of_string (height_entry app)) as [h|e]; cbn [rbind].
  2:{ split; [split; [destruct e; discriminate
                     |intros [(? & ? & ? & _ & ? & _) _]; discriminate]|].
      split; [destruct e; discriminate|]. intros _.
      destruct e; cbn [fst snd]; (split; [reflexivity|]);
        try (right; eexists; split; [|reflexivity]; discriminate); now left. }
  destruct (float_of_string (weight_entry app)) as [wt|e]; cbn [rbind].
  2:{ split; [split; [destruct e; discriminate
                     |intros [(? & ? & ? & _ & _ & ?) _]; discriminate]|].
      split; [destruct e; discriminate|]. intros _.
      destruct e; cbn [fst snd]; (split; [reflexivity|]);
        try (right; eexists; split; [|reflexivity]; discriminate); now left. }
  destruct (field_canvas app) as [fc|] eqn:Ec.
  - cbn [fst snd]. split; [split; [intros _; split; eauto 10|reflexivity]|].
    split; [intros _; split; [reflexivity|exact Ec]|]. intros H. now contradiction H.
  - destruct load as [[]|e]; cbn [rbind fst snd].
    + split; [split; [intros _; split; eauto 10|reflexivity]|].
      split; [intros _; split; reflexivity|]. intros H. now contradiction H.
    + split; [split; [destruct e; discriminate|]|].
      * intros [_ [[fc Hfc]|Hl]]; discriminate.
      * split; [destruct e; discriminate|]. intros _.
        destruct e; cbn [fst snd]; (split; [reflexivity|]);
          try (right; eexists; split; [|reflexivity]; discriminate); now left.
Qed.

End StartButton.

(** * The number of sub-points is not below the exact one *)

(** Rounding a number of 53 bits or more that is at least the integer [z]
    gives a normal float that is at least [z]. *)
Lemma bra_ge_int mx ex l a z lo hi :
  2 ^ 52 <= mx < 2 ^ a -> -1074 <= lo <= ex -> a + ex - 52 <= hi -> hi <= 0 ->
  0 <= z -> z * 2 ^ (- ex) <= mx ->
  ge_int lo hi (binary_round_aux prec emax false mx ex l) z.
Proof.
  intros [Hlo Hhi] Hex Ha Hhi0 Hz Hzm.
  assert (H52 : 2 ^ 52 = 4503599627370496) by reflexivity.
  assert (H53 : 2 ^ 53 = 9007199254740992) by reflexivity.
  assert (Hpos : 0 < mx) by lia.
  assert (Ha0 : 0 <= a).
  { destruct (Z.le_gt_cases 0 a); [assumption|]. rewrite Z.pow_neg_r in Hhi; lia. }
  unfold binary_round_aux.
  pose proof (shr_fexp_fits mx ex l ltac:(lia)) as Hfit.
  pose proof (shr_fexp_m mx ex l ltac:(lia)) as Hm'.
  pose proof (shr_fexp_e mx ex l) as He'.
  destruct (shr_fexp prec emax mx ex l) as [mrs' e'].
  cbn [fst snd] in Hfit, Hm', He'.
  pose proof (round_nearest_even_bounds (shr_m mrs') (loc_of_shr_record mrs')) as Hr.
  set (m1 := shr_m mrs') in *.
  set (mr := round_nearest_even m1 (loc_of_shr_record mrs')) in *.
  rewrite fexp_eq in Hm', He'.
  destruct (Zdigits2_bounds mx Hpos) as [Hdl Hdu].
  assert (Hda : Zdigits2 mx <= a) by (apply Zdigits2_le; lia).
  set (d := Zdigits2 mx) in *.
  assert (Hd : 53 <= d).
  { destruct (Z.le_gt_cases 53 d) as [|Hlt]; [assumption|exfalso].
    assert (2 ^ d <= 2 ^ 52) by (apply Z.pow_le_mono_r; lia). lia. }
  assert (Hf : Z.max (d + ex - 53) (-1074) = d + ex - 53) by lia.
  rewrite Hf in Hm', He'.
  assert (He1 : e' = ex + (d - 53)).
  { destruct (0 <? d + ex - 53 - ex) eqn:E0; lia. }
  assert (Hm1 : m1 = mx / 2 ^ (d - 53)).
  { destruct (0 <? d + ex - 53 - ex) eqn:E0.
    - rewrite Hm'. f_equal. f_equal. lia.
    - rewrite Hm'. replace (d - 53) with 0 by lia. simpl. now rewrite Z.div_1_r. }
  pose proof (pow2_pos (d - 53) ltac:(lia)) as Hp1.
  pose proof (pow2_pos (- e') ltac:(lia)) as Hp2.
  assert (Hm1lo : 2 ^ 52 <= m1).
  { rewrite Hm1. apply Z.div_le_lower_bound; [lia|].
    rewrite <- Z.pow_add_r by lia.
    replace (d - 53 + 52) with (d - 1) by lia. lia. }
  assert (Hm1z : z * 2 ^ (- e') <= m1).
  { rewrite Hm1. apply Z.div_le_lower_bound; [lia|].
    replace (2 ^ (d - 53) * (z * 2 ^ (- e'))) with (z * (2 ^ (- e') * 2 ^ (d - 53))) by lia.
    rewrite <- Z.pow_add_r by lia.
    replace (- e' + (d - 53)) with (- ex) by lia. exact Hzm. }
  assert (Hmr : 2 ^ 52 <= mr <= 2 ^ 53) by lia.
  pose proof (shr_fexp_m mr e' loc_Exact ltac:(lia)) as Hm''.
  pose proof (shr_fexp_e mr e' loc_Exact) as He''.
  destruct (shr_fexp prec emax mr e' loc_Exact) as [mrs'' e''].
  cbn [fst snd] in Hm'', He''. rewrite fexp_eq in Hm'', He''.
  destruct (Z.eq_dec mr (2 ^ 53)) as [Heq|Hne].
  - assert (Hdr : Zdigits2 mr = 54)
      by (apply Zdigits2_unique; [rewrite Heq; change (2 ^ (54 - 1)) with (2 ^ 53);
                                  change (2 ^ 54) with (2 * 2 ^ 53); lia|lia]).
    rewrite Hdr in Hm'', He''.
    replace (Z.max (54 + e' - 53) (-1074) - e') with 1 in Hm'', He'' by lia.
    cbn [Z.ltb Z.compare] in Hm'', He''.
    rewrite Hm'', Heq. change (2 ^ 53 / 2 ^ 1) with 4503599627370496.
    assert (He''' : e'' = e' + 1) by lia. clear He''. subst e''.
    destruct (e' + 1 <=? emax - prec) eqn:Ee; [|unfold emax, prec in Ee; lia].
    cbn [ge_int]. split; [lia|]. split; [lia|]. split; [lia|].
    replace (- e') with (- (e' + 1) + 1) in Hm1z, Hp2 by lia.
    rewrite Z.pow_add_r in Hm1z by lia. change (2 ^ 1) with 2 in Hm1z. lia.
  - assert (Hdr : Zdigits2 mr = 53)
      by (apply Zdigits2_unique; [change (53 - 1) with 52; lia|lia]).
    rewrite Hdr in Hm'', He''.
    replace (Z.max (53 + e' - 53) (-1074) - e') with 0 in Hm'', He'' by lia.
    cbn [Z.ltb Z.compare] in Hm'', He''. subst e''.
    rewrite Hm''. destruct mr as [|pr|pr] eqn:Epr; try lia.
    destruct (e' <=? emax - prec) eqn:Ee; [|unfold emax, prec in Ee; lia].
    cbn [ge_int]. split; [lia|]. split; [lia|]. split; lia.
Qed.

Lemma fsqrt_ge_int K z :
  0 < K < 2 ^ 53 -> 0 <= z -> z * z <= K ->
  ge_int (-52) (-25) (fsqrt (float_of_Z K)) z.
Proof.
  intros HK Hz HzK.
  assert (H52 : 2 ^ 52 = 4503599627370496) by reflexivity.
  assert (H53 : 2 ^ 53 = 9007199254740992) by reflexivity.
  destruct (float_of_Z_finite K ltac:(lia) ltac:(lia)) as (m & e & -> & Hd & He & Hm).
  replace (K <? 0) with false by lia. rewrite Z.abs_eq in Hm by lia.
  unfold fsqrt, SFsqrt, SFsqrt_core_binary. rewrite Hd, fexp_eq, !Z.div2_div.
  set (e' := Z.min (Z.max ((53 + e + 1) / 2 - 53) (-1074)) (e / 2)).
  assert (He' : e' = e / 2 - 26) by (unfold e'; Z.div_mod_to_equations; lia).
  assert (Hs : e - 2 * e' = 52 \/ e - 2 * e' = 53) by (Z.div_mod_to_equations; lia).
  assert (He'r : -52 <= e' <= -26) by (Z.div_mod_to_equations; lia).
  set (s := e - 2 * e') in *.
  set (m' := match s with
             | 0 => Zpos m | Zpos _ => Z.shiftl (Zpos m) s | Zneg _ => 0
             end).
  assert (Hm' : m' = K * 2 ^ (- (2 * e'))).
  { unfold m'. destruct s as [|k|k] eqn:Es; try lia.
    rewrite Z.shiftl_mul_pow2 by lia. rewrite Hm, <- Z.mul_assoc, <- Z.pow_add_r by lia.
    f_equal. f_equal. lia. }
  destruct (Zdigits2_bounds (Zpos m) ltac:(lia)) as [Hml Hmu]. rewrite Hd in Hml, Hmu.
  change (53 - 1) with 52 in Hml.
  assert (Hm'b : 2 ^ 52 * 2 ^ 52 <= m' < 2 ^ 53 * 2 ^ 53).
  { unfold m'. destruct s as [|k|k] eqn:Es; try lia.
    rewrite Z.shiftl_mul_pow2 by lia.
    destruct Hs as [Hs|Hs]; rewrite Hs.
    - change (2 ^ 52) with 4503599627370496. lia.
    - change (2 ^ 53) with 9007199254740992. lia. }
  pose proof (Z.sqrtrem_spec m' ltac:(lia)) as Hq.
  destruct (Z.sqrtrem m') as [q r].
  assert (Hq0 : 0 <= q) by nia.
  assert (Hqlo : 2 ^ 52 <= q).
  { destruct (Z.le_gt_cases (2 ^ 52) q) as [|Hlt]; [assumption|exfalso].
    assert ((q + 1) * (q + 1) <= 2 ^ 52 * 2 ^ 52) by (apply Z.mul_le_mono_nonneg; lia).
    lia. }
  assert (Hqhi : q < 2 ^ 53).
  { destruct (Z.lt_ge_cases q (2 ^ 53)) as [|Hge]; [assumption|exfalso].
    assert (2 ^ 53 * 2 ^ 53 <= q * q) by (apply Z.mul_le_mono_nonneg; lia). lia. }
  pose proof (pow2_pos (- e') ltac:(lia)) as Hp.
  assert (Hzq : z * 2 ^ (- e') <= q).
  { destruct (Z.le_gt_cases (z * 2 ^ (- e')) q) as [|Hlt]; [assumption|exfalso].
    assert ((q + 1) * (q + 1) <= (z * 2 ^ (- e')) * (z * 2 ^ (- e')))
      by (apply Z.mul_le_mono_nonneg; lia).
    assert (E2 : (z * 2 ^ (- e')) * (z * 2 ^ (- e')) = z * z * 2 ^ (- (2 * e'))).
    { replace (- (2 * e')) with (- e' + - e') by lia. rewrite Z.pow_add_r by lia. lia. }
    pose proof (pow2_pos (- (2 * e')) ltac:(lia)). nia. }
  apply bra_ge_int with (a := 53); lia.
Qed.

Lemma fdiv_ge_int lo hi x d j :
  ge_int lo hi x (d * j) -> -1021 <= lo -> hi <= -1 -> 0 < d < 2 ^ 53 -> 0 <= j ->
  ge_int (lo - 53) (hi + 1) (fdiv x (float_of_Z d)) j.
Proof.
  intros Hx Hlo Hhi Hd Hj.
  assert (H52 : 2 ^ 52 = 4503599627370496) by reflexivity.
  assert (H53 : 2 ^ 53 = 9007199254740992) by reflexivity.
  destruct (float_of_Z_finite d ltac:(lia) ltac:(lia)) as (m2 & e2 & -> & Hd2 & He2 & Hm2).
  replace (d <? 0) with false by lia. rewrite Z.abs_eq in Hm2 by lia.
  destruct x as [s|s| |[|] m1 e1]; cbn [ge_int] in Hx; try contradiction.
  destruct Hx as (Hm1 & He1 & _ & Hv).
  assert (Hd1 : Zdigits2 (Zpos m1) = 53)
    by (apply Zdigits2_unique; [change (53 - 1) with 52; lia|lia]).
  destruct (Zdigits2_bounds (Zpos m2) ltac:(lia)) as [Hm2l Hm2u]. rewrite Hd2 in Hm2l, Hm2u.
  change (53 - 1) with 52 in Hm2l.
  unfold fdiv, SFdiv, SFdiv_core_binary. rewrite Hd1, Hd2, fexp_eq.
  set (e' := Z.min (Z.max (53 + e1 - (53 + e2) - 53) (-1074)) (e1 - e2)).
  assert (He' : e' = e1 - e2 - 53) by (unfold e'; lia).
  replace (e1 - e2 - e') with 53 by lia.
  cbv iota. rewrite Z.shiftl_mul_pow2 by lia.
  pose proof (Z_div_mod (Zpos m1 * 2 ^ 53) (Zpos m2) ltac:(lia)) as Hqr.
  destruct (Z.div_eucl (Zpos m1 * 2 ^ 53) (Zpos m2)) as [q r].
  destruct Hqr as [Hqr Hr]. cbn [xorb].
  pose proof (pow2_pos (- e1) ltac:(lia)) as Hp1.
  pose proof (pow2_pos (- e2) ltac:(lia)) as Hp2.
  pose proof (pow2_pos (- e') ltac:(lia)) as Hp3.
  assert (Hqlo : 2 ^ 52 <= q).
  { destruct (Z.le_gt_cases (2 ^ 52) q) as [|Hlt]; [assumption|exfalso].
    assert (Zpos m2 * (q + 1) <= Zpos m2 * 2 ^ 52) by (apply Z.mul_le_mono_nonneg_l; lia).
    nia. }
  assert (Hqhi : q < 2 ^ 54).
  { change (2 ^ 54) with (2 * 2 ^ 53).
    destruct (Z.lt_ge_cases q (2 * 2 ^ 53)) as [|Hge]; [assumption|exfalso].
    assert (Zpos m2 * (2 * 2 ^ 53) <= Zpos m2 * q) by (apply Z.mul_le_mono_nonneg_l; lia).
    nia. }
  assert (Hjq : j * 2 ^ (- e') <= q).
  { destruct (Z.le_gt_cases (j * 2 ^ (- e')) q) as [|Hlt]; [assumption|exfalso].
    assert (Hle : Zpos m2 * (q + 1) <= Zpos m2 * (j * 2 ^ (- e')))
      by (apply Z.mul_le_mono_nonneg_l; lia).
    assert (E2 : Zpos m2 * (j * 2 ^ (- e')) = d * j * 2 ^ (- e1) * 2 ^ 53).
    { assert (E3 : 2 ^ 53 = 2 ^ (- e2) * 2 ^ (e2 + 53))
        by (rewrite <- Z.pow_add_r by lia; f_equal; lia).
      rewrite Hm2. replace (- e') with (- e1 + (e2 + 53)) by lia.
      rewrite Z.pow_add_r by lia. rewrite E3. ring. }
    assert (d * j * 2 ^ (- e1) * 2 ^ 53 <= Zpos m1 * 2 ^ 53)
      by (apply Z.mul_le_mono_nonneg_r; lia).
    lia. }
  apply bra_ge_int with (a := 54); lia.
Qed.

Lemma int_of_float_ge_int lo hi f j :
  ge_int lo hi f j -> exists k, int_of_float f = Ok k /\ j <= k.
Proof.
  destruct f as [s|s| |[|] m e]; cbn [ge_int]; try contradiction.
  intros (Hm & He & Hhi & Hv). cbn [int_of_float cond_Zopp].
  eexists. split; [reflexivity|].
  destruct e as [|p|p]; try lia.
  - rewrite Z.shiftl_0_r. simpl in Hv. lia.
  - rewrite Z.shiftr_div_pow2 by lia.
    change (- Zneg p) with (Zpos p) in Hv.
    pose proof (pow2_pos (Zpos p) ltac:(lia)).
    apply Z.div_le_lower_bound; lia.
Qed.

Section CountMore.

Variable pow : float -> float -> float.

(** X26. Rounding never costs a straight segment a sub-point: a segment
    of length at least [j] times the threshold is cut into [j] sub-points
    or more.  With the threshold 3 of the export, a segment of 6 pixels or
    more has two sub-points or more.  (Squared lengths up to 2^53, which
    the float holds without rounding.) *)
Theorem straight_count_at_least (p1 p2 : Z * Z) (d j : Z) :
  let K := (fst p2 - fst p1) * (fst p2 - fst p1) + (snd p2 - snd p1) * (snd p2 - snd p1) in
  0 < K < 2 ^ 53 -> 0 < d < 2 ^ 53 -> 0 <= j -> (d * j) * (d * j) <= K ->
  (exists pts,
      generate_intermediate_points pow (ipoint p1) (ipoint p2) None (Int d) = Ok pts /\
      j <= Z.of_nat (length pts)) /\
  (d = 3 -> 36 <= K ->
   exists pts,
     generate_intermediate_points pow (ipoint p1) (ipoint p2) None (Int 3) = Ok pts /\
     (2 <= length pts)%nat).
Proof.
  intros K HK Hd Hj HjK.
  assert (Hcount : forall i, 0 <= i -> (d * i) * (d * i) <= K ->
            exists pts,
              generate_intermediate_points pow (ipoint p1) (ipoint p2) None (Int d) = Ok pts /\
              i <= Z.of_nat (length pts)).
  { intros i Hi HiK.
    assert (Hs : ge_int (-52) (-25) (fsqrt (float_of_Z K)) (d * i))
      by (apply fsqrt_ge_int; lia).
    pose proof (fdiv_ge_int _ _ _ d i Hs ltac:(lia) ltac:(lia) Hd Hi) as Hq.
    destruct (int_of_float_ge_int _ _ _ _ Hq) as (k & Hk & Hik).
    eexists. split.
    - apply (straight_points_at pow (ipoint p1) (ipoint p2) d k); [lia|].
      rewrite calculate_distance_ints. exact Hk.
    - rewrite length_map, range_length. lia. }
  split; [now apply Hcount|].
  intros -> HK36. destruct (Hcount 2 ltac:(lia) ltac:(lia)) as (pts & Hp & Hl).
  exists pts. split; [exact Hp|lia].
Qed.

End CountMore.

(** * From the gesture to the files *)

Section EndToEnd.

Variable atan2 : float -> float -> float.
Variable pow : float -> float -> float.
Variable float_of_string : string -> result float.

Lemma finalize_closes_drag fc cx cy :
  dragging_curve (snd (finalize_curve_point fc cx cy)) = false.
Proof.
  unfold finalize_curve_point.
  destruct (dragging_curve fc) eqn:Ed; cbn [negb]; [|exact Ed].
  cbn [path_points set_dragging].
  destruct (index (path_points fc) (-2)); destruct (index (path_points fc) (-1));
    reflexivity.
Qed.

(** X27. A drag is opened by a left press on a path that is not empty,
    and by nothing else; the release of the button closes it, whatever
    state it finds.  So in every state the events lead to, right after a
    release the path can be exported: with two waypoints or more the export
    runs to its end. *)
Theorem release_closes_drag fc cx cy fs :
  reachable fc -> c_int cx -> c_int cy ->
  dragging_curve (snd (finalize_curve_point fc cx cy)) = false /\
  ((2 <= length (path_points fc))%nat ->
   fst (export_to_files atan2 pow (snd (finalize_curve_point fc cx cy)) fs) = Ok tt) /\
  (forall ev,
      dragging_curve fc = false -> dragging_curve (snd (handle fc ev)) = true ->
      exists x y, ev = LeftPress x y /\ path_points fc <> []).
Proof.
  intros Hr Hx Hy. split; [apply finalize_closes_drag|]. split.
  - intros Hl.
    assert (Hr' : reachable (snd (finalize_curve_point fc cx cy)))
      by (apply (reachable_step fc (LeftRelease cx cy) Hr); split; assumption).
    pose proof (reachable_exportable _ Hr' (finalize_closes_drag fc cx cy)) as Hx'.
    destruct (finalize_curve_point_path fc cx cy) as (Hp & _).
    destruct (last_two (path_points fc) Hl) as (l & p & q & Hpq).
    rewrite <- Hp in Hpq.
    now rewrite (export_run atan2 pow _ l p q fs Hx' Hpq).
  - intros ev Hd.
    destruct ev as [x y|x y|x y|x y|direction|cmd| |side]; cbn [handle].
    + destruct (is_valid_point fc x) eqn:Ev.
      * rewrite (add_straight_line_valid fc x y Ev). cbn. congruence.
      * unfold add_straight_line. rewrite Ev. cbn. congruence.
    + destruct (is_valid_point fc x) eqn:Ev.
      * rewrite (start_curve_point_valid fc x y Ev). cbn [snd dragging_curve set_dragging].
        destruct (path_points fc); [congruence|]. intros _. exists x, y.
        split; [reflexivity|discriminate].
      * unfold start_curve_point. rewrite Ev. cbn. congruence.
    + rewrite adjust_curve_point_state. congruence.
    + rewrite finalize_closes_drag. discriminate.
    + destruct (cycle_waypoint_state fc direction) as [-> | [_ ->]]; cbn; congruence.
    + destruct (assign_command_state fc cmd) as [-> | (wp & b & n & _ & _ & _ & ->)];
        cbn; congruence.
    + destruct (remove_command_state fc) as [-> | (wp & _ & _ & ->)]; cbn; congruence.
    + cbn. congruence.
Qed.

(** X28. In the window, whatever was done before: when the Export button
    is enabled, no drag is open and the path has two waypoints or more, a
    click on Export runs to its end and writes both files, the
    declarations, the instructions and the closing lines to the
    struct-array file and the same instructions to the transcript; the
    window itself is left as it is. *)
Theorem export_click_succeeds evs fs0 fc :
  Forall app_event_in_range evs ->
  let st := app_run atan2 pow float_of_string (MainApp_init, fs0) evs in
  export_btn (fst st) = true ->
  field_canvas (fst st) = Some fc ->
  dragging_curve fc = false -> (2 <= length (path_points fc))%nat ->
  exists body,
    app_handle atan2 pow float_of_string st ExportButton
    = (Done, (fst st, {| c_file := Some (map Text header ++ body ++ map Text footer);
                         txt_file := Some body |})).
Proof.
  intros Hevs st Hb Hfc Hd Hl.
  assert (Hok : window_ok (fst st)).
  { apply app_run_ok; [exact Hevs|]. split; discriminate. }
  destruct Hok as [_ Hc]. destruct (Hc fc Hfc) as [_ Hr].
  pose proof (reachable_exportable fc Hr Hd) as Hx.
  destruct (last_two (path_points fc) Hl) as (l & p & q & Hpq).
  destruct st as [app fs]. cbn [fst] in *. cbn [app_handle]. rewrite Hb.
  unfold MainApp_export_to_files. rewrite Hfc.
  rewrite (export_run atan2 pow fc l p q fs Hx Hpq). eexists. reflexivity.
Qed.

End EndToEnd.

(** * The statements above at the scenarios *)

Lemma c_int_literal z : c_intb z = true -> c_int z.
Proof. unfold c_intb, c_int. lia. Qed.

Lemma reachable_start_only : reachable start_only.
Proof.
  apply (reachable_step (init "none") (RightClick 0 0)); [constructor|].
  split; apply c_int_literal; reflexivity.
Qed.

Lemma reachable_two_points : reachable two_points.
Proof.
  apply (reachable_step start_only (RightClick 100 0)); [apply reachable_start_only|].
  split; apply c_int_literal; reflexivity.
Qed.

Lemma reachable_two_points_selected : reachable two_points_selected.
Proof.
  apply (reachable_step two_points (ArrowKey 1)); [apply reachable_two_points|exact I].
Qed.

Lemma reachable_curve_open : reachable curve_open.
Proof.
  apply (reachable_step start_only (LeftPress 100 0)); [apply reachable_start_only|].
  split; apply c_int_literal; reflexivity.
Qed.

Lemma libm_pow_exact : pow_exact_at_0_1 Libm.pow.
Proof. split; [intros []; reflexivity|reflexivity]. Qed.

Lemma cycle_waypoint_round_trip_witness :
  cycle_waypoint (snd (cycle_waypoint two_points_selected 1)) (- (1))
  = (Done, two_points_selected).
Proof.
  destruct (cycle_waypoint_round_trip two_points_selected 1) as (_ & _ & _ & H & _).
  - apply reachable_consistent, reachable_two_points_selected.
  - discriminate.
  - exact H.
Defined.

Lemma cycle_waypoint_first_press_witness :
  selected_waypoint_index (snd (cycle_waypoint two_points (-1))) = 0.
Proof.
  destruct (cycle_waypoint_first_press two_points) as [_ H].
  - apply reachable_consistent, reachable_two_points.
  - reflexivity.
  - destruct H as (_ & _ & H); [discriminate|]. apply H. cbn. lia.
Defined.

Lemma selection_never_cleared_witness :
  selected_waypoint_index (run two_points_selected [RightClick 5 5; ArrowKey 1]) <> -1.
Proof.
  apply (selection_never_cleared two_points_selected [RightClick 5 5; ArrowKey 1] PickUp).
  discriminate.
Defined.

Lemma new_waypoint_resets_command_witness :
  command_at two_points_last_pick (100, 0) = Ok PickUp /\
  command_at (snd (add_straight_line two_points_last_pick 100 0)) (100, 0) = Ok NoCommand.
Proof.
  split; [reflexivity|].
  destruct (new_waypoint_resets_command two_points_last_pick 100 0 add_straight_line)
    as (_ & _ & H & _).
  - now left.
  - reflexivity.
  - apply (H 1%nat). reflexivity.
Defined.

Lemma waypoints_on_allowed_side_witness :
  is_valid_point
    (run (init "left") [RightClick 20 20; RightClick 500 5; LeftPress 100 30]) 100 = true.
Proof.
  apply (waypoints_on_allowed_side "left" [RightClick 20 20; RightClick 500 5; LeftPress 100 30]
           (100, 30)).
  - repeat constructor.
  - apply list_elem_of_In. vm_compute. right. left. reflexivity.
Defined.

Lemma export_files_agree_witness :
  exists body,
    c_file (snd (export_to_files Libm.atan2 Libm.pow two_points no_files))
    = Some (map Text header ++ body ++ map Text footer) /\
    txt_file (snd (export_to_files Libm.atan2 Libm.pow two_points no_files)) = Some body.
Proof.
  apply (export_files_agree Libm.atan2 Libm.pow two_points no_files).
  vm_compute. reflexivity.
Defined.

Lemma export_succeeds_witness :
  fst (export_to_files Libm.atan2 Libm.pow two_points no_files) = Ok tt.
Proof.
  destruct (export_succeeds Libm.atan2 Libm.pow two_points no_files) as (body & H & _).
  - apply reachable_two_points.
  - reflexivity.
  - cbn. lia.
  - now rewrite H.
Defined.

Lemma export_during_drag_witness :
  fst (export_to_files Libm.atan2 Libm.pow curve_open no_files) = Raise AttributeError.
Proof.
  rewrite (export_during_drag Libm.atan2 Libm.pow curve_open no_files).
  - reflexivity.
  - apply reachable_curve_open.
  - reflexivity.
Defined.

Lemma export_visits_waypoints_witness :
  exists lines e,
    c_file (snd (export_to_files Libm.atan2 Libm.pow two_points no_files)) = Some lines /\
    Entry e ∈ lines /\ pos e = fpoint (100, 0).
Proof.
  destruct (export_visits_waypoints Libm.atan2 Libm.pow two_points no_files 0 (0, 0) (100, 0))
    as (lines & body & e & H & Hl & _ & _ & Hp & _).
  - apply reachable_two_points.
  - reflexivity.
  - reflexivity.
  - reflexivity.
  - exists lines, e. rewrite H. repeat split; assumption.
Defined.

Lemma bezier_endpoints_witness :
  last (calculate_quadratic_bezier_points Libm.pow (Int 0, Int 0) (Int 100, Int 0)
          (Int 50, Int 50))
  = Some (fpoint (100, 0)).
Proof.
  apply (bezier_endpoints Libm.pow (0, 0) (100, 0) (50, 50)).
  - apply libm_pow_exact.
  - split; apply c_int_literal; reflexivity.
  - split; apply c_int_literal; reflexivity.
  - split; apply c_int_literal; reflexivity.
Defined.

Lemma short_segment_single_point_witness :
  generate_intermediate_points Libm.pow (Int 0, Int 0) (Int 3, Int 4) None (Int 3)
  = Ok [fpoint (3, 4)].
Proof.
  apply (short_segment_single_point Libm.pow (0, 0) (3, 4)).
  - split; apply c_int_literal; reflexivity.
  - split; apply c_int_literal; reflexivity.
  - cbn. lia.
Defined.

Lemma export_button_needs_canvas_witness :
  exists fc,
    field_canvas
      (fst (app_run Libm.atan2 Libm.pow float_of_digits (MainApp_init, no_files)
              [SideRadio "left"; Typed "300" "400" "5"; StartButton (Ok tt);
               CanvasEvent (RightClick 20 20)]))
    = Some fc /\
    selected_side fc = "left"%string.
Proof.
  destruct (export_button_needs_canvas Libm.atan2 Libm.pow float_of_digits
              [SideRadio "left"; Typed "300" "400" "5"; StartButton (Ok tt);
               CanvasEvent (RightClick 20 20)] no_files) as (H1 & H2 & _).
  - repeat constructor; apply c_int_literal; reflexivity.
  - destruct H1 as (fc & Hfc & _); [reflexivity|].
    exists fc. split; [exact Hfc|]. now destruct (H2 fc Hfc) as [-> _].
Defined.

Lemma start_is_kept_witness :
  exists fc',
    field_canvas
      (fst (app_run Libm.atan2 Libm.pow float_of_digits
              ({| width_entry := "300"; height_entry := "400"; weight_entry := "5";
                  side_var := "none"; export_btn := true;
                  field_canvas := Some two_points |}, no_files)
              [Typed "" "" ""; StartButton (Ok tt); StartButton (Raise ValueError)]))
    = Some fc' /\
    path_points two_points `prefix_of` path_points fc'.
Proof.
  destruct (start_is_kept Libm.atan2 Libm.pow float_of_digits
              ({| width_entry := "300"; height_entry := "400"; weight_entry := "5";
                  side_var := "none"; export_btn := true;
                  field_canvas := Some two_points |}, no_files)
              [Typed "" "" ""; StartButton (Ok tt); StartButton (Raise ValueError)]
              two_points) as [_ H].
  - reflexivity.
  - reflexivity.
  - exact H.
Defined.

Lemma handlers_never_raise_witness :
  fst (handle two_points_selected (CommandButton Scoop)) = Done \/
  exists title,
    handle two_points_selected (CommandButton Scoop) = (ShowError title, two_points_selected) /\
    title ∈ ["Invalid Point"; "No Waypoint Selected"; "Clasp Required"; "No Scoops"]%string.
Proof.
  apply (handlers_never_raise two_points_selected (CommandButton Scoop)).
  - apply reachable_two_points_selected.
  - exact I.
Defined.

Lemma curve_gesture_is_right_click_witness :
  snd (finalize_curve_point
         (run (snd (start_curve_point start_only 100 0))
              [LeftMotion 60 40; LeftMotion 50 50]) 50 50)
  = two_points.
Proof.
  apply (curve_gesture_is_right_click start_only 100 0 [(60, 40); (50, 50)] 50 50).
  reflexivity.
Defined.

Lemma export_reads_path_and_commands_witness :
  export_to_files Libm.atan2 Libm.pow two_points_selected no_files
  = export_to_files Libm.atan2 Libm.pow two_points no_files.
Proof.
  apply (export_reads_path_and_commands Libm.atan2 Libm.pow two_points two_points_selected
           no_files); reflexivity.
Defined.

Lemma straight_count_at_least_witness :
  exists pts,
    generate_intermediate_points Libm.pow (Int 0, Int 0) (Int 100, Int 0) None (Int 3) = Ok pts /\
    33 <= Z.of_nat (length pts).
Proof.
  apply (straight_count_at_least Libm.pow (0, 0) (100, 0) 3 33).
  - cbn. lia.
  - cbn. lia.
  - lia.
  - cbn. lia.
Defined.

Lemma release_closes_drag_witness :
  fst (export_to_files Libm.atan2 Libm.pow (snd (finalize_curve_point curve_open 50 50))
         no_files)
  = Ok tt.
Proof.
  destruct (release_closes_drag Libm.atan2 Libm.pow curve_open 50 50 no_files) as (_ & H & _).
  - apply reachable_curve_open.
  - apply c_int_literal. reflexivity.
  - apply c_int_literal. reflexivity.
  - apply H. cbn. lia.
Defined.

Lemma export_click_succeeds_witness :
  fst (app_handle Libm.atan2 Libm.pow float_of_digits
         (app_run Libm.atan2 Libm.pow float_of_digits (MainApp_init, no_files)
            [Typed "300" "400" "5"; StartButton (Ok tt);
             CanvasEvent (RightClick 0 0); CanvasEvent (RightClick 100 0)])
         ExportButton)
  = Done.
Proof.
  destruct (export_click_succeeds Libm.atan2 Libm.pow float_of_digits
              [Typed "300" "400" "5"; StartButton (Ok tt);
               CanvasEvent (RightClick 0 0); CanvasEvent (RightClick 100 0)]
              no_files two_points) as [body H].
  - repeat constructor; apply c_int_literal; reflexivity.
  - reflexivity.
  - reflexivity.
  - reflexivity.
  - cbn. lia.
  - now rewrite H.
Defined.

